(** * Pentobi: the Monte-Carlo tree search controller

    A shallow embedding of the parts of [libboardgame_mcts/Search.h] and
    [libboardgame_util/IntervalChecker.cpp] that decide the properties
    stated about the search: node capacity of the arenas, the final move
    selection, the in-tree child selection, the "move cannot change" test,
    the RAVE backup, the subtree reuse at the start of a search, pruning,
    the search loop and the interval checker.  Beside them it embeds the
    functions around these: the expensive abort check, the value of a
    search, the backups of values and of last good replies, the descent in
    the tree, the creation of the threads and, of
    [libboardgame_util/Assert.cpp], the handling of failed assertions.

    Numbers.  [size_t] and [unsigned] values are integers of [Z] with the
    wrap-around written out where the code can reach it.  The values of
    the floating type [Float] (and of [double]) are the rationals they
    denote, and comparisons of finite floats are comparisons of these
    rationals.  The scores that [select_child] compares are computed with
    the rounding of the floating type after every operation; the rounding
    is a parameter, and [round_nearest_even] is the one of IEEE 754.  In
    the other functions the arithmetic is the exact one.  It is what the
    code computes on counts (whole numbers that the floating type holds,
    doubling); where the code may round a sum or a quotient, what is
    stated about it either holds whatever the rounding, as bounds and
    orders do, or is stated for operands whose exact result is a value of
    the floating type.  Infinities and NaN are outside the model.

    Threads.  The search loop runs in [m_nu_threads] threads, which share
    the tree and the counter of simulations.  The model follows the loop
    of thread 0, which is the whole search when the search has one
    thread; what is stated about the number and the numbering of the
    simulations of a search is stated for a search with one thread. *)

From Stdlib Require Import ZArith QArith Qround Qminmax Qabs Qpower Lqa List
  Bool Lia Arith.
From Stdlib Require String DecimalString.
Import ListNotations.

Local Open Scope Q_scope.

(** ** The floating type *)

Definition Float := Q.

(** [x > y] on [Float]. *)
Definition Float_gt (x y : Float) : bool := negb (Qle_bool x y).

(** [x >= y] on [Float]. *)
Definition Float_ge (x y : Float) : bool := Qle_bool y x.

(** [x < y] on [Float]. *)
Definition Float_lt (x y : Float) : bool := Float_gt y x.

(** [x == y] on [Float]. *)
Definition Float_eq (x y : Float) : bool := Qeq_bool x y.

(** Conversion of an integer ([size_t], [unsigned]) to [Float]. *)
Definition Float_of_Z (z : Z) : Float := inject_Z z.

(** ** Rounded arithmetic

    An operation of the code on [Float] gives the exact result rounded to
    the floating type.  [round] is the rounding of the floating type. *)

Section FloatArithmetic.

Variable round : Q -> Float.

(** [x + y] on [Float]. *)
Definition Float_add (x y : Float) : Float := round (x + y).

(** [x - y] on [Float]. *)
Definition Float_sub (x y : Float) : Float := round (x - y).

(** [x * y] on [Float]. *)
Definition Float_mul (x y : Float) : Float := round (x * y).

(** [x / y] on [Float]. *)
Definition Float_div (x y : Float) : Float := round (x / y).

End FloatArithmetic.

(** The exponent of a positive rational [x]: the [e] with
    [2 ^ e <= x < 2 ^ (e + 1)]. *)
Definition Qexponent (x : Q) : Z :=
  let e := (Z.log2 (Qnum x) - Z.log2 (Zpos (Qden x)))%Z in
  if Qle_bool (2 ^ e) x then e else (e - 1)%Z.

(** The integer nearest to [x], the even one of the two when [x] lies
    halfway between them. *)
Definition Qround_even (x : Q) : Z :=
  let f := Qfloor x in
  let r := x - inject_Z f in
  if Float_gt r (1 # 2) then (f + 1)%Z
  else if Float_lt r (1 # 2) then f
  else if Z.even f then f else (f + 1)%Z.

(** The rounding of IEEE 754 binary arithmetic in its default mode, to
    nearest with ties to even, for a significand of [digits] bits
    ([numeric_limits<Float>::digits]: 24 for [float], 53 for [double]).
    The range of the exponent is not bounded: overflow and subnormal
    numbers are left out. *)
Definition round_nearest_even (digits : Z) (x : Q) : Float :=
  if Float_eq x 0 then 0
  else
    let a := Qabs x in
    let ulp := 2 ^ (Qexponent a - (digits - 1)) in
    let m := inject_Z (Qround_even (a / ulp)) * ulp in
    Qred (if Float_lt x 0 then - m else m).

(** [x] is a value of a floating type with a significand of [digits]
    bits. *)
Definition Float_representable (digits : Z) (x : Q) : Prop :=
  round_nearest_even digits x == x.

(** ** Integer limits *)

Module Limits.

(** [numeric_limits<unsigned>::max()] *)
Definition unsigned_max : Z := (2 ^ 32 - 1)%Z.

(** [numeric_limits<size_t>::max()] *)
Definition size_t_max : Z := (2 ^ 64 - 1)%Z.

(** Arithmetic of [size_t] wraps modulo [2^64]. *)
Definition wrap_size_t (z : Z) : Z := (z mod 2 ^ 64)%Z.

End Limits.

(** ** Nodes

    [Move] stands for the template parameter [M] through [M::to_int()].
    A node carries its move, its statistics and its children in the order
    in which [ChildIterator] visits them (the order of allocation). *)

Definition Move := nat.

#[warnings="-register-all"]
Inductive Node : Type := mkNode {
  get_move : Move;
  get_count : Float;
  get_value : Float;
  get_rave_count : Float;
  get_rave_value : Float;
  get_children : list Node
}.

Definition has_children (node : Node) : bool :=
  match get_children node with
  | [] => false
  | _ :: _ => true
  end.

(** A leaf with the given move, count and value. *)
Definition leaf (mv : Move) (count value : Float) : Node :=
  mkNode mv count value 0 0 [].

(** ** [Search::get_max_nodes]

    [sizeof(Node)] and [numeric_limits<NodeIndex>::max()] come from
    declarations outside the embedded files and are parameters. *)

Section MaxNodes.

Variable sizeof_Node : Z.
Variable NodeIndex_max : Z.

Definition get_max_nodes (memory : Z) : Z :=
  let max_nodes := (memory / sizeof_Node / 2)%Z in
  let max_nodes := Z.min max_nodes NodeIndex_max in
  max_nodes.

End MaxNodes.

(** ** [Search::check_move_cannot_change] *)

(** The loop over the children of the root; the state is
    [(max_count, second_max_count)]. *)
Fixpoint check_move_cannot_change_loop
    (cs : list Node) (max_count second_max_count : Float) : Float * Float :=
  match cs with
  | [] => (max_count, second_max_count)
  | i :: cs' =>
      let count := get_count i in
      if Float_gt count max_count
      then check_move_cannot_change_loop cs' count max_count
      else check_move_cannot_change_loop cs' max_count second_max_count
  end.

Definition check_move_cannot_change
    (root : Node) (count remaining : Float) : bool :=
  if Float_gt remaining count then false
  else
    let '(max_count, second_max_count) :=
      check_move_cannot_change_loop (get_children root) 0 0 in
    Float_gt max_count (second_max_count + remaining).

(** ** [Search::select_child_final] *)

(** [find(exclude_moves->begin(), exclude_moves->end(), mv) != end()], with
    [None] for the null pointer. *)
Definition is_excluded (exclude_moves : option (list Move)) (mv : Move) : bool :=
  match exclude_moves with
  | None => false
  | Some l => existsb (Nat.eqb mv) l
  end.

Section SelectChildFinal.

(** [numeric_limits<Float>::max()] *)
Variable Float_max : Float.

(** The loop over the children.  [idx] is the position of the child under
    the iterator; the result is the position and the child, [None] for the
    null pointer. *)
Fixpoint select_child_final_loop
    (exclude_moves : option (list Move)) (cs : list Node) (idx : nat)
    (result : option (nat * Node)) (max_count max_count_value : Float)
    : option (nat * Node) :=
  match cs with
  | [] => result
  | i :: cs' =>
      let count := get_count i in
      if Float_gt count max_count
         || (Float_eq count max_count
             && Float_gt (get_value i) max_count_value)
      then
        if is_excluded exclude_moves (get_move i)
        then select_child_final_loop exclude_moves cs' (S idx)
               result max_count max_count_value
        else select_child_final_loop exclude_moves cs' (S idx)
               (Some (idx, i)) count (get_value i)
      else select_child_final_loop exclude_moves cs' (S idx)
             result max_count max_count_value
  end.

Definition select_child_final
    (node : Node) (exclude_moves : option (list Move))
    : option (nat * Node) :=
  select_child_final_loop exclude_moves (get_children node) 0%nat
    None (-1) (- Float_max).

(** [Search::select_move]: the move written to [mv], if any, and the
    returned flag. *)
Definition select_move
    (root : Node) (exclude_moves : option (list Move))
    : option Move * bool :=
  match select_child_final root exclude_moves with
  | Some (_, child) => (Some (get_move child), true)
  | None => (None, false)
  end.

End SelectChildFinal.

(** ** Parameters of the search

    The members of [Search] that the embedded functions read. *)

Record Search : Type := mkSearch {
  m_nu_threads : Z;
  m_expand_threshold : Float;
  m_deterministic : bool;
  m_reuse_subtree : bool;
  m_reuse_tree : bool;
  m_prune_full_tree : bool;
  m_rave : bool;
  m_rave_check_same : bool;
  m_weight_rave_updates : bool;
  m_use_last_good_reply : bool;
  m_prune_count_start : Float;
  m_rave_equivalence : Float;
  m_bias_term_constant : Float
}.

(** The values set by the constructor of [Search]. *)
Definition Search_default (nu_threads : Z) : Search :=
  {| m_nu_threads := nu_threads;
     m_expand_threshold := 0;
     m_deterministic := false;
     m_reuse_subtree := true;
     m_reuse_tree := false;
     m_prune_full_tree := true;
     m_rave := false;
     m_rave_check_same := false;
     m_weight_rave_updates := true;
     m_use_last_good_reply := false;
     m_prune_count_start := 16;
     m_rave_equivalence := 1000;
     m_bias_term_constant := 0 |}.

(** ** [Search::select_child]

    [sqrt] and the bias term ([BiasTerm::start_iteration] followed by
    [BiasTerm::get]) are defined outside the embedded files and are
    parameters: [BiasTerm_get c n k] is the bias for a child of count [k]
    under a node of count [n] with the bias term constant [c].  The
    values compared are the ones that the code computes: every operation
    is rounded by the rounding [round] of the floating type. *)

Section SelectChild.

Variable round : Q -> Float.
Variable Float_max : Float.
Variable sqrtF : Float -> Float.
Variable BiasTerm_get : Float -> Float -> Float -> Float.
Variable s : Search.

Fixpoint select_child_loop
    (node_count beta beta_inv : Float) (cs : list Node) (idx : nat)
    (best_child : option (nat * Node)) (best_value : Float)
    : option (nat * Node) :=
  match cs with
  | [] => best_child
  | i :: cs' =>
      let bias :=
        BiasTerm_get (m_bias_term_constant s) node_count (get_count i) in
      let value :=
        Float_add round
          (Float_add round
             (Float_mul round beta (get_rave_value i))
             (Float_mul round beta_inv (get_value i)))
          bias in
      if Float_gt value best_value
      then select_child_loop node_count beta beta_inv cs' (S idx)
             (Some (idx, i)) value
      else select_child_loop node_count beta beta_inv cs' (S idx)
             best_child best_value
  end.

Definition select_child (node : Node) : option (nat * Node) :=
  let node_count := get_count node in
  let beta :=
    if m_rave s
    then sqrtF (Float_div round (m_rave_equivalence s)
                  (Float_add round (Float_mul round 3 node_count)
                     (m_rave_equivalence s)))
    else 0 in
  let beta_inv := Float_sub round 1 beta in
  select_child_loop node_count beta beta_inv (get_children node) 0%nat
    None (- Float_max).

End SelectChild.

(** ** What the selections return *)

Section FinalSelection.

Variable exclude_moves : option (list Move).

(** [r], at position [k], is the first of the best children among the
    children [cs] that are not excluded: highest count, then highest
    value, then earliest position. *)
Definition first_best (cs : list Node) (k : nat) (r : Node) : Prop :=
  nth_error cs k = Some r /\
  is_excluded exclude_moves (get_move r) = false /\
  forall j c,
    nth_error cs j = Some c ->
    is_excluded exclude_moves (get_move c) = false ->
    get_count c <= get_count r /\
    (get_count c == get_count r -> get_value c <= get_value r) /\
    (get_count c == get_count r -> get_value c == get_value r ->
     (k <= j)%nat).

(** The state of the loop after the children [pre]. *)
Definition final_inv (pre : list Node) (result : option (nat * Node))
    (max_count max_count_value : Float) : Prop :=
  match result with
  | None =>
      max_count == -1 /\
      forall c, In c pre -> is_excluded exclude_moves (get_move c) = true
  | Some (k, r) =>
      max_count = get_count r /\ max_count_value = get_value r /\
      first_best pre k r
  end.

End FinalSelection.

Section InTreeSelection.

Variable round : Q -> Float.
Variable Float_max : Float.
Variable sqrtF : Float -> Float.
Variable BiasTerm_get : Float -> Float -> Float -> Float.
Variable s : Search.

(** The weight of the RAVE value at a node of count [node_count], as the
    floating type computes it. *)
Definition rave_beta (node_count : Float) : Float :=
  if m_rave s
  then sqrtF (Float_div round (m_rave_equivalence s)
                (Float_add round (Float_mul round 3 node_count)
                   (m_rave_equivalence s)))
  else 0.

(** The quantity that the selection maximizes:
    [beta * rave_value + (1 - beta) * value + bias], as the floating type
    computes it, from left to right. *)
Definition child_score (node c : Node) : Float :=
  let beta := rave_beta (get_count node) in
  let beta_inv := Float_sub round 1 beta in
  Float_add round
    (Float_add round
       (Float_mul round beta (get_rave_value c))
       (Float_mul round beta_inv (get_value c)))
    (BiasTerm_get (m_bias_term_constant s) (get_count node) (get_count c)).



End InTreeSelection.

(** ** Further visits of the children of a node

    An allocation of further simulations to the children of the root: the
    child at position [k] receives [nth k incs 0] more visits. *)

Fixpoint add_visits (incs : list Float) (cs : list Node) : list Node :=
  match cs, incs with
  | [], _ => []
  | c :: cs', [] => c :: cs'
  | c :: cs', d :: incs' =>
      mkNode (get_move c) (get_count c + d) (get_value c)
        (get_rave_count c) (get_rave_value c) (get_children c)
      :: add_visits incs' cs'
  end.

Definition visit_children (incs : list Float) (node : Node) : Node :=
  mkNode (get_move node) (get_count node) (get_value node)
    (get_rave_count node) (get_rave_value node)
    (add_visits incs (get_children node)).

(** The sum of an allocation. *)
Definition total_visits (incs : list Float) : Float :=
  fold_right Qplus 0 incs.

(** ** Concrete data *)

(** The largest finite value of IEEE single precision, the default
    [Float]. *)
Definition Float_max_single : Float := inject_Z (2 ^ 128 - 2 ^ 104).

(** The rounding of IEEE single precision. *)
Definition round_single : Q -> Float := round_nearest_even 24.

(** A node visited 1000 times with two children of the same RAVE value
    whose values are neighbours in single precision: [1 / 2] and
    [1 / 2 + 2 ^ -24]. *)
Definition example_tie_node : Node :=
  mkNode 0%nat 1000 (1 # 2) 0 0
    [mkNode 1%nat 10 (1 # 2) 10 (1 # 2) [];
     mkNode 2%nat 10 ((1 # 2) + (1 # 2 ^ 24)) 10 (1 # 2) []].

(** A root visited 15 times whose children were visited 10 and 5 times. *)
Definition root_10_5 : Node :=
  mkNode 0%nat 15 (1 # 2) 0 0 [leaf 1%nat 10 (1 # 2); leaf 2%nat 5 (1 # 2)].

(** ** [IntervalChecker]

    The checker calls two things of its surroundings: the time source and
    the wrapped function.  Their calls are recorded in a history, and what
    they answer may depend on everything that was called before. *)

Module libboardgame_util.

Inductive CheckerCall : Type :=
| CallTimeSource (time : Q)
| CallFunction (answer : bool).

Record CheckerEnv : Type := mkCheckerEnv {
  (* [m_time_source()] after the given history *)
  env_time_source : list CheckerCall -> Q;
  (* [m_function()] after the given history *)
  env_function : list CheckerCall -> bool
}.

Record IntervalChecker : Type := mkIntervalChecker {
  m_is_first_check : bool;
  m_is_deterministic : bool;
  m_result : bool;
  m_count : Z;
  m_count_interval : Z;
  m_time_interval : Q;
  m_last_time : Q
}.

(** The constructor.  [m_last_time] is not initialized by it; it is read
    only after the first check has set it. *)
Definition IntervalChecker_new (time_interval : Q) : IntervalChecker :=
  {| m_is_first_check := true;
     m_is_deterministic := false;
     m_result := false;
     m_count := 1;
     m_count_interval := 1;
     m_time_interval := time_interval;
     m_last_time := 0 |}.

(** The new [m_count_interval] of a check that is not the first one. *)
Definition adjust_count_interval
    (time_interval diff : Q) (count_interval : Z) : Z :=
  let adjust_factor :=
    if Float_eq diff 0 then 10
    else
      let adjust_factor := time_interval / diff in
      if Float_gt adjust_factor 10 then 10
      else if Float_lt adjust_factor (1 # 10) then 1 # 10
      else adjust_factor in
  let new_count_interval := adjust_factor * inject_Z count_interval in
  if Float_gt new_count_interval (inject_Z Limits.unsigned_max)
  then Limits.unsigned_max
  else if Float_lt new_count_interval 1 then 1%Z
  else Qfloor new_count_interval.

(** [IntervalChecker::check_expensive], after the history [hist]: the
    result, the checker afterwards and the calls made, in order. *)
Definition check_expensive
    (env : CheckerEnv) (hist : list CheckerCall) (c : IntervalChecker)
    : bool * IntervalChecker * list CheckerCall :=
  if m_result c then (true, c, [])
  else if m_is_deterministic c then
    let result := env_function env hist in
    (result,
     {| m_is_first_check := m_is_first_check c;
        m_is_deterministic := m_is_deterministic c;
        m_result := result;
        m_count := m_count_interval c;
        m_count_interval := m_count_interval c;
        m_time_interval := m_time_interval c;
        m_last_time := m_last_time c |},
     [CallFunction result])
  else
    let time := env_time_source env hist in
    let hist1 := hist ++ [CallTimeSource time] in
    if negb (m_is_first_check c) then
      let diff := time - m_last_time c in
      let count_interval :=
        adjust_count_interval (m_time_interval c) diff (m_count_interval c) in
      let result := env_function env hist1 in
      (result,
       {| m_is_first_check := false;
          m_is_deterministic := m_is_deterministic c;
          m_result := result;
          m_count := count_interval;
          m_count_interval := count_interval;
          m_time_interval := m_time_interval c;
          m_last_time := time |},
       [CallTimeSource time; CallFunction result])
    else
      (m_result c,
       {| m_is_first_check := false;
          m_is_deterministic := m_is_deterministic c;
          m_result := m_result c;
          m_count := m_count_interval c;
          m_count_interval := m_count_interval c;
          m_time_interval := m_time_interval c;
          m_last_time := time |},
       [CallTimeSource time]).

(** [IntervalChecker::set_deterministic] *)
Definition set_deterministic (interval : Z) (c : IntervalChecker)
    : IntervalChecker :=
  {| m_is_first_check := m_is_first_check c;
     m_is_deterministic := true;
     m_result := m_result c;
     m_count := interval;
     m_count_interval := interval;
     m_time_interval := m_time_interval c;
     m_last_time := m_last_time c |}.

(** The operations that [IntervalChecker.cpp] defines on a checker, and a
    run of them: the results of the calls to [check_expensive], the checker
    and the history afterwards. *)
Inductive CheckerOp : Type :=
| OpCheckExpensive
| OpSetDeterministic (interval : Z).

Fixpoint run_checker
    (env : CheckerEnv) (ops : list CheckerOp)
    (hist : list CheckerCall) (c : IntervalChecker)
    : list bool * IntervalChecker * list CheckerCall :=
  match ops with
  | [] => ([], c, hist)
  | OpCheckExpensive :: ops' =>
      let '(r, c', calls) := check_expensive env hist c in
      let '(rs, c'', hist') := run_checker env ops' (hist ++ calls) c' in
      (r :: rs, c'', hist')
  | OpSetDeterministic interval :: ops' =>
      run_checker env ops' hist (set_deterministic interval c)
  end.

(** The number of calls to [check_expensive] among operations. *)
Definition count_checks (ops : list CheckerOp) : nat :=
  length (filter (fun op => match op with
                            | OpCheckExpensive => true
                            | OpSetDeterministic _ => false
                            end) ops).

(** A time source that advances by a tenth of a second per call made and
    a function that answers [true] from its second call on. *)
Definition example_checker_env : CheckerEnv :=
  {| env_time_source := fun hist => Qmake (Z.of_nat (length hist)) 10;
     env_function := fun hist =>
       existsb (fun call => match call with
                            | CallFunction _ => true
                            | CallTimeSource _ => false
                            end) hist |}.

(** The history and the checker after two checks of a new checker. *)
Definition example_history : list CheckerCall :=
  [CallTimeSource (0 # 10); CallTimeSource (1 # 10); CallFunction false].

Definition example_checker : IntervalChecker :=
  {| m_is_first_check := false;
     m_is_deterministic := false;
     m_result := false;
     m_count := 1;
     m_count_interval := 1;
     m_time_interval := 1 # 10;
     m_last_time := 1 # 10 |}.

(** A node whose first child, the most visited one, is excluded, and whose
    other children tie on the visit count; the last two tie on the value
    as well. *)
Definition example_final_node : Node :=
  mkNode 0%nat 30 (1 # 2) 0 0
    [leaf 1%nat 9 (9 # 10); leaf 2%nat 7 (4 # 10);
     leaf 3%nat 7 (6 # 10); leaf 4%nat 7 (6 # 10)].

(** Stand-ins for [sqrt] and for the bias term
    [C * sqrt (log n / c)], on rationals: the square root to three decimal
    places and the binary logarithm rounded down. *)
Definition example_sqrt (x : Float) : Float :=
  inject_Z (Z.sqrt (Qfloor (x * 1000000))) / 1000.

Definition example_bias (c n k : Float) : Float :=
  c * example_sqrt (inject_Z (Z.log2 (Qfloor n)) / k).

(** A search with RAVE enabled and a bias term constant of one half. *)
Definition example_search_rave : Search :=
  {| m_nu_threads := 1;
     m_expand_threshold := 0;
     m_deterministic := false;
     m_reuse_subtree := true;
     m_reuse_tree := false;
     m_prune_full_tree := true;
     m_rave := true;
     m_rave_check_same := false;
     m_weight_rave_updates := true;
     m_use_last_good_reply := false;
     m_prune_count_start := 16;
     m_rave_equivalence := 1000;
     m_bias_term_constant := 1 # 2 |}.

(** A node visited 16 times with three children; the last two have the
    same statistics. *)
Definition example_select_node : Node :=
  mkNode 0%nat 16 (1 # 2) 0 0
    [mkNode 1%nat 8 (3 # 10) 10 (4 # 10) [];
     mkNode 2%nat 4 (6 # 10) 10 (5 # 10) [];
     mkNode 3%nat 4 (6 # 10) 10 (5 # 10) []].

End libboardgame_util.

Import libboardgame_util.

(** ** [Search::update_rave_values]

    The simulation is the list of its moves, [get_move(i)] being the move
    at ply [i]; [first_play[player][move]] is a function to [unsigned]
    values, [numeric_limits<unsigned>::max()] meaning "not played".  The
    calls to [Tree::add_rave_value] are collected in the order in which
    they are made. *)

Record PlayerMove : Type := mkPlayerMove {
  pm_player : nat;
  pm_move : Move
}.

Definition FirstPlay := nat -> Move -> Z.

Definition first_play_init : FirstPlay := fun _ _ => Limits.unsigned_max.

(** [first_play[player][mv] = value] *)
Definition first_play_set
    (player : nat) (mv : Move) (value : Z) (first_play : FirstPlay)
    : FirstPlay :=
  fun p m =>
    if (Nat.eqb p player && Nat.eqb m mv)%bool then value
    else first_play p m.

(** A call [m_tree.add_rave_value(child, value, weight)] for the child at
    position [rave_child] of the node at index [rave_node] of the path. *)
Record RaveUpdate : Type := mkRaveUpdate {
  rave_node : nat;
  rave_child : nat;
  rave_move : Move;
  rave_value : Float;
  rave_weight : Float
}.

(** Subtraction of [unsigned] values. *)
Definition unsigned_sub (a b : Z) : Z := ((a - b) mod 2 ^ 32)%Z.

(** The loop over the other players in the update of a node:
    [for (unsigned i = 0; i < nu_players; ++i) if (i != player) ...], whose
    counter [i] hides the index of the node and is what [first_other] is
    compared with. *)
Definition other_played_same
    (nu_players player : nat) (first_play : FirstPlay) (m : Move)
    (first : Z) : bool :=
  existsb
    (fun i =>
       negb (Nat.eqb i player)
       && (let first_other := first_play i m in
           (Z.of_nat i <=? first_other)%Z && (first_other <=? first)%Z))
    (seq 0 nu_players).

Section UpdateRaveValues.

Variable s : Search.
Variable nu_players : nat.
(* [state.skip_rave] *)
Variable skip_rave : Move -> bool.
(* [state.get_nu_moves()] and [state.get_move(i)] *)
Variable moves : list PlayerMove.
Variable eval : nat -> Float.
Variable nodes : list Node.

Definition get_state_move (i : nat) : PlayerMove :=
  nth i moves (mkPlayerMove 0%nat 0%nat).

(** The loop over the children in
    [update_rave_values(thread_state, eval, i, player)]. *)
Fixpoint update_rave_values_children
    (first_play : FirstPlay) (i player : nat) (weight_factor : Float)
    (cs : list Node) (idx : nat) : list RaveUpdate :=
  match cs with
  | [] => []
  | it :: cs' =>
      let rest :=
        update_rave_values_children first_play i player weight_factor
          cs' (S idx) in
      let m := get_move it in
      let first := first_play player m in
      if (first =? Limits.unsigned_max)%Z then rest
      else if m_rave_check_same s
              && other_played_same nu_players player first_play m first
      then rest
      else
        let weight :=
          if m_weight_rave_updates s
          then 2 - inject_Z (unsigned_sub first (Z.of_nat i)) * weight_factor
          else 1 in
        mkRaveUpdate i idx m (eval player) weight :: rest
  end.

(** [update_rave_values(thread_state, eval, i, player)] *)
Definition update_rave_values_node
    (first_play : FirstPlay) (i player : nat) : list RaveUpdate :=
  match nth_error nodes i with
  | None => []
  | Some node =>
      if negb (has_children node) then []
      else
        let len := Z.of_nat (length moves) in
        let weight_factor := 1 / inject_Z (unsigned_sub len (Z.of_nat i)) in
        update_rave_values_children first_play i player weight_factor
          (get_children node) 0
  end.

(** [if (! state.skip_rave(mv.move)) first_play[mv.player][mv.move] = i] *)
Definition record_first_play (i : nat) (first_play : FirstPlay) : FirstPlay :=
  let mv := get_state_move i in
  if negb (skip_rave (pm_move mv))
  then first_play_set (pm_player mv) (pm_move mv) (Z.of_nat i) first_play
  else first_play.

(** The loop [for ( ; i >= nu_nodes; --i)] over the moves of the playout. *)
Fixpoint update_rave_values_playout
    (i nu_nodes : nat) (first_play : FirstPlay) : nat * FirstPlay :=
  if (nu_nodes <=? i)%nat then
    match i with
    | O => (i, record_first_play i first_play)
    | S i' => update_rave_values_playout i' nu_nodes (record_first_play i first_play)
    end
  else (i, first_play).

(** The loop [while (true)] over the nodes of the path, down to the root. *)
Fixpoint update_rave_values_in_tree
    (i : nat) (first_play : FirstPlay) : list RaveUpdate * FirstPlay :=
  let mv := get_state_move i in
  let first_play := record_first_play i first_play in
  let updates := update_rave_values_node first_play i (pm_player mv) in
  match i with
  | O => (updates, first_play)
  | S i' =>
      let '(updates', first_play') :=
        update_rave_values_in_tree i' first_play in
      (updates ++ updates', first_play')
  end.

(** The loop that resets [first_play]. *)
Definition reset_first_play (first_play : FirstPlay) : FirstPlay :=
  fold_left
    (fun fp mv =>
       first_play_set (pm_player mv) (pm_move mv) Limits.unsigned_max fp)
    moves first_play.

(** [update_rave_values(thread_state, eval)].  The path always holds the
    root; with an empty path the first loop would not end, and the result
    is [None]. *)
Definition update_rave_values (first_play : FirstPlay)
    : option (list RaveUpdate * FirstPlay) :=
  let nu_moves := length moves in
  if (nu_moves =? 0)%nat then Some ([], first_play)
  else
    let nu_nodes := length nodes in
    if (nu_nodes =? 0)%nat then None
    else
      let i := (nu_moves - 1)%nat in
      let '(i, first_play) :=
        update_rave_values_playout i nu_nodes first_play in
      let '(updates, first_play) := update_rave_values_in_tree i first_play in
      Some (updates, reset_first_play first_play).

End UpdateRaveValues.

(** The check that the description of [rave_check_same] asks for: some
    other player's first play of [m] lies between the node index [i] and
    the first play [first] of [m] by [player]. *)
Definition other_played_between
    (nu_players player : nat) (first_play : FirstPlay) (m : Move)
    (i : nat) (first : Z) : bool :=
  existsb
    (fun q =>
       negb (Nat.eqb q player)
       && (let first_other := first_play q m in
           (Z.of_nat i <=? first_other)%Z && (first_other <=? first)%Z))
    (seq 0 nu_players).

(** A simulation of a game of three players in which player 1 is to play
    at the root: player 1 plays move 7, player 2 plays move 5, player 0
    plays move 9 and player 1 plays move 5.  The path holds the root and
    its child of move 7; the root has a second child of move 5. *)
Definition example_rave_moves : list PlayerMove :=
  [mkPlayerMove 1%nat 7%nat; mkPlayerMove 2%nat 5%nat;
   mkPlayerMove 0%nat 9%nat; mkPlayerMove 1%nat 5%nat].

Definition example_rave_nodes : list Node :=
  [mkNode 0%nat 20 (1 # 2) 0 0 [leaf 7%nat 12 (1 # 2); leaf 5%nat 8 (1 # 2)];
   leaf 7%nat 12 (1 # 2)].

(** A search with RAVE and [rave_check_same] enabled. *)
Definition example_search_check_same : Search :=
  {| m_nu_threads := 1;
     m_expand_threshold := 0;
     m_deterministic := false;
     m_reuse_subtree := true;
     m_reuse_tree := false;
     m_prune_full_tree := true;
     m_rave := true;
     m_rave_check_same := true;
     m_weight_rave_updates := true;
     m_use_last_good_reply := false;
     m_prune_count_start := 16;
     m_rave_equivalence := 1000;
     m_bias_term_constant := 0 |}.

(** [first_play] when the root of the example is updated. *)
Definition example_first_play : FirstPlay :=
  first_play_set 1%nat 7%nat 0%Z
    (first_play_set 2%nat 5%nat 1%Z
       (first_play_set 0%nat 9%nat 2%Z
          (first_play_set 1%nat 5%nat 3%Z first_play_init))).

(** ** Statistics, trees and reuse parameters *)

(** Modelled from the spec: [StatisticsDirtyLockFree]
    ([libboardgame_util/Statistics.h] is not among the embedded files), a
    running mean that stores a count and a mean and adds a value [x] by
    [mean += (x - mean) / new_count].  The mean is kept in lowest terms. *)
Record Statistics : Type := mkStatistics {
  stat_count : Float;
  stat_mean : Float
}.

Definition Statistics_clear : Statistics := mkStatistics 0 0.

Definition Statistics_add (x : Float) (st : Statistics) : Statistics :=
  let count := stat_count st + 1 in
  mkStatistics count (Qred (stat_mean st + (x - stat_mean st) / count)).

(** A tree: its root and the number of nodes allocated in its arena
    ([Tree::get_nu_nodes]). *)
Record Tree : Type := mkTree {
  get_root : Node;
  get_nu_nodes : Z
}.

(** The parameters of [Search::get_reuse_param]. *)
Record ReuseParam : Type := mkReuseParam {
  param_rave : bool;
  param_weight_rave_updates : bool;
  param_rave_equivalence : Float
}.

Definition get_reuse_param (s : Search) : ReuseParam :=
  {| param_rave := m_rave s;
     param_weight_rave_updates := m_weight_rave_updates s;
     param_rave_equivalence := m_rave_equivalence s |}.

(** Modelled from the spec: the comparison of [Parameters]
    ([libboardgame_util/Parameters.h] is not among the embedded files):
    equal when every parameter is unchanged.  [None] is the empty set of
    parameters that [m_last_reuse_param] holds before the first search. *)
Definition ReuseParam_eqb (p : ReuseParam) (last : option ReuseParam) : bool :=
  match last with
  | None => false
  | Some q =>
      Bool.eqb (param_rave p) (param_rave q)
      && Bool.eqb (param_weight_rave_updates p) (param_weight_rave_updates q)
      && Float_eq (param_rave_equivalence p) (param_rave_equivalence q)
  end.

(** ** The state of a search

    [D] is the state of everything outside the embedded files that the
    search works on: the game states of the threads, the clock, the abort
    flag, the interval checkers.  The events record, in order, what a call
    to [search] does. *)

Inductive Event : Type :=
(* [m_tree.extract_subtree] is called *)
| EvExtractSubtree
(* [m_tree.swap(m_tmp_tree)] *)
| EvSwapTrees
(* [m_tree.clear] *)
| EvClearTree
(* the search loop is started in the given number of threads on the given
   tree *)
| EvSearchLoop (nu_threads : Z) (tree : Tree)
(* [check_abort] is evaluated; the count of the root at that time *)
| EvCheckAbort (root_count : Float)
(* [expensive_abort_checker()] is evaluated; the count of the root *)
| EvCheckAbortExpensive (root_count : Float)
(* [state.start_simulation(nu_simulations)] *)
| EvSimulation (nu_simulations : Z)
(* [prune] is called with the given minimum count *)
| EvPrune (prune_min_count : Float).

Record SearchState (D : Type) : Type := mkSearchState {
  m_tree : Tree;
  m_tmp_tree : Tree;
  m_root_val : list Statistics;
  m_init_val : list Statistics;
  m_reuse_count : Float;
  m_max_count : Float;
  m_min_simulations : Float;
  m_max_time : Q;
  m_nu_simulations : Z;
  m_last_reuse_param : option ReuseParam;
  m_followup_sequence : list Move;
  m_player : nat;
  (* the time at which [m_timer] was reset *)
  m_timer : Q;
  m_last_time : Q;
  (* [is_out_of_mem] of the thread state of thread 0 *)
  is_out_of_mem : bool;
  m_env : D;
  m_events : list Event
}.

Arguments mkSearchState {D}.
Arguments m_tree {D}.
Arguments m_tmp_tree {D}.
Arguments m_root_val {D}.
Arguments m_init_val {D}.
Arguments m_reuse_count {D}.
Arguments m_max_count {D}.
Arguments m_min_simulations {D}.
Arguments m_max_time {D}.
Arguments m_nu_simulations {D}.
Arguments m_last_reuse_param {D}.
Arguments m_followup_sequence {D}.
Arguments m_player {D}.
Arguments m_timer {D}.
Arguments m_last_time {D}.
Arguments is_out_of_mem {D}.
Arguments m_env {D}.
Arguments m_events {D}.

(** What one iteration of the search loop leaves behind, from
    [state.start_simulation] to [on_search_iteration]: the tree, the root
    and init values, the surroundings, and whether [play_in_tree] ran out
    of memory (the iteration then ends the loop without playout or
    updates). *)
Record SimulationResult (D : Type) : Type := mkSimulationResult {
  sim_tree : Tree;
  sim_root_val : list Statistics;
  sim_init_val : list Statistics;
  sim_env : D;
  sim_is_out_of_mem : bool
}.

Arguments mkSimulationResult {D}.
Arguments sim_tree {D}.
Arguments sim_root_val {D}.
Arguments sim_init_val {D}.
Arguments sim_env {D}.
Arguments sim_is_out_of_mem {D}.

(** The functions that [search] calls and that are defined outside the
    embedded files or by the subclass: the virtual functions of [Search],
    the operations of [Tree] and [TreeUtil], the time source, the interval
    checker of the expensive abort conditions and the body of a
    simulation. *)
Record Host (D : Type) : Type := mkHost {
  (* [numeric_limits<Float>::max()] and [numeric_limits<Float>::digits] *)
  Float_max : Float;
  Float_digits : Z;
  get_nu_players : nat;
  get_player : D -> nat;
  get_tie_value : Float;
  expected_sim_per_sec : Q;
  time_source : D -> Q;
  (* [check_followup(m_followup_sequence)]: the result and the sequence *)
  check_followup : D -> bool * list Move * D;
  (* [find_node(m_tree, sequence)] *)
  find_node : Tree -> list Move -> option Node;
  (* [tree.clear(value)] and [tree.clear_root_value(value)] *)
  Tree_clear : Float -> Tree -> Tree;
  Tree_clear_root_value : Float -> Tree -> Tree;
  (* [src.extract_subtree(dst, node, true, &interval_checker)] with an
     interval checker for [max_time], deterministic or not: the result,
     [dst] afterwards and the surroundings *)
  Tree_extract_subtree :
    Tree -> Tree -> Node -> Q -> bool -> D -> bool * Tree * D;
  (* [src.copy_subtree(dst, dst.get_root(), src.get_root(), min_count,
     true, &interval_checker)], likewise *)
  Tree_copy_subtree :
    Tree -> Tree -> Float -> Q -> bool -> D -> bool * Tree * D;
  (* [on_start_search()], the initialization of the last-good-reply table
     (when the flag is set) and of the thread states *)
  start_search : bool -> D -> D;
  (* the construction of the interval checker in [search_loop], for a time
     interval and, in deterministic mode, a fixed interval *)
  new_expensive_abort_checker : Q -> option Z -> D -> D;
  (* [expensive_abort_checker()] *)
  expensive_abort_checker : SearchState D -> bool * D;
  (* one simulation with the given number *)
  simulation : Z -> SearchState D -> SimulationResult D
}.

Arguments Float_max {D}.
Arguments Float_digits {D}.
Arguments get_nu_players {D}.
Arguments get_player {D}.
Arguments get_tie_value {D}.
Arguments expected_sim_per_sec {D}.
Arguments time_source {D}.
Arguments check_followup {D}.
Arguments find_node {D}.
Arguments Tree_clear {D}.
Arguments Tree_clear_root_value {D}.
Arguments Tree_extract_subtree {D}.
Arguments Tree_copy_subtree {D}.
Arguments start_search {D}.
Arguments new_expensive_abort_checker {D}.
Arguments expensive_abort_checker {D}.
Arguments simulation {D}.

(** ** The search controller *)

Module LimitsDouble.

(** [numeric_limits<double>::max()] *)
Definition double_max : Q := inject_Z (2 ^ 1024 - 2 ^ 971).

(** The conversion [int(x)] of a [size_t] value. *)
Definition int_of_size_t (z : Z) : Z :=
  let r := (z mod 2 ^ 32)%Z in
  if (r <? 2 ^ 31)%Z then r else (r - 2 ^ 32)%Z.

End LimitsDouble.

Section SearchController.

Context {D : Type}.
Variable h : Host D.
Variable s : Search.

(** *** Updates of the state *)

Definition log_event (e : Event) (st : SearchState D) : SearchState D :=
  mkSearchState (m_tree st) (m_tmp_tree st) (m_root_val st) (m_init_val st)
    (m_reuse_count st) (m_max_count st) (m_min_simulations st)
    (m_max_time st) (m_nu_simulations st) (m_last_reuse_param st)
    (m_followup_sequence st) (m_player st) (m_timer st) (m_last_time st)
    (is_out_of_mem st) (m_env st) (m_events st ++ [e]).

Definition set_env (env : D) (st : SearchState D) : SearchState D :=
  mkSearchState (m_tree st) (m_tmp_tree st) (m_root_val st) (m_init_val st)
    (m_reuse_count st) (m_max_count st) (m_min_simulations st)
    (m_max_time st) (m_nu_simulations st) (m_last_reuse_param st)
    (m_followup_sequence st) (m_player st) (m_timer st) (m_last_time st)
    (is_out_of_mem st) env (m_events st).

Definition set_trees (tree tmp_tree : Tree) (st : SearchState D)
    : SearchState D :=
  mkSearchState tree tmp_tree (m_root_val st) (m_init_val st)
    (m_reuse_count st) (m_max_count st) (m_min_simulations st)
    (m_max_time st) (m_nu_simulations st) (m_last_reuse_param st)
    (m_followup_sequence st) (m_player st) (m_timer st) (m_last_time st)
    (is_out_of_mem st) (m_env st) (m_events st).

Definition set_reuse_count (reuse_count : Float) (st : SearchState D)
    : SearchState D :=
  mkSearchState (m_tree st) (m_tmp_tree st) (m_root_val st) (m_init_val st)
    reuse_count (m_max_count st) (m_min_simulations st)
    (m_max_time st) (m_nu_simulations st) (m_last_reuse_param st)
    (m_followup_sequence st) (m_player st) (m_timer st) (m_last_time st)
    (is_out_of_mem st) (m_env st) (m_events st).

Definition set_last_time (time : Q) (st : SearchState D) : SearchState D :=
  mkSearchState (m_tree st) (m_tmp_tree st) (m_root_val st) (m_init_val st)
    (m_reuse_count st) (m_max_count st) (m_min_simulations st)
    (m_max_time st) (m_nu_simulations st) (m_last_reuse_param st)
    (m_followup_sequence st) (m_player st) (m_timer st) time
    (is_out_of_mem st) (m_env st) (m_events st).

(** [thread_state.is_out_of_mem = false] and
    [m_nu_simulations.fetch_add(1)] at the head of an iteration. *)
Definition start_iteration (st : SearchState D) : SearchState D :=
  mkSearchState (m_tree st) (m_tmp_tree st) (m_root_val st) (m_init_val st)
    (m_reuse_count st) (m_max_count st) (m_min_simulations st)
    (m_max_time st) (Limits.wrap_size_t (m_nu_simulations st + 1))
    (m_last_reuse_param st)
    (m_followup_sequence st) (m_player st) (m_timer st) (m_last_time st)
    false (m_env st) (m_events st).

(** The state after a simulation. *)
Definition finish_simulation
    (r : SimulationResult D) (st : SearchState D) : SearchState D :=
  mkSearchState (sim_tree r) (m_tmp_tree st) (sim_root_val r) (sim_init_val r)
    (m_reuse_count st) (m_max_count st) (m_min_simulations st)
    (m_max_time st) (m_nu_simulations st) (m_last_reuse_param st)
    (m_followup_sequence st) (m_player st) (m_timer st) (m_last_time st)
    (sim_is_out_of_mem r) (sim_env r) (m_events st).

(** [m_timer()] *)
Definition timer_elapsed (st : SearchState D) : Q :=
  time_source h (m_env st) - m_timer st.

(** *** [Search::check_abort] *)

(** [m_max_float_count], as the constructor sets it. *)
Definition m_max_float_count : Float :=
  inject_Z (2 ^ Float_digits h - 1).

Definition check_abort (st : SearchState D) : bool :=
  let count := get_count (get_root (m_tree st)) + m_reuse_count st in
  if Float_ge count m_max_float_count then true
  else if Float_gt (m_max_count st) 0 && Float_ge count (m_max_count st)
  then true
  else false.

(** *** [Search::prune]

    The result, the value of [new_prune_min_count] afterwards (the caller
    passes its [prune_min_count] for it, which stays as it is when nothing
    is assigned) and the state. *)
Definition prune
    (st : SearchState D) (time max_time : Q) (prune_min_count : Float)
    : bool * Float * SearchState D :=
  let st := log_event (EvPrune prune_min_count) st in
  let tmp_tree :=
    Tree_clear h (get_value (get_root (m_tree st))) (m_tmp_tree st) in
  let '(copied, tmp_tree, env) :=
    Tree_copy_subtree h (m_tree st) tmp_tree prune_min_count max_time
      (m_deterministic s) (m_env st) in
  let st := set_env env st in
  if negb copied then (false, prune_min_count, set_trees (m_tree st) tmp_tree st)
  else
    let percent :=
      LimitsDouble.int_of_size_t
        (Limits.wrap_size_t (get_nu_nodes tmp_tree * 100)
         / get_nu_nodes (m_tree st))%Z in
    let st := log_event EvSwapTrees (set_trees tmp_tree (m_tree st) st) in
    if (50 <? percent)%Z then
      if Float_ge prune_min_count ((1 # 2) * Float_max h)
      then (false, prune_min_count, st)
      else (true, prune_min_count * 2, st)
    else (true, prune_min_count, st).

(** *** [Search::search_loop]

    The loop of thread 0.  It need not end; [fuel] bounds the number of
    its iterations. *)

Inductive LoopExit : Type :=
(* [break]: an abort condition holds *)
| ExitBreak
(* [return]: the tree is full *)
| ExitOutOfMem
(* the iterations allowed were used up *)
| ExitFuel.

Fixpoint search_loop_iterate (fuel : nat) (st : SearchState D)
    : LoopExit * SearchState D :=
  match fuel with
  | O => (ExitFuel, st)
  | S fuel' =>
      let nu_simulations := m_nu_simulations st in
      let st := start_iteration st in
      let root_count := get_count (get_root (m_tree st)) in
      let '(abort, st) :=
        if Float_gt root_count 0
           && Float_gt (Float_of_Z nu_simulations) (m_min_simulations st)
        then
          let st := log_event (EvCheckAbort root_count) st in
          if check_abort st then (true, st)
          else
            let st := log_event (EvCheckAbortExpensive root_count) st in
            let '(abort, env) := expensive_abort_checker h st in
            (abort, set_env env st)
        else (false, st) in
      if abort then (ExitBreak, st)
      else
        let st := log_event (EvSimulation nu_simulations) st in
        let r := simulation h nu_simulations st in
        let st := finish_simulation r st in
        if sim_is_out_of_mem r then (ExitOutOfMem, st)
        else search_loop_iterate fuel' st
  end.

Definition search_loop (fuel : nat) (st : SearchState D)
    : LoopExit * SearchState D :=
  let time_interval :=
    if Float_eq (m_max_count st) 0 && Float_lt (m_max_time st) 1
    then (1 # 10) * m_max_time st
    else 1 # 10 in
  let interval :=
    if m_deterministic s
    then Some (Qfloor (Qmax 1 (expected_sim_per_sec h / 5)))
    else None in
  let st :=
    set_env (new_expensive_abort_checker h time_interval interval (m_env st))
      st in
  search_loop_iterate fuel st.

(** *** [Search::search] *)

(** The loop [for (unsigned i = 0; i < nu_players; ++i)] that clears the
    init values and adds the tie value. *)
Fixpoint init_val_clear (nu_players : nat) (init_val : list Statistics)
    : list Statistics :=
  match nu_players, init_val with
  | S n, _ :: init_val' =>
      Statistics_add (get_tie_value h) Statistics_clear
      :: init_val_clear n init_val'
  | _, _ => init_val
  end.

(** The loop that sets [m_init_val[i] = m_root_val[i]] where the count of
    [m_root_val[i]] is positive. *)
Fixpoint init_val_from_root_val
    (nu_players : nat) (root_val init_val : list Statistics)
    : list Statistics :=
  match nu_players, root_val, init_val with
  | S n, r :: root_val', i :: init_val' =>
      (if Float_gt (stat_count r) 0 then r else i)
      :: init_val_from_root_val n root_val' init_val'
  | _, _, _ => init_val
  end.

(** The loop that clears [m_root_val]. *)
Fixpoint root_val_clear (nu_players : nat) (root_val : list Statistics)
    : list Statistics :=
  match nu_players, root_val with
  | S n, _ :: root_val' => Statistics_clear :: root_val_clear n root_val'
  | _, _ => root_val
  end.

(** What the first part of [search] (up to the clearing of the tree)
    leaves: a return of [false], or the state, [max_time] and
    [is_followup] with which the search goes on. *)
Inductive Prepared : Type :=
| PreparedReturn (st : SearchState D)
| PreparedSearch (st : SearchState D) (max_time : Q) (is_followup : bool).

(** [if (clear_tree) m_tree.clear(get_tie_value())] *)
Definition clear_tree_if (clear_tree : bool) (st : SearchState D)
    : SearchState D :=
  if clear_tree
  then log_event EvClearTree
         (set_trees (Tree_clear h (get_tie_value h) (m_tree st))
            (m_tmp_tree st) st)
  else st.

(** The block that reuses a subtree, entered when the sequence is not
    empty: from the construction of the timer to the end of the block. *)
Definition search_reuse_subtree
    (st : SearchState D) (max_time : Q) (is_followup is_same : bool)
    (always_search : bool) : Prepared :=
  let tree_nodes := get_nu_nodes (m_tree st) in
  let timer := time_source h (m_env st) in
  let st :=
    set_trees (m_tree st)
      (Tree_clear h (get_tie_value h) (m_tmp_tree st)) st in
  match find_node h (m_tree st) (m_followup_sequence st) with
  | None => PreparedSearch (clear_tree_if true st) max_time is_followup
  | Some node =>
      let st := log_event EvExtractSubtree st in
      let '(extracted, tmp_tree, env) :=
        Tree_extract_subtree h (m_tree st) (m_tmp_tree st) node max_time
          (m_deterministic s) (m_env st) in
      let aborted := negb extracted in
      let st := set_env env (set_trees (m_tree st) tmp_tree st) in
      let st :=
        if negb is_same
        then
          set_trees (m_tree st)
            (Tree_clear_root_value h (get_tie_value h) (m_tmp_tree st))
            (set_reuse_count (get_count (get_root (m_tmp_tree st))) st)
        else st in
      if aborted && negb always_search then PreparedReturn st
      else
        let tmp_tree_nodes := get_nu_nodes (m_tmp_tree st) in
        if ((1 <? tree_nodes)%Z && (1 <? tmp_tree_nodes)%Z)%bool then
          let time := time_source h (m_env st) - timer in
          let st :=
            log_event EvSwapTrees
              (set_trees (m_tmp_tree st) (m_tree st) st) in
          let max_time := max_time - time in
          let max_time := if Float_lt max_time 0 then 0 else max_time in
          PreparedSearch (clear_tree_if false st) max_time is_followup
        else PreparedSearch (clear_tree_if true st) max_time is_followup
  end.

(** The state after the init values are set and [m_reuse_count] is
    cleared, with the sequence and the surroundings that [check_followup]
    left. *)
Definition search_init_values
    (st : SearchState D) (is_followup is_same : bool)
    (sequence : list Move) (env : D) : SearchState D :=
  let nu_players := get_nu_players h in
  let init_val := init_val_clear nu_players (m_init_val st) in
  let init_val :=
    if is_same || (is_followup && (length sequence <=? nu_players)%nat)
    then init_val_from_root_val nu_players (m_root_val st) init_val
    else init_val in
  mkSearchState (m_tree st) (m_tmp_tree st) (m_root_val st) init_val
    0 (m_max_count st) (m_min_simulations st)
    (m_max_time st) (m_nu_simulations st) (m_last_reuse_param st)
    sequence (m_player st) (m_timer st) (m_last_time st)
    (is_out_of_mem st) env (m_events st).

Definition search_prepare
    (st : SearchState D) (max_count : Float) (max_time : Q)
    (always_search : bool) : Prepared :=
  let max_time :=
    if Float_gt max_count 0 then LimitsDouble.double_max else max_time in
  let '(is_followup, sequence, env) := check_followup h (m_env st) in
  let is_same :=
    match sequence with [] => is_followup | _ :: _ => false end in
  let is_followup :=
    match sequence with [] => false | _ :: _ => is_followup end in
  let st := search_init_values st is_followup is_same sequence env in
  if ((m_reuse_subtree s && is_followup) || (m_reuse_tree s && is_same))
     && ReuseParam_eqb (get_reuse_param s) (m_last_reuse_param st)
  then
    match sequence with
    | [] => PreparedSearch (clear_tree_if true st) max_time is_followup
    | _ :: _ =>
        search_reuse_subtree st max_time is_followup is_same always_search
    end
  else PreparedSearch (clear_tree_if true st) max_time is_followup.

(** From [m_last_reuse_param = get_reuse_param()] to
    [m_nu_simulations = 0]. *)
Definition search_start
    (st : SearchState D) (max_count min_simulations : Float) (max_time : Q)
    (is_followup : bool) : SearchState D :=
  let env := m_env st in
  let timer := time_source h env in
  let env :=
    start_search h (m_use_last_good_reply s && negb is_followup) env in
  mkSearchState (m_tree st) (m_tmp_tree st)
    (root_val_clear (get_nu_players h) (m_root_val st)) (m_init_val st)
    (m_reuse_count st) max_count min_simulations
    max_time 0%Z (Some (get_reuse_param s))
    (m_followup_sequence st) (get_player h env) timer (m_last_time st)
    (is_out_of_mem st) env (m_events st).

(** The number of threads that run the search loop.  The loops of the
    threads other than thread 0 run beside it; they are not part of this
    model, which follows thread 0. *)
Definition search_nu_threads
    (st : SearchState D) (max_count : Float) (max_time : Q) : Z :=
  if Float_lt max_time (1 # 2)
     || (Float_gt max_count 0
         && Float_lt ((max_count - m_reuse_count st)
                      / expected_sim_per_sec h) (1 # 2))
  then 1%Z
  else m_nu_threads s.

(** The loop [while (true)] of [search] around the search loop and the
    pruning.  [fuel] bounds its rounds and the iterations of each search
    loop; the first component tells whether the loop has ended. *)
Fixpoint search_rounds
    (fuel loop_fuel : nat) (nu_threads : Z) (st : SearchState D)
    (max_time : Q) (prune_min_count : Float) : bool * SearchState D :=
  match fuel with
  | O => (false, st)
  | S fuel' =>
      let st := log_event (EvSearchLoop nu_threads (m_tree st)) st in
      match search_loop loop_fuel st with
      | (ExitFuel, st) => (false, st)
      | (_, st) =>
          if negb (is_out_of_mem st) then (true, st)
          else if negb (m_prune_full_tree s) then (true, st)
          else
            let time := timer_elapsed st in
            let '(pruned, prune_min_count, st) :=
              prune st time (max_time - time) prune_min_count in
            if negb pruned then (true, st)
            else search_rounds fuel' loop_fuel nu_threads st max_time
                   prune_min_count
      end
  end.

(** The outcome of a call to [search]: the value returned, or [None] when
    the search is still running after the rounds and iterations allowed;
    the move written to [mv], if any; and the state. *)
Record SearchResult : Type := mkSearchResult {
  search_returned : option bool;
  search_mv : option Move;
  search_state : SearchState D
}.

Definition search
    (fuel : nat) (st : SearchState D) (max_count min_simulations : Float)
    (max_time : Q) (always_search : bool) : SearchResult :=
  match search_prepare st max_count max_time always_search with
  | PreparedReturn st => mkSearchResult (Some false) None st
  | PreparedSearch st max_time is_followup =>
      let st :=
        search_start st max_count min_simulations max_time is_followup in
      let prune_min_count := m_prune_count_start s in
      let nu_threads := search_nu_threads st max_count max_time in
      match search_rounds fuel fuel nu_threads st max_time prune_min_count with
      | (false, st) => mkSearchResult None None st
      | (true, st) =>
          let st := set_last_time (timer_elapsed st) st in
          let '(mv, result) :=
            select_move (Float_max h) (get_root (m_tree st)) None in
          mkSearchResult (Some result) mv st
      end
  end.

End SearchController.

(** ** A host for the examples

    A small game and tree to run the search on.  Its surroundings hold a
    clock, the answer of [check_followup], how far an extraction of a
    subtree gets before it is aborted, the simulations at which the tree
    is full and the answer of the expensive abort check. *)

Record ExampleEnv : Type := mkExampleEnv {
  example_clock : Q;
  (* [None]: no follow-up position; [Some sequence]: a follow-up *)
  example_followup : option (list Move);
  (* [None]: extractions are complete; [Some k]: an extraction is aborted
     when it has copied the root and its first [k] children *)
  example_extract_limit : option nat;
  example_full_at : list Z;
  example_abort : bool
}.

Fixpoint node_size (node : Node) : nat :=
  match node with
  | mkNode _ _ _ _ _ cs =>
      S ((fix sizes (l : list Node) : nat :=
            match l with
            | [] => O
            | c :: l' => (node_size c + sizes l')%nat
            end) cs)
  end.

Definition Tree_of_node (node : Node) : Tree :=
  mkTree node (Z.of_nat (node_size node)).

(** Modelled from the spec: [find_node(sequence)], which follows the listed
    moves from the root and returns the matching descendant, or nothing
    when there is none ([TreeUtil.h] is not among the embedded files). *)
Fixpoint find_node_from (node : Node) (sequence : list Move) : option Node :=
  match sequence with
  | [] => Some node
  | mv :: sequence' =>
      match find (fun c => Nat.eqb (get_move c) mv) (get_children node) with
      | None => None
      | Some c => find_node_from c sequence'
      end
  end.

(** Modelled from the spec: [clear(root_initial_value)], which resets the
    tree to its root with default statistics and the given value, and
    [clear_root_value], which clears the count and value of the root
    ([Tree.h] is not among the embedded files). *)
Definition example_clear (value : Float) (tree : Tree) : Tree :=
  mkTree (mkNode (get_move (get_root tree)) 0 value 0 0 []) 1.

Definition example_clear_root_value (value : Float) (tree : Tree) : Tree :=
  let root := get_root tree in
  mkTree (mkNode (get_move root) 0 value (get_rave_count root)
            (get_rave_value root) (get_children root))
    (get_nu_nodes tree).

(** Modelled from the spec: [extract_subtree], which copies the subtree of
    a node into the destination and returns [false], keeping the partial
    result, when it is aborted. *)
Definition example_extract_subtree
    (src dst : Tree) (node : Node) (max_time : Q) (deterministic : bool)
    (env : ExampleEnv) : bool * Tree * ExampleEnv :=
  match example_extract_limit env with
  | None => (true, Tree_of_node node, env)
  | Some k =>
      (false,
       Tree_of_node
         (mkNode (get_move node) (get_count node) (get_value node)
            (get_rave_count node) (get_rave_value node)
            (map (fun c => leaf (get_move c) (get_count c) (get_value c))
               (firstn k (get_children node)))),
       env)
  end.

(** Modelled from the spec: [copy_subtree], which copies the nodes reached
    through children whose visit count is at least [min_count]. *)
Fixpoint copy_min_count (min_count : Float) (node : Node) : Node :=
  match node with
  | mkNode mv count value rave_count rave_value cs =>
      mkNode mv count value rave_count rave_value
        ((fix copies (l : list Node) : list Node :=
            match l with
            | [] => []
            | c :: l' =>
                if Float_ge (get_count c) min_count
                then copy_min_count min_count c :: copies l'
                else copies l'
            end) cs)
  end.

Definition example_copy_subtree
    (src dst : Tree) (min_count : Float) (max_time : Q)
    (deterministic : bool) (env : ExampleEnv) : bool * Tree * ExampleEnv :=
  (true, Tree_of_node (copy_min_count min_count (get_root src)), env).

(** A simulation of the example: it visits the root and its first child,
    after giving a root without children two of them; the clock advances
    by a hundredth of a second. *)
Definition example_visit (node : Node) : Node :=
  mkNode (get_move node) (get_count node + 1) (get_value node)
    (get_rave_count node) (get_rave_value node) (get_children node).

Definition example_simulation
    (nu_simulations : Z) (st : SearchState ExampleEnv)
    : SimulationResult ExampleEnv :=
  let env := m_env st in
  let env' :=
    mkExampleEnv (Qred (example_clock env + (1 # 100))) (example_followup env)
      (example_extract_limit env) (example_full_at env) (example_abort env) in
  if existsb (Z.eqb nu_simulations) (example_full_at env)
  then mkSimulationResult (m_tree st) (m_root_val st) (m_init_val st) env' true
  else
    let root := get_root (m_tree st) in
    let '(cs, added) :=
      match get_children root with
      | [] => ([leaf 1%nat 0 (1 # 2); leaf 2%nat 0 (1 # 2)], 2%Z)
      | cs => (cs, 0%Z)
      end in
    let cs :=
      match cs with
      | [] => []
      | c :: cs' => example_visit c :: cs'
      end in
    mkSimulationResult
      (mkTree
         (mkNode (get_move root) (get_count root + 1) (get_value root)
            (get_rave_count root) (get_rave_value root) cs)
         (get_nu_nodes (m_tree st) + added))
      (map (Statistics_add (1 # 2)) (m_root_val st))
      (map (Statistics_add (1 # 2)) (m_init_val st))
      env' false.

Definition example_host : Host ExampleEnv :=
  {| Float_max := Float_max_single;
     Float_digits := 24;
     get_nu_players := 2;
     get_player := fun _ => 0%nat;
     get_tie_value := 1 # 2;
     expected_sim_per_sec := 100;
     time_source := example_clock;
     check_followup := fun env =>
       match example_followup env with
       | None => (false, [], env)
       | Some sequence => (true, sequence, env)
       end;
     find_node := fun tree => find_node_from (get_root tree);
     Tree_clear := example_clear;
     Tree_clear_root_value := example_clear_root_value;
     Tree_extract_subtree := example_extract_subtree;
     Tree_copy_subtree := example_copy_subtree;
     start_search := fun _ env => env;
     new_expensive_abort_checker := fun _ _ env => env;
     expensive_abort_checker := fun st => (example_abort (m_env st), m_env st);
     simulation := example_simulation |}.

(** The state of a search object before a search, with the given tree and
    surroundings, after a search with the given reuse parameters. *)
Definition example_state
    (tree : Tree) (last : option ReuseParam) (env : ExampleEnv)
    : SearchState ExampleEnv :=
  {| m_tree := tree;
     m_tmp_tree := example_clear (1 # 2) tree;
     m_root_val := [mkStatistics 20 (6 # 10); mkStatistics 20 (4 # 10)];
     m_init_val := [Statistics_clear; Statistics_clear];
     m_reuse_count := 0;
     m_max_count := 0;
     m_min_simulations := 0;
     m_max_time := 0;
     m_nu_simulations := 0;
     m_last_reuse_param := last;
     m_followup_sequence := [];
     m_player := 0%nat;
     m_timer := 0;
     m_last_time := 0;
     is_out_of_mem := false;
     m_env := env;
     m_events := [] |}.

(** A tree of a search of 20 simulations: the moves 1, 2, 3 lead from the
    root to a node with two children. *)
Definition example_tree : Tree :=
  Tree_of_node
    (mkNode 0%nat 20 (1 # 2) 0 0
       [mkNode 1%nat 12 (6 # 10) 0 0
          [mkNode 2%nat 8 (4 # 10) 0 0
             [mkNode 3%nat 6 (6 # 10) 0 0
                [leaf 4%nat 3 (1 # 2); leaf 5%nat 2 (1 # 2)];
              leaf 6%nat 1 (1 # 2)];
           leaf 7%nat 3 (1 # 2)];
        leaf 8%nat 7 (4 # 10)]).

(** A follow-up position three moves after the root, in a game of two
    players. *)
Definition example_env_followup3 : ExampleEnv :=
  {| example_clock := 0;
     example_followup := Some [1%nat; 2%nat; 3%nat];
     example_extract_limit := None;
     example_full_at := [];
     example_abort := false |}.

(** A follow-up position one move after the root, with an extraction that
    is aborted after the root and one child. *)
Definition example_env_aborted : ExampleEnv :=
  {| example_clock := 0;
     example_followup := Some [1%nat];
     example_extract_limit := Some 1%nat;
     example_full_at := [];
     example_abort := false |}.

(** ** Reading the events of a search *)

(** The events added between two states. *)
Definition new_events {D : Type} (st st' : SearchState D) : list Event :=
  skipn (length (m_events st)) (m_events st').

Definition is_simulation (e : Event) : bool :=
  match e with
  | EvSimulation _ => true
  | _ => false
  end.

(** An evaluation of a termination predicate: the cheap abort check or the
    expensive one. *)
Definition is_abort_check (e : Event) : bool :=
  match e with
  | EvCheckAbort _ | EvCheckAbortExpensive _ => true
  | _ => false
  end.


(** The number of simulations started. *)
Definition count_simulations (evs : list Event) : Z :=
  Z.of_nat (length (filter is_simulation evs)).


(** A tree of 200 nodes: a root with 100 children visited 20 times and 99
    children visited once. *)
Definition example_wide_tree : Tree :=
  Tree_of_node
    (mkNode 0%nat 2099 (1 # 2) 0 0
       (repeat (leaf 1%nat 20 (1 # 2)) 100
        ++ repeat (leaf 2%nat 1 (1 # 2)) 99)).

Definition example_env_plain : ExampleEnv :=
  {| example_clock := 0;
     example_followup := None;
     example_extract_limit := None;
     example_full_at := [];
     example_abort := false |}.

(** The states of the examples of pruning and of reuse. *)
Definition example_prune_state : SearchState ExampleEnv :=
  example_state example_tree None example_env_plain.

Definition example_pruned : SearchState ExampleEnv :=
  snd (prune example_host (Search_default 1) example_prune_state 0 10 2).

Definition example_reuse_state (env : ExampleEnv) : SearchState ExampleEnv :=
  example_state example_tree (Some (get_reuse_param (Search_default 1))) env.




Section StartOfSearch.

Context {D : Type}.
Variable h : Host D.
Variable s : Search.

(** The conditions under which the first part of [search] swaps the
    extracted subtree in. *)
Definition subtree_reused (st : SearchState D) (max_time : Q)
    (is_followup : bool) (sequence : list Move) (env : D) : Prop :=
  m_reuse_subtree s = true /\
  is_followup = true /\
  sequence <> [] /\
  ReuseParam_eqb (get_reuse_param s) (m_last_reuse_param st) = true /\
  exists node,
    find_node h (m_tree st) sequence = Some node /\
    (1 < get_nu_nodes (m_tree st))%Z /\
    (1 < get_nu_nodes
           (Tree_clear_root_value h (get_tie_value h)
              (snd (fst (Tree_extract_subtree h (m_tree st)
                           (Tree_clear h (get_tie_value h) (m_tmp_tree st))
                           node max_time (m_deterministic s) env)))))%Z.

(** The state that the first part of [search] leaves. *)
Definition prepared_state (p : @Prepared D) : SearchState D :=
  match p with
  | PreparedReturn st => st
  | PreparedSearch st _ _ => st
  end.

End StartOfSearch.

(** ** Reading a run of the interval checker *)

(** A call of the time source. *)
Definition is_time_call (call : CheckerCall) : bool :=
  match call with
  | CallTimeSource _ => true
  | CallFunction _ => false
  end.

(** What the code asserts of the interval passed to [set_deterministic],
    an [unsigned] value. *)
Definition valid_op (op : CheckerOp) : Prop :=
  match op with
  | OpCheckExpensive => True
  | OpSetDeterministic interval => (1 <= interval <= Limits.unsigned_max)%Z
  end.

(** The countdown [m_count] and its reload value [m_count_interval] are
    positive [unsigned] values. *)
Definition counts_in_range (c : IntervalChecker) : Prop :=
  (1 <= m_count c <= Limits.unsigned_max)%Z /\
  (1 <= m_count_interval c <= Limits.unsigned_max)%Z.

(** ** The constructor of [Search] and [Search::set_tree_memory] *)

Section TreeMemory.

Variable sizeof_Node : Z.
Variable NodeIndex_max : Z.

(** [m_tree_memory] as the constructor sets it. *)
Definition Search_tree_memory (memory : Z) : Z :=
  if (memory =? 0)%Z then 256000000%Z else memory.

(** [m_max_nodes] as the constructor sets it. *)
Definition Search_max_nodes (memory : Z) : Z :=
  get_max_nodes sizeof_Node NodeIndex_max (Search_tree_memory memory).

(** [Search::set_tree_memory]: [m_tree_memory] and [m_max_nodes]
    afterwards; both trees get [m_max_nodes] as their capacity. *)
Definition set_tree_memory (memory : Z) : Z * Z :=
  (memory, get_max_nodes sizeof_Node NodeIndex_max memory).

End TreeMemory.

(** ** [Search::get_value] *)

Definition Search_get_value
    (Float_max tie_value : Float) (root : Node) : Float :=
  let root_count := get_count root in
  match select_child_final Float_max root None with
  | Some (_, child) =>
      if Float_gt (get_count child) root_count then get_value child
      else if Float_gt root_count 0 then get_value root
      else tie_value
  | None =>
      if Float_gt root_count 0 then get_value root
      else tie_value
  end.

(** ** [Search::check_abort_expensive]

    [get_abort] is the abort flag, which another thread may set;
    [callback] tells whether the callback is invoked (thread 0 with a
    callback installed).  The result is the value returned and the
    arguments of the call of the callback, if it is called.  The remaining
    time of a search with a count limit is the quotient by the simulations
    per second, which is only passed to the callback. *)

Section ExpensiveAbort.

Context {D : Type}.
Variable h : Host D.
Variable s : Search.



End ExpensiveAbort.

(** ** [Search::update_values]

    The calls to [Tree::add_value] are collected in the order in which they
    are made: the node of the path that receives a value, and the value. *)

Record ValueUpdate : Type := mkValueUpdate {
  value_node : nat;
  value_value : Float
}.

(** The loop [for (unsigned i = 0; i < nu_players; ++i)] that adds
    [eval[i]] to the statistics of player [i]; [i] is the player of the
    head of the list. *)
Fixpoint update_values_add
    (eval : nat -> Float) (i nu_players : nat) (vals : list Statistics)
    : list Statistics :=
  match nu_players, vals with
  | S n, v :: vals' =>
      Statistics_add (eval i) v :: update_values_add eval (S i) n vals'
  | _, _ => vals
  end.

Section UpdateValues.

Variable nu_players : nat.
Variable moves : list PlayerMove.
Variable eval : nat -> Float.
Variable nodes : list Node.
(* [m_player] *)
Variable player : nat.

(** The calls to [m_tree.add_value]. *)
Definition update_values_nodes : list ValueUpdate :=
  mkValueUpdate 0 (eval player)
  :: map (fun i =>
            mkValueUpdate i (eval (pm_player (get_state_move moves (i - 1)))))
       (seq 1 (length nodes - 1)).

(** [update_values]: the calls to [m_tree.add_value], [m_root_val] and
    [m_init_val] afterwards. *)
Definition update_values (root_val init_val : list Statistics)
    : list ValueUpdate * list Statistics * list Statistics :=
  (update_values_nodes,
   update_values_add eval 0 nu_players root_val,
   update_values_add eval 0 nu_players init_val).

End UpdateValues.

(** ** [Search::update_last_good_reply]

    The calls to [LastGoodReply::store] and [LastGoodReply::forget] are
    collected in the order in which they are made; [None] stands for
    [Move::null()]. *)

Inductive ReplyCall : Type :=
| ReplyStore (player : nat) (last_mv : Move) (second_last_mv : option Move)
    (reply : Move)
| ReplyForget (player : nat) (last_mv : Move) (second_last_mv : option Move)
    (reply : Move).

(** [std::max(a, b)] *)
Definition Float_max2 (a b : Float) : Float :=
  if Float_lt a b then b else a.

Section UpdateLastGoodReply.

Variable nu_players : nat.
Variable moves : list PlayerMove.
Variable eval : nat -> Float.

(** The loop that computes [max_eval]. *)
Definition max_eval : Float :=
  fold_left (fun max_eval i => Float_max2 (eval i) max_eval)
    (seq 1 (nu_players - 1)) (eval 0%nat).

(** [is_winner[i]]; the array is filled for the players below
    [nu_players] only, and [None] is the read of an entry that was not. *)
Definition is_winner (i : nat) : option bool :=
  if (i <? nu_players)%nat then Some (Float_eq (eval i) max_eval) else None.

(** The loop [for (unsigned i = nu_moves - 1; i > 0; --i)]. *)
Fixpoint update_last_good_reply_loop (i : nat) : option (list ReplyCall) :=
  match i with
  | O => Some []
  | S i' =>
      let reply := get_state_move moves (S i') in
      let last_mv := pm_move (get_state_move moves i') in
      let second_last_mv :=
        if (2 <=? S i')%nat
        then Some (pm_move (get_state_move moves (S i' - 2)))
        else None in
      match is_winner (pm_player reply) with
      | None => None
      | Some winner =>
          let call :=
            if winner
            then ReplyStore (pm_player reply) last_mv second_last_mv
                   (pm_move reply)
            else ReplyForget (pm_player reply) last_mv second_last_mv
                   (pm_move reply) in
          match update_last_good_reply_loop i' with
          | None => None
          | Some calls => Some (call :: calls)
          end
      end
  end.

Definition update_last_good_reply : option (list ReplyCall) :=
  let nu_moves := length moves in
  if (1 <? nu_moves)%nat then update_last_good_reply_loop (nu_moves - 1)
  else Some [].

End UpdateLastGoodReply.

(** The player and the reply of a call. *)
Definition reply_player (call : ReplyCall) : nat :=
  match call with
  | ReplyStore player _ _ _ | ReplyForget player _ _ _ => player
  end.

Definition reply_move (call : ReplyCall) : Move :=
  match call with
  | ReplyStore _ _ _ reply | ReplyForget _ _ _ reply => reply
  end.

Definition is_store (call : ReplyCall) : bool :=
  match call with
  | ReplyStore _ _ _ _ => true
  | ReplyForget _ _ _ _ => false
  end.

(** A search with a limit of 100 simulations on the tree of the examples,
    of which 20 are made, two seconds after its start. *)
Definition example_count_state : SearchState ExampleEnv :=
  {| m_tree := example_tree;
     m_tmp_tree := example_clear (1 # 2) example_tree;
     m_root_val := [mkStatistics 20 (6 # 10); mkStatistics 20 (4 # 10)];
     m_init_val := [Statistics_clear; Statistics_clear];
     m_reuse_count := 0;
     m_max_count := 100;
     m_min_simulations := 0;
     m_max_time := LimitsDouble.double_max;
     m_nu_simulations := 20;
     m_last_reuse_param := Some (get_reuse_param (Search_default 1));
     m_followup_sequence := [];
     m_player := 0%nat;
     m_timer := 0;
     m_last_time := 0;
     is_out_of_mem := false;
     m_env :=
       {| example_clock := 2;
          example_followup := None;
          example_extract_limit := None;
          example_full_at := [];
          example_abort := false |};
     m_events := [] |}.

(** ** The first plays in a simulation *)

Section FirstPlays.

Variable skip_rave : Move -> bool.
Variable moves : list PlayerMove.

(** At ply [j], player [p] plays the move [m], and the move takes part in
    RAVE. *)
Definition is_play (p : nat) (m : Move) (j : nat) : bool :=
  let mv := get_state_move moves j in
  Nat.eqb p (pm_player mv) && Nat.eqb m (pm_move mv) && negb (skip_rave m).

(** The first such ply at or after ply [i]. *)
Definition first_play_from (i : nat) (p : nat) (m : Move) : option nat :=
  find (is_play p m) (seq i (length moves - i)).

(** The table [first_play] that records these plies. *)
Definition first_play_table (i : nat) : FirstPlay :=
  fun p m =>
    match first_play_from i p m with
    | Some j => Z.of_nat j
    | None => Limits.unsigned_max
    end.

End FirstPlays.

(** The RAVE backup of the simulation of the examples with weighted
    updates and without [rave_check_same], for an evaluation that player 1
    wins: the calls to [add_rave_value] and the table afterwards. *)
Definition example_rave_eval : nat -> Float :=
  fun p => if Nat.eqb p 1 then 1 else 0.

Definition example_rave_result : list RaveUpdate * FirstPlay :=
  match update_rave_values example_search_rave 3 (fun _ => false)
          example_rave_moves example_rave_eval example_rave_nodes
          first_play_init with
  | Some r => r
  | None => ([], first_play_init)
  end.

(** The update of the second child of the root, whose move player 1 plays
    at ply 3. *)
Definition example_rave_update : RaveUpdate :=
  mkRaveUpdate 0%nat 1%nat 5%nat 1 (2 - inject_Z 3 * (1 / inject_Z 4)).

(** The moves before the reply that a call is keyed by. *)
Definition reply_last_move (call : ReplyCall) : Move :=
  match call with
  | ReplyStore _ last_mv _ _ | ReplyForget _ last_mv _ _ => last_mv
  end.

Definition reply_second_last_move (call : ReplyCall) : option Move :=
  match call with
  | ReplyStore _ _ second_last_mv _ | ReplyForget _ _ second_last_mv _ =>
      second_last_mv
  end.

(** A simulation of two players that ends in a draw, and its evaluation. *)
Definition example_reply_moves : list PlayerMove :=
  [mkPlayerMove 0%nat 3%nat; mkPlayerMove 1%nat 4%nat;
   mkPlayerMove 0%nat 6%nat].

Definition example_draw_eval : nat -> Float := fun _ => 1 # 2.

(** ** [Search::play_in_tree]

    The loop follows [select_child] from the root to a node without
    children; [fuel] bounds its iterations.  [select_child] returns the
    null pointer when no child has a value above the lowest one, and the
    loop then reads the move of the null pointer. *)

Inductive Outcome (A : Type) : Type :=
| Done (a : A)
(* a null pointer is dereferenced *)
| NullPointer
(* the iterations allowed were used up *)
| OutOfFuel.

Arguments Done {A}.
Arguments NullPointer {A}.
Arguments OutOfFuel {A}.

(** What [play_in_tree] leaves: the nodes appended to
    [simulation.nodes], the moves played in the state
    ([State::play_in_tree], [State::play_expanded_child]), [is_terminal]
    and [thread_state.is_out_of_mem]. *)
Record InTree : Type := mkInTree {
  in_tree_nodes : list Node;
  in_tree_moves : list Move;
  in_tree_is_terminal : bool;
  in_tree_is_out_of_mem : bool
}.

Section PlayInTree.

Variable round : Q -> Float.
Variable Float_max : Float.
Variable sqrtF : Float -> Float.
Variable BiasTerm_get : Float -> Float -> Float -> Float.
Variable s : Search.
(* [expand_node(thread_id, node, best_child, init_val)], whose node
   expander and generation of children are outside the embedded files:
   [None] when the tree is full (the function returns [false]), otherwise
   the best child, [None] for the null pointer *)
Variable expand_node : Node -> Float -> option (option Node).

(** The loop [while (node->has_children())]: the nodes selected. *)
Fixpoint play_in_tree_select (fuel : nat) (node : Node)
    : Outcome (list Node) :=
  if has_children node then
    match fuel with
    | O => OutOfFuel
    | S fuel' =>
        match select_child round Float_max sqrtF BiasTerm_get s node with
        | None => NullPointer
        | Some (_, child) =>
            match play_in_tree_select fuel' child with
            | Done path => Done (child :: path)
            | NullPointer => NullPointer
            | OutOfFuel => OutOfFuel
            end
        end
    end
  else Done [].

(** [play_in_tree]; [init_val] is the mean of the init value of the
    player to play after the moves in the tree. *)
Definition play_in_tree (fuel : nat) (root : Node) (init_val : Float)
    : Outcome InTree :=
  match play_in_tree_select fuel root with
  | Done path =>
      let node := last path root in
      let moves := map get_move path in
      let is_root := match path with [] => true | _ :: _ => false end in
      if Float_ge (get_count node) (m_expand_threshold s) || is_root
      then
        match expand_node node init_val with
        | None => Done (mkInTree path moves false true)
        | Some None => Done (mkInTree path moves true false)
        | Some (Some child) =>
            Done (mkInTree (path ++ [child]) (moves ++ [get_move child])
                    false false)
        end
      else Done (mkInTree path moves false false)
  | NullPointer => NullPointer
  | OutOfFuel => OutOfFuel
  end.


End PlayInTree.


(** An expansion for the examples: a node gets one child of move 9 with
    the init value. *)
Definition example_expand_node (node : Node) (init_val : Float)
    : option (option Node) :=
  Some (Some (leaf 9%nat 0 init_val)).

(** ** Reading the pruning of a search *)

(** The minimum counts of the calls to [prune] among events, in order. *)
Definition prune_thresholds (evs : list Event) : list Float :=
  flat_map (fun e => match e with
                     | EvPrune prune_min_count => [prune_min_count]
                     | _ => []
                     end) evs.

(** A list of minimum counts that starts with [p] and in which every
    further one is the one before it or its double. *)
Fixpoint doubling_chain (p : Float) (l : list Float) : Prop :=
  match l with
  | [] => True
  | q :: l' => q = p /\ (doubling_chain p l' \/ doubling_chain (p * 2) l')
  end.

Definition is_search_loop (e : Event) : bool :=
  match e with
  | EvSearchLoop _ _ => true
  | _ => false
  end.

(** The number of times the search loop is started. *)
Definition count_search_loops (evs : list Event) : nat :=
  length (filter is_search_loop evs).

(** An event of the search loop. *)
Definition is_loop_event (e : Event) : bool :=
  is_abort_check e || is_simulation e.

(** Surroundings in which the tree is full at the simulations 3 and 6. *)
Definition example_env_full : ExampleEnv :=
  {| example_clock := 0;
     example_followup := None;
     example_extract_limit := None;
     example_full_at := [3%Z; 6%Z];
     example_abort := false |}.

(** Surroundings in which [check_followup] reports the position of the
    last search. *)
Definition example_env_same : ExampleEnv :=
  {| example_clock := 0;
     example_followup := Some [];
     example_extract_limit := None;
     example_full_at := [];
     example_abort := false |}.

(** A search with [reuse_tree] enabled. *)
Definition example_search_reuse_tree : Search :=
  {| m_nu_threads := 1;
     m_expand_threshold := 0;
     m_deterministic := false;
     m_reuse_subtree := true;
     m_reuse_tree := true;
     m_prune_full_tree := true;
     m_rave := false;
     m_rave_check_same := false;
     m_weight_rave_updates := true;
     m_use_last_good_reply := false;
     m_prune_count_start := 16;
     m_rave_equivalence := 1000;
     m_bias_term_constant := 0 |}.

(** A search without pruning. *)
Definition example_search_no_prune : Search :=
  {| m_nu_threads := 1;
     m_expand_threshold := 0;
     m_deterministic := false;
     m_reuse_subtree := true;
     m_reuse_tree := false;
     m_prune_full_tree := false;
     m_rave := false;
     m_rave_check_same := false;
     m_weight_rave_updates := true;
     m_use_last_good_reply := false;
     m_prune_count_start := 16;
     m_rave_equivalence := 1000;
     m_bias_term_constant := 0 |}.

(** Surroundings in which the expensive abort check answers [true]. *)
Definition example_env_abort : ExampleEnv :=
  {| example_clock := 0;
     example_followup := None;
     example_extract_limit := None;
     example_full_at := [];
     example_abort := true |}.

(** The numbers passed to [State::start_simulation], in order. *)
Definition simulation_numbers (evs : list Event) : list Z :=
  flat_map (fun e => match e with
                     | EvSimulation nu_simulations => [nu_simulations]
                     | _ => []
                     end) evs.

(** The [size_t] values [n], [n + 1], ..., [n + k - 1]. *)
Definition numbers_from (n : Z) (k : nat) : list Z :=
  map (fun i => Limits.wrap_size_t (n + Z.of_nat i)) (seq 0 k).

(** Every evaluation of the expensive abort check among [evs] follows at
    once on an evaluation of [check_abort] at the same count of the
    root. *)
Definition expensive_after_cheap (evs : list Event) : Prop :=
  forall pre root_count post,
    evs = pre ++ EvCheckAbortExpensive root_count :: post ->
    exists pre', pre = pre' ++ [EvCheckAbort root_count].

(** The host [h] with another expensive abort checker. *)
Definition with_expensive_abort_checker {D : Type}
    (checker : SearchState D -> bool * D) (h : Host D) : Host D :=
  mkHost D (Float_max h) (Float_digits h) (get_nu_players h) (get_player h)
    (get_tie_value h) (expected_sim_per_sec h) (time_source h)
    (check_followup h) (find_node h) (Tree_clear h)
    (Tree_clear_root_value h) (Tree_extract_subtree h)
    (Tree_copy_subtree h) (start_search h) (new_expensive_abort_checker h)
    checker (simulation h).

(** A checker for the examples that answers otherwise than the one of the
    example host in the states in which [check_abort] holds. *)
Definition example_other_checker (st : SearchState ExampleEnv)
    : bool * ExampleEnv :=
  if check_abort example_host st
  then (negb (fst (expensive_abort_checker example_host st)), m_env st)
  else expensive_abort_checker example_host st.

(** ** [Search::create_threads] and [Search::check_create_threads]

    A thread of the search: its thread state, of which the embedded
    functions read [thread_id] and [first_play], and whether [Thread::run]
    has started it. *)

Record ThreadState (S : Type) : Type := mkThreadState {
  thread_id : nat;
  thread_state : S;
  thread_first_play : FirstPlay;
  thread_running : bool
}.

Arguments mkThreadState {S}.
Arguments thread_id {S}.
Arguments thread_state {S}.
Arguments thread_first_play {S}.
Arguments thread_running {S}.

Section CreateThreads.

Context {S : Type}.
Variable s : Search.
(* [create_state()], for the thread of the given index *)
Variable create_state : nat -> S.

Definition create_threads : list (ThreadState S) :=
  map (fun i =>
         mkThreadState i (create_state i) first_play_init (0 <? i)%nat)
    (seq 0 (Z.to_nat (m_nu_threads s))).

(** [check_create_threads] for the threads [m_threads]. *)
Definition check_create_threads (m_threads : list (ThreadState S))
    : list (ThreadState S) :=
  if negb (m_nu_threads s =? Z.of_nat (length m_threads))%Z
  then create_threads
  else m_threads.

End CreateThreads.

(** ** [libboardgame_util/Assert.cpp]

    A handler is known by its address.  What a handler does when it runs
    matters here only by the assertions that fail meanwhile, which call
    [handle_assertion] again. *)

Module Assert.

Import String.

Definition Handler := nat.

Record Assertion : Type := mkAssertion {
  expression : string;
  file : string;
  line : Z
}.

(** The static and global variables of the file, the lines logged and the
    handlers run, in order. *)
Record State : Type := mkState {
  all_handlers : list Handler;
  is_during_handle_assertion : bool;
  additional_assertions : list string;
  logged : list string;
  handlers_run : list Handler
}.

Definition initial_state : State :=
  {| all_handlers := [];
     is_during_handle_assertion := false;
     additional_assertions := [];
     logged := [];
     handlers_run := [] |}.

(** [AssertionHandler::AssertionHandler] *)
Definition AssertionHandler_new (this : Handler) (st : State) : State :=
  {| all_handlers := all_handlers st ++ [this];
     is_during_handle_assertion := is_during_handle_assertion st;
     additional_assertions := additional_assertions st;
     logged := logged st;
     handlers_run := handlers_run st |}.

(** [AssertionHandler::~AssertionHandler] *)
Definition AssertionHandler_delete (this : Handler) (st : State) : State :=
  {| all_handlers := List.remove Nat.eq_dec this (all_handlers st);
     is_during_handle_assertion := is_during_handle_assertion st;
     additional_assertions := additional_assertions st;
     logged := logged st;
     handlers_run := handlers_run st |}.

(** The message of [handle_assertion]. *)
Definition message (a : Assertion) : string :=
  file a ++ ":" ++ DecimalString.NilZero.string_of_int (Z.to_int (line a))
  ++ ": Assertion '" ++ expression a ++ "' failed".

(** The line logged before the assertions that failed while the handlers
    ran. *)
Definition additional_header : string :=
  "Assertions triggered during execution of assertion handlers:".

(** [handle_assertion] while the handlers run. *)
Definition handle_assertion_during (a : Assertion) (st : State) : State :=
  if negb (existsb (String.eqb (message a)) (additional_assertions st))
  then
    {| all_handlers := all_handlers st;
       is_during_handle_assertion := is_during_handle_assertion st;
       additional_assertions := additional_assertions st ++ [message a];
       logged := logged st;
       handlers_run := handlers_run st |}
  else st.

Section HandleAssertion.

(* the assertions that fail while a handler runs *)
Variable run : Handler -> list Assertion.

(** [AssertionHandler::run] of a handler, from [handle_assertion]. *)
Definition run_handler (st : State) (handler : Handler) : State :=
  fold_left (fun st a => handle_assertion_during a st) (run handler)
    {| all_handlers := all_handlers st;
       is_during_handle_assertion := is_during_handle_assertion st;
       additional_assertions := additional_assertions st;
       logged := logged st;
       handlers_run := handlers_run st ++ [handler] |}.

(** [handle_assertion]: the state afterwards and whether [abort] is
    called. *)
Definition handle_assertion (a : Assertion) (st : State) : State * bool :=
  if is_during_handle_assertion st then (handle_assertion_during a st, false)
  else
    let st :=
      {| all_handlers := all_handlers st;
         is_during_handle_assertion := true;
         additional_assertions := additional_assertions st;
         logged := logged st ++ [message a];
         handlers_run := handlers_run st |} in
    let st := fold_left run_handler (all_handlers st) st in
    let st :=
      match additional_assertions st with
      | [] => st
      | _ :: _ =>
          {| all_handlers := all_handlers st;
             is_during_handle_assertion := is_during_handle_assertion st;
             additional_assertions := additional_assertions st;
             logged :=
               logged st ++ additional_header :: additional_assertions st;
             handlers_run := handlers_run st |}
      end in
    (st, true).

End HandleAssertion.

(** Two handlers, the first of which fails the same assertion twice and
    the second of which fails it again and another one. *)
Definition example_run (handler : Handler) : list Assertion :=
  match handler with
  | 1%nat => [mkAssertion "i < size" "Search.h" 940;
              mkAssertion "i < size" "Search.h" 940]
  | 2%nat => [mkAssertion "i < size" "Search.h" 940;
              mkAssertion "interval >= 1" "IntervalChecker.cpp" 101]
  | _ => []
  end.

Definition example_assertion : Assertion :=
  mkAssertion "first >= i" "Search.h" 1597.

(** The state after the construction of the two handlers. *)
Definition example_state : State :=
  AssertionHandler_new 2%nat (AssertionHandler_new 1%nat initial_state).

End Assert.

(** * Theorems *)

(** ** Comparisons of [Float] *)

Lemma Float_gt_true (x y : Float) : Float_gt x y = true <-> y < x.
Proof.
  unfold Float_gt. rewrite negb_true_iff.
  split; intro H.
  - apply Qnot_le_lt. intro Hle. apply Qle_bool_iff in Hle. congruence.
  - destruct (Qle_bool x y) eqn:E; [|reflexivity].
    apply Qle_bool_iff in E. lra.
Qed.

Lemma Float_gt_false (x y : Float) : Float_gt x y = false <-> x <= y.
Proof.
  unfold Float_gt. rewrite negb_false_iff. apply Qle_bool_iff.
Qed.

Lemma Float_eq_true (x y : Float) : Float_eq x y = true <-> x == y.
Proof. apply Qeq_bool_iff. Qed.

Lemma Float_eq_false (x y : Float) : Float_eq x y = false <-> ~ x == y.
Proof.
  unfold Float_eq. split; intro H.
  - intro E. apply Qeq_bool_iff in E. congruence.
  - destruct (Qeq_bool x y) eqn:E; [|reflexivity].
    apply Qeq_bool_iff in E. contradiction.
Qed.

Lemma Float_ge_true (x y : Float) : Float_ge x y = true <-> y <= x.
Proof. apply Qle_bool_iff. Qed.

(** ** Rounding *)

Lemma Qround_even_comp (x y : Q) : x == y -> Qround_even x = Qround_even y.
Proof.
  intros H. unfold Qround_even, Float_lt, Float_gt.
  rewrite (Qfloor_comp x y H).
  assert (Hr : x - inject_Z (Qfloor y) == y - inject_Z (Qfloor y))
    by (now rewrite H).
  now rewrite !(Qleb_comp _ _ Hr _ _ (Qeq_refl (1 # 2))),
              !(Qleb_comp _ _ (Qeq_refl (1 # 2)) _ _ Hr).
Qed.

Lemma Qround_even_Z (z : Z) : Qround_even (inject_Z z) = z.
Proof.
  unfold Qround_even. rewrite Qfloor_Z.
  assert (H : inject_Z z - inject_Z z == 0) by ring.
  unfold Float_lt, Float_gt.
  assert (H1 : Qle_bool (inject_Z z - inject_Z z) (1 # 2) = true).
  { apply Qle_bool_iff. rewrite H. discriminate. }
  assert (H2 : Qle_bool (1 # 2) (inject_Z z - inject_Z z) = false).
  { destruct (Qle_bool (1 # 2) (inject_Z z - inject_Z z)) eqn:E; trivial.
    apply Qle_bool_iff in E. rewrite H in E. now elim E. }
  rewrite H1, H2. reflexivity.
Qed.

Lemma Qexponent_Z (z : Z) : (0 < z)%Z -> Qexponent (inject_Z z) = Z.log2 z.
Proof.
  intros Hz. unfold Qexponent. cbn [Qnum Qden inject_Z].
  change (Z.log2 1) with 0%Z. rewrite Z.sub_0_r.
  match goal with
  | |- (if ?b then _ else _) = _ => assert (H : b = true)
  end.
  { apply Qle_bool_iff.
    pose proof (Z.log2_nonneg z) as Hnn.
    pose proof (Z.log2_spec z Hz) as [Hlo _].
    change 2 with (inject_Z 2). rewrite <- Zpower_Qpower by lia.
    change (z # 1) with (inject_Z z). now rewrite <- Zle_Qle. }
  now rewrite H.
Qed.

(** Whole numbers below [2 ^ digits] are values of the floating type. *)
Lemma Float_representable_Z (digits z : Z) :
  (0 <= z < 2 ^ digits)%Z ->
  Float_representable digits (inject_Z z).
Proof.
  intros [Hlo Hhi].
  unfold Float_representable, round_nearest_even.
  destruct (Float_eq (inject_Z z) 0) eqn:E.
  - apply Qeq_bool_iff in E. now rewrite E.
  - assert (Hz : (0 < z)%Z).
    { destruct (Z.eq_dec z 0) as [->|]; [discriminate | lia]. }
    assert (Hd : (0 < digits)%Z).
    { destruct (Z.lt_ge_cases 0 digits); trivial.
      assert (2 ^ digits <= 1)%Z; [|lia].
      destruct (Z.eq_dec digits 0) as [->|]; [simpl; lia|].
      rewrite Z.pow_neg_r by lia. lia. }
    assert (Habs : Qabs (inject_Z z) = inject_Z z).
    { unfold Qabs, inject_Z. now rewrite Z.abs_eq by lia. }
    rewrite Habs, Qexponent_Z by trivial.
    assert (Hlog : (Z.log2 z < digits)%Z) by (apply Z.log2_lt_pow2; lia).
    set (k := (digits - 1 - Z.log2 z)%Z).
    assert (Hk : (0 <= k)%Z) by (unfold k; lia).
    replace (Z.log2 z - (digits - 1))%Z with (- k)%Z by (unfold k; lia).
    assert (Hpow : 2 ^ (- k) == / inject_Z (2 ^ k)).
    { rewrite Qpower_opp. change 2 with (inject_Z 2) at 1.
      now rewrite <- Zpower_Qpower by lia. }
    assert (Hpos : 0 < inject_Z (2 ^ k)).
    { change 0 with (inject_Z 0). rewrite <- Zlt_Qlt.
      apply Z.pow_pos_nonneg; lia. }
    assert (Hdiv : inject_Z z / 2 ^ (- k) == inject_Z (z * 2 ^ k)).
    { rewrite Hpow, inject_Z_mult. field. lra. }
    assert (Hlt : Float_lt (inject_Z z) 0 = false).
    { unfold Float_lt, Float_gt.
      assert (Qle_bool 0 (inject_Z z) = true) as ->; [|reflexivity].
      apply Qle_bool_iff. change 0 with (inject_Z 0).
      rewrite <- Zle_Qle. lia. }
    rewrite Hlt, Qred_correct.
    rewrite (Qround_even_comp _ _ Hdiv), Qround_even_Z.
    rewrite Hpow, inject_Z_mult. field. lra.
Qed.

Example round_single_examples :
  round_single (1 # 3) == (11184811 # 33554432) /\
  round_single (inject_Z (2 ^ 24 + 1)) == inject_Z (2 ^ 24) /\
  round_single ((1 # 2) + (1 # 2 ^ 25)) == (1 # 2) /\
  round_single ((1 # 2) + (3 # 2 ^ 25)) == (1 # 2) + (1 # 2 ^ 23) /\
  round_nearest_even 53 (1 # 10)
  == (3602879701896397 # 36028797018963968).
Proof. vm_compute. repeat split. Qed.

(** ** Final selection *)

Section SelectChildFinalFacts.

Variable Float_max : Float.
Variable exclude_moves : option (list Move).

Lemma first_best_snoc_keep pre k r c :
  first_best exclude_moves pre k r ->
  (is_excluded exclude_moves (get_move c) = true \/
   (get_count c <= get_count r /\
    (get_count c == get_count r -> get_value c <= get_value r))) ->
  first_best exclude_moves (pre ++ [c]) k r.
Proof.
  intros (Hn & Hex & Hall) Hc.
  assert (Hk : (k < length pre)%nat)
    by (apply nth_error_Some; congruence).
  split; [|split]; trivial.
  - rewrite nth_error_app1; trivial.
  - intros j c' Hj Hex'.
    destruct (Nat.lt_ge_cases j (length pre)) as [Hlt | Hge].
    + rewrite nth_error_app1 in Hj by trivial. now apply Hall.
    + rewrite nth_error_app2 in Hj by trivial.
      destruct (j - length pre)%nat as [|n] eqn:E; simpl in Hj.
      * injection Hj as <-.
        destruct Hc as [Hc | [Hc1 Hc2]]; [congruence|].
        repeat split; trivial. intros; lia.
      * destruct n; discriminate.
Qed.

Lemma first_best_snoc_new pre c :
  is_excluded exclude_moves (get_move c) = false ->
  (forall j c',
      nth_error pre j = Some c' ->
      is_excluded exclude_moves (get_move c') = false ->
      get_count c' < get_count c \/
      (get_count c' == get_count c /\ get_value c' < get_value c)) ->
  first_best exclude_moves (pre ++ [c]) (length pre) c.
Proof.
  intros Hex Hall.
  split; [|split]; trivial.
  - rewrite nth_error_app2 by lia. now rewrite Nat.sub_diag.
  - intros j c' Hj Hex'.
    destruct (Nat.lt_ge_cases j (length pre)) as [Hlt | Hge].
    + rewrite nth_error_app1 in Hj by trivial.
      destruct (Hall j c' Hj Hex') as [H | [H1 H2]].
      * repeat split; try lra.
      * repeat split; try lra.
    + repeat split; try lia.
      all: rewrite nth_error_app2 in Hj by trivial;
        destruct (j - length pre)%nat as [|n]; simpl in Hj;
        [injection Hj as <-; lra | destruct n; discriminate].
Qed.

Lemma select_child_final_loop_inv cs :
  forall pre result max_count max_count_value,
    final_inv exclude_moves pre result max_count max_count_value ->
    (forall c, In c cs -> 0 <= get_count c) ->
    exists mc mv,
      final_inv exclude_moves (pre ++ cs)
        (select_child_final_loop exclude_moves cs (length pre)
           result max_count max_count_value) mc mv.
Proof.
  induction cs as [|c cs IH]; intros pre result mc mv Hinv Hpos.
  - rewrite app_nil_r. simpl. eauto.
  - assert (Hc : 0 <= get_count c) by (apply Hpos; now left).
    assert (Hpos' : forall c', In c' cs -> 0 <= get_count c')
      by (intros; apply Hpos; now right).
    replace (pre ++ c :: cs) with ((pre ++ [c]) ++ cs)
      by (now rewrite <- app_assoc).
    assert (Hlen : S (length pre) = length (pre ++ [c]))
      by (rewrite length_app; simpl; lia).
    simpl. rewrite Hlen.
    destruct (Float_gt (get_count c) mc
              || Float_eq (get_count c) mc
                 && Float_gt (get_value c) mv) eqn:Hcond.
    + destruct (is_excluded exclude_moves (get_move c)) eqn:Hex.
      * apply IH; trivial.
        destruct result as [[k r]|]; simpl in *.
        -- destruct Hinv as (-> & -> & Hfb).
           split; [reflexivity | split; [reflexivity|]].
           apply first_best_snoc_keep; auto.
        -- destruct Hinv as [Hmc Hall]. split; trivial.
           intros c' Hin. apply in_app_or in Hin.
           destruct Hin as [Hin | [<- | []]]; auto.
      * apply IH; trivial. simpl.
        split; [reflexivity | split; [reflexivity|]].
        destruct result as [[k r]|]; simpl in Hinv.
        -- destruct Hinv as (-> & -> & Hn & Hexr & Hall).
           apply first_best_snoc_new; trivial.
           intros j c' Hj Hex'.
           destruct (Hall j c' Hj Hex') as (H1 & H2 & _).
           apply orb_true_iff in Hcond.
           destruct Hcond as [Hgt | Heq].
           ++ apply Float_gt_true in Hgt. left. lra.
           ++ apply andb_true_iff in Heq. destruct Heq as [Heq Hgt].
              apply Float_eq_true in Heq. apply Float_gt_true in Hgt.
              destruct (Qlt_le_dec (get_count c') (get_count r)) as [Hlt|Hle].
              ** left. lra.
              ** right. assert (Hcr : get_count c' == get_count r) by lra.
                 specialize (H2 Hcr). split; lra.
        -- destruct Hinv as [Hmc Hall].
           apply first_best_snoc_new; trivial.
           intros j c' Hj Hex'.
           apply nth_error_In in Hj. apply Hall in Hj. congruence.
    + apply IH; trivial.
      apply orb_false_iff in Hcond. destruct Hcond as [Hgt Hrest].
      apply Float_gt_false in Hgt.
      destruct result as [[k r]|]; simpl in *.
      * destruct Hinv as (-> & -> & Hfb).
        split; [reflexivity | split; [reflexivity|]].
        apply first_best_snoc_keep; trivial. right. split; trivial.
        intros Heq. apply andb_false_iff in Hrest.
        destruct Hrest as [Hne | Hle].
        -- apply Float_eq_false in Hne. contradiction.
        -- now apply Float_gt_false in Hle.
      * destruct Hinv as [Hmc _]. lra.
Qed.

(** C4.  For a node whose children have non-negative visit counts and
    that has a child outside the exclude list, [select_child_final]
    returns a child that is not excluded and that has, among the children
    that are not excluded, the highest visit count; among those of that
    count, the highest value; and among those of that count and value,
    the earliest position in iteration order. *)
Theorem select_child_final_first_best (node : Node) :
  (forall c, In c (get_children node) -> 0 <= get_count c) ->
  (exists c, In c (get_children node) /\
             is_excluded exclude_moves (get_move c) = false) ->
  exists k r,
    select_child_final Float_max node exclude_moves = Some (k, r) /\
    first_best exclude_moves (get_children node) k r.
Proof.
  intros Hpos (c & Hin & Hex).
  unfold select_child_final.
  destruct (select_child_final_loop_inv (get_children node) []
              None (-1) (- Float_max)) as (mc & mv & Hinv); trivial.
  - simpl. split; [reflexivity | intros ? []].
  - simpl in Hinv.
    destruct (select_child_final_loop exclude_moves (get_children node)
                0 None (-1) (- Float_max)) as [[k r]|]; simpl in Hinv.
    + exists k, r. split; [reflexivity | apply Hinv].
    + destruct Hinv as [_ Hall]. apply Hall in Hin. congruence.
Qed.

End SelectChildFinalFacts.

(** Without an exclude list, the final selection returns a child of the
    highest visit count. *)
Lemma select_child_final_highest_count (Float_max : Float) (node : Node) :
  (forall c, In c (get_children node) -> 0 <= get_count c) ->
  get_children node <> [] ->
  exists k r,
    select_child_final Float_max node None = Some (k, r) /\
    nth_error (get_children node) k = Some r /\
    forall j c,
      nth_error (get_children node) j = Some c -> get_count c <= get_count r.
Proof.
  intros Hpos Hne.
  unfold select_child_final.
  destruct (select_child_final_loop_inv None (get_children node) []
              None (-1) (- Float_max)) as (mc & mv & Hinv); trivial.
  - simpl. split; [reflexivity | intros ? []].
  - simpl in Hinv.
    destruct (select_child_final_loop None (get_children node)
                0 None (-1) (- Float_max)) as [[k r]|]; simpl in Hinv.
    + exists k, r. destruct Hinv as (_ & _ & Hnth & _ & Hall).
      split; [reflexivity|]. split; [exact Hnth|].
      intros j c Hj. now apply (Hall j c Hj).
    + destruct Hinv as [_ Hall].
      destruct (get_children node) as [|c cs]; [now elim Hne|].
      specialize (Hall c (or_introl eq_refl)). discriminate.
Qed.

(** ** Node capacity of the arenas *)

(** C9, as stated, fails for a memory budget of [2^40] bytes with 32-byte
    nodes and a 32-bit [NodeIndex]: the capacity is the largest
    [NodeIndex], not the quotient. *)
Lemma get_max_nodes_not_quotient :
  get_max_nodes 32 Limits.unsigned_max (2 ^ 40)
  <> (2 ^ 40 / (2 * 32))%Z.
Proof. vm_compute. discriminate. Qed.

(** C9, amended.  [get_max_nodes memory] is [memory / (2 * sizeof(Node))]
    (integer division) when that quotient does not exceed the largest
    [NodeIndex], and the largest [NodeIndex] otherwise: it is the smaller
    of the two. *)
Theorem get_max_nodes_capped (sizeof_Node NodeIndex_max memory : Z) :
  (0 < sizeof_Node)%Z ->
  get_max_nodes sizeof_Node NodeIndex_max memory
  = Z.min (memory / (2 * sizeof_Node)) NodeIndex_max.
Proof.
  intros Hs. unfold get_max_nodes.
  rewrite Z.div_div by lia.
  now rewrite (Z.mul_comm sizeof_Node 2).
Qed.

Lemma get_max_nodes_capped_witness :
  (0 < 32)%Z /\
  get_max_nodes 32 Limits.unsigned_max 256000000
  = Z.min (256000000 / (2 * 32)) Limits.unsigned_max.
Proof.
  split; [lia | apply (get_max_nodes_capped 32 Limits.unsigned_max 256000000); lia].
Defined.

(** ** The test that the move cannot change *)

(** C1.  At a root visited 15 times whose children were visited 10 and 5
    times, with 7 simulations remaining, [check_move_cannot_change] answers
    [true]: the loop records a second-highest count only when a new highest
    count replaces it, so the 5 visits of the second child are never seen.
    Yet giving the 7 remaining visits to the second child makes it the
    child of the final selection. *)
Theorem check_move_cannot_change_misses_runner_up :
  check_move_cannot_change root_10_5 15 7 = true /\
  check_move_cannot_change_loop (get_children root_10_5) 0 0 = (10, 0) /\
  total_visits [0; 7] == 7 /\
  select_child_final Float_max_single root_10_5 None
  = Some (0%nat, leaf 1%nat 10 (1 # 2)) /\
  select_child_final Float_max_single (visit_children [0; 7] root_10_5) None
  = Some (1%nat, leaf 2%nat (5 + 7) (1 # 2)).
Proof. repeat split. Qed.

(** ** The criterion that the move cannot change *)

Lemma total_visits_nonneg (incs : list Float) :
  (forall d, In d incs -> 0 <= d) -> 0 <= total_visits incs.
Proof.
  induction incs as [|d incs IH]; intros Hpos; simpl; [lra|].
  assert (0 <= d) by (apply Hpos; now left).
  assert (0 <= total_visits incs) by (apply IH; intros; apply Hpos; now right).
  unfold total_visits in *. lra.
Qed.

(** A child of the node after an allocation of visits is a child of the
    node before, visited at most the whole allocation more. *)
Lemma add_visits_nth (cs : list Node) :
  forall (incs : list Float) (j : nat),
    (forall d, In d incs -> 0 <= d) ->
    match nth_error cs j, nth_error (add_visits incs cs) j with
    | Some c, Some c' =>
        get_move c' = get_move c /\ get_value c' = get_value c /\
        get_count c <= get_count c' /\
        get_count c' <= get_count c + total_visits incs
    | None, None => True
    | _, _ => False
    end.
Proof.
  induction cs as [|c cs IH]; intros incs j Hpos.
  - destruct incs, j; simpl; trivial.
  - destruct incs as [|d incs].
    + simpl add_visits. destruct (nth_error (c :: cs) j); trivial.
      simpl. repeat split; lra.
    + assert (Hd : 0 <= d) by (apply Hpos; now left).
      assert (Hpos' : forall d', In d' incs -> 0 <= d')
        by (intros; apply Hpos; now right).
      pose proof (total_visits_nonneg incs Hpos') as Htot.
      destruct j as [|j]; simpl.
      * fold (total_visits incs). repeat split; lra.
      * specialize (IH incs j Hpos').
        destruct (nth_error cs j), (nth_error (add_visits incs cs) j);
          trivial.
        fold (total_visits incs).
        destruct IH as (Hm & Hv & Hlo & Hhi). repeat split; trivial; lra.
Qed.

(** The criterion of the description is sound for the final selection:
    when the count of a child exceeds the count of every other child by
    more than the remaining simulations, the final selection returns that
    child after any allocation of at most the remaining simulations to
    the children. *)
Lemma cannot_change_criterion_sound (Float_max : Float) (root : Node)
    (incs : list Float) (remaining : Float) (k : nat) (r : Node) :
  (forall c, In c (get_children root) -> 0 <= get_count c) ->
  (forall d, In d incs -> 0 <= d) ->
  total_visits incs <= remaining ->
  nth_error (get_children root) k = Some r ->
  (forall j c,
      nth_error (get_children root) j = Some c -> j <> k ->
      get_count c + remaining < get_count r) ->
  exists r',
    select_child_final Float_max (visit_children incs root) None
    = Some (k, r') /\
    get_move r' = get_move r.
Proof.
  intros Hpos Hincs Htotal Hk Hlead.
  pose proof (add_visits_nth (get_children root) incs k Hincs) as Hk'.
  rewrite Hk in Hk'.
  destruct (nth_error (add_visits incs (get_children root)) k)
    as [r1|] eqn:Hr1; [|contradiction].
  destruct Hk' as (Hmove & _ & Hlo & _).
  destruct (select_child_final_highest_count Float_max
              (visit_children incs root)) as (k' & r' & Hsel & Hnth & Hall).
  - intros c Hin. simpl in Hin. apply In_nth_error in Hin.
    destruct Hin as [j Hj].
    pose proof (add_visits_nth (get_children root) incs j Hincs) as Hj'.
    rewrite Hj in Hj'.
    destruct (nth_error (get_children root) j) as [c0|] eqn:Hc0;
      [|contradiction].
    destruct Hj' as (_ & _ & Hlo' & _).
    apply nth_error_In in Hc0. apply Hpos in Hc0. lra.
  - simpl. intros Hnil. rewrite Hnil in Hr1. destruct k; discriminate.
  - simpl in Hnth, Hall.
    destruct (Nat.eq_dec k' k) as [-> | Hne].
    + exists r'. split; [exact Hsel|].
      rewrite Hr1 in Hnth. injection Hnth as <-. exact Hmove.
    + exfalso.
      pose proof (Hall k r1 Hr1) as Hle.
      pose proof (add_visits_nth (get_children root) incs k' Hincs) as Hk''.
      rewrite Hnth in Hk''.
      destruct (nth_error (get_children root) k') as [c0|] eqn:Hc0;
        [|contradiction].
      destruct Hk'' as (_ & _ & _ & Hhi).
      specialize (Hlead k' c0 Hc0 Hne). lra.
Qed.

(** ** Selection in the tree *)

Section SelectChildFacts.

Variable round : Q -> Float.
Variable Float_max : Float.
Variable sqrtF : Float -> Float.
Variable BiasTerm_get : Float -> Float -> Float -> Float.
Variable s : Search.



End SelectChildFacts.

(** ** The interval checker *)

Lemma check_expensive_latched env hist c :
  m_result c = true -> check_expensive env hist c = (true, c, []).
Proof. intros H. unfold check_expensive. now rewrite H. Qed.

Lemma check_expensive_function_result env hist c r c' calls :
  check_expensive env hist c = (r, c', calls) ->
  In (CallFunction true) calls ->
  m_result c' = true.
Proof.
  unfold check_expensive.
  destruct (m_result c) eqn:Hres.
  - intros [= <- <- <-]. intros [].
  - destruct (m_is_deterministic c).
    + intros [= <- <- <-]. simpl. intros [[= ->] | []]. reflexivity.
    + destruct (negb (m_is_first_check c)).
      * intros [= <- <- <-]. simpl.
        intros [[=] | [[= ->] | []]]. reflexivity.
      * intros [= <- <- <-]. simpl. intros [[=] | []].
Qed.

Lemma set_deterministic_result interval c :
  m_result (set_deterministic interval c) = m_result c.
Proof. reflexivity. Qed.

Lemma run_checker_latched env ops :
  forall hist c,
    m_result c = true ->
    exists c',
      run_checker env ops hist c
      = (repeat true (count_checks ops), c', hist) /\
      m_result c' = true.
Proof.
  induction ops as [|[|interval] ops IH]; intros hist c Hres.
  - exists c. split; [reflexivity | trivial].
  - simpl. rewrite check_expensive_latched by trivial.
    rewrite app_nil_r.
    destruct (IH hist c Hres) as (c' & -> & Hc').
    exists c'. split; [reflexivity | trivial].
  - simpl.
    destruct (IH hist (set_deterministic interval c)) as (c' & -> & Hc');
      [now rewrite set_deterministic_result|].
    exists c'. split; [reflexivity | trivial].
Qed.

(** C10.  Once the wrapped function has answered [true] in a call to
    [check_expensive], every later call to [check_expensive] returns [true]
    and calls neither the function nor the time source: whatever
    operations follow, interleaved or not with [set_deterministic], all
    their checks return [true] and the history of calls stays as it was. *)
Theorem check_expensive_result_latches env hist c r c' calls ops :
  check_expensive env hist c = (r, c', calls) ->
  In (CallFunction true) calls ->
  exists c'',
    run_checker env ops (hist ++ calls) c'
    = (repeat true (count_checks ops), c'', hist ++ calls) /\
    check_expensive env (hist ++ calls) c'' = (true, c'', []).
Proof.
  intros Hcall Hin.
  pose proof (check_expensive_function_result _ _ _ _ _ _ Hcall Hin) as Hres.
  destruct (run_checker_latched env ops (hist ++ calls) c' Hres)
    as (c'' & Hrun & Hres'').
  exists c''. split; trivial.
  now apply check_expensive_latched.
Qed.

Example example_checker_run :
  run_checker example_checker_env [OpCheckExpensive; OpCheckExpensive] []
    (IntervalChecker_new (1 # 10))
  = ([false; false], example_checker, example_history).
Proof. reflexivity. Qed.

Lemma check_expensive_result_latches_witness :
  let calls := [CallTimeSource (3 # 10); CallFunction true] in
  let c' :=
    snd (fst (check_expensive example_checker_env example_history
                example_checker)) in
  (check_expensive example_checker_env example_history example_checker
   = (true, c', calls) /\
   In (CallFunction true) calls) /\
  exists c'',
    run_checker example_checker_env
      [OpCheckExpensive; OpSetDeterministic 5; OpCheckExpensive]
      (example_history ++ calls) c'
    = (repeat true 2, c'', example_history ++ calls) /\
    check_expensive example_checker_env (example_history ++ calls) c''
    = (true, c'', []).
Proof.
  cbv zeta.
  assert (Hcall :
    check_expensive example_checker_env example_history example_checker
    = (true,
       snd (fst (check_expensive example_checker_env example_history
                   example_checker)),
       [CallTimeSource (3 # 10); CallFunction true])) by reflexivity.
  assert (Hin : In (CallFunction true)
                  [CallTimeSource (3 # 10); CallFunction true])
    by (simpl; auto).
  split; [split; [exact Hcall | exact Hin]|].
  exact (check_expensive_result_latches example_checker_env example_history
           example_checker true _ _
           [OpCheckExpensive; OpSetDeterministic 5; OpCheckExpensive]
           Hcall Hin).
Defined.

Lemma select_child_final_first_best_witness :
  ((forall c, In c (get_children example_final_node) -> 0 <= get_count c) /\
   (exists c, In c (get_children example_final_node) /\
              is_excluded (Some [1%nat]) (get_move c) = false)) /\
  exists k r,
    select_child_final Float_max_single example_final_node (Some [1%nat])
    = Some (k, r) /\
    first_best (Some [1%nat]) (get_children example_final_node) k r.
Proof.
  assert (H1 : forall c, In c (get_children example_final_node) ->
                         0 <= get_count c).
  { simpl. intros c [<- | [<- | [<- | [<- | []]]]]; simpl;
      unfold Qle; simpl; lia. }
  assert (H2 : exists c, In c (get_children example_final_node) /\
                         is_excluded (Some [1%nat]) (get_move c) = false).
  { exists (leaf 2%nat 7 (4 # 10)). split; [simpl; auto | reflexivity]. }
  split; [split; [exact H1 | exact H2]|].
  exact (select_child_final_first_best Float_max_single (Some [1%nat])
           example_final_node H1 H2).
Defined.

Example select_child_final_example :
  select_child_final Float_max_single example_final_node (Some [1%nat])
  = Some (2%nat, leaf 3%nat 7 (6 # 10)).
Proof. reflexivity. Qed.


Example select_child_example :
  select_child round_single Float_max_single example_sqrt example_bias
    example_search_rave example_select_node
  = Some (1%nat, mkNode 2%nat 4 (6 # 10) 10 (5 # 10) []).
Proof. vm_compute. reflexivity. Qed.

(** Rounding makes ties.  With [beta = 1 / 2] and no bias, the scores of
    the two children of the example, [1 / 2] and [1 / 2 + 2 ^ -25] before
    the last rounding, are both [1 / 2] in single precision: the first
    child is returned, although the value of the second one is higher. *)
Example select_child_rounded_tie :
  let c0 := mkNode 1%nat 10 (1 # 2) 10 (1 # 2) [] in
  let c1 := mkNode 2%nat 10 ((1 # 2) + (1 # 2 ^ 24)) 10 (1 # 2) [] in
  let score :=
    child_score round_single example_sqrt example_bias
      example_search_check_same example_tie_node in
  get_children example_tie_node = [c0; c1] /\
  get_value c0 < get_value c1 /\
  score c0 == (1 # 2) /\ score c1 == (1 # 2) /\
  select_child round_single Float_max_single example_sqrt example_bias
    example_search_check_same example_tie_node
  = Some (0%nat, c0).
Proof. vm_compute. repeat split. Qed.

(** ** RAVE backup *)

(** C2.  In the example simulation of three players, the first play of
    move 5 by player 2, at ply 1, lies between the root (index 0) and the
    first play of move 5 by player 1, at ply 3; the description asks to
    skip the update of the child of move 5 for player 1 at the root.  The
    loop compares the first play of player 2 with the counter 2 of the
    loop over the players, which hides the node index, finds [1 >= 2]
    false and performs the update (the second of the two updates, with
    weight [2 - 3/4]). *)
Theorem update_rave_values_same_not_skipped :
  other_played_between 3%nat 1%nat example_first_play 5%nat 0%nat 3%Z = true /\
  other_played_same 3%nat 1%nat example_first_play 5%nat 3%Z = false /\
  option_map fst
    (update_rave_values example_search_check_same 3%nat (fun _ => false)
       example_rave_moves (fun p => inject_Z (Z.of_nat p) / 2)
       example_rave_nodes first_play_init)
  = Some [mkRaveUpdate 0%nat 0%nat 7%nat (1 / 2) (2 - 0 * (1 / 4));
          mkRaveUpdate 0%nat 1%nat 5%nat (1 / 2) (2 - 3 * (1 / 4))].
Proof. repeat split. Qed.

(** ** Pruning *)

Lemma percent_no_wrap (retained total : Z) :
  (0 <= retained <= total)%Z -> (0 < total)%Z ->
  (total * 100 <= Limits.size_t_max)%Z ->
  LimitsDouble.int_of_size_t (Limits.wrap_size_t (retained * 100) / total)
  = (retained * 100 / total)%Z.
Proof.
  intros Hr Ht Hmax.
  unfold Limits.wrap_size_t, Limits.size_t_max, LimitsDouble.int_of_size_t in *.
  rewrite (Z.mod_small (retained * 100)) by nia.
  assert (H100 : (0 <= retained * 100 / total <= 100)%Z).
  { split.
    - apply Z.div_pos; lia.
    - apply Z.div_le_upper_bound; nia. }
  rewrite Z.mod_small by lia.
  destruct (retained * 100 / total <? 2 ^ 31)%Z eqn:E; [reflexivity|].
  apply Z.ltb_ge in E. lia.
Qed.

Lemma percent_above_50 (retained total : Z) :
  (0 < total)%Z ->
  (50 < retained * 100 / total)%Z <-> (51 * total <= 100 * retained)%Z.
Proof.
  intros Ht. split; intro H.
  - assert (H51 : (51 <= retained * 100 / total)%Z) by lia.
    pose proof (Z.mul_div_le (retained * 100) total Ht). nia.
  - assert (H51 : (51 <= retained * 100 / total)%Z)
      by (apply Z.div_le_lower_bound; lia).
    lia.
Qed.

(** C7, as stated, fails for a tree of 200 nodes of which pruning with the
    threshold 16 retains 101: more than half of the nodes are retained, the
    pass succeeds and the threshold stays 16 instead of becoming 32. *)
Lemma prune_threshold_not_doubled :
  let st := example_state example_wide_tree None example_env_plain in
  let '(pruned, new_prune_min_count, st') :=
    prune example_host (Search_default 1) st 0 10 16 in
  pruned = true /\
  get_nu_nodes (m_tree st) = 200%Z /\
  get_nu_nodes (m_tree st') = 101%Z /\
  (1 # 2) < inject_Z (get_nu_nodes (m_tree st'))
            / inject_Z (get_nu_nodes (m_tree st)) /\
  new_prune_min_count = 16 /\
  ~ new_prune_min_count == 2 * 16.
Proof. vm_compute. repeat split; discriminate. Qed.

(** C7, amended.  After a successful prune pass, the trees are swapped;
    if the retained nodes are at least 51% of the nodes (the integer
    percentage exceeds 50), the threshold for the next pruning cycle is
    double the previous one, which is then below half of the largest
    [Float] (at or above it the pass fails instead); if they are less than
    51%, the threshold is unchanged. *)
Theorem prune_threshold_update {D : Type} (h : Host D) (s : Search)
    (st st' : SearchState D) (time max_time : Q)
    (prune_min_count new_prune_min_count : Float) :
  let total := get_nu_nodes (m_tree st) in
  let retained := get_nu_nodes (m_tree st') in
  prune h s st time max_time prune_min_count
  = (true, new_prune_min_count, st') ->
  (0 <= retained <= total)%Z -> (0 < total)%Z ->
  (total * 100 <= Limits.size_t_max)%Z ->
  m_tmp_tree st' = m_tree st /\
  ((51 * total <= 100 * retained)%Z ->
   new_prune_min_count = prune_min_count * 2 /\
   prune_min_count < (1 # 2) * Float_max h) /\
  ((100 * retained < 51 * total)%Z ->
   new_prune_min_count = prune_min_count).
Proof.
  cbv zeta. unfold prune.
  destruct (Tree_copy_subtree h _ _ _ _ _ _) as [[copied tmp_tree] env].
  destruct copied; simpl negb; cbv iota; [|discriminate].
  cbn [m_tree set_env log_event set_trees].
  destruct (50 <? _)%Z eqn:Hpercent.
  - destruct (Float_ge prune_min_count ((1 # 2) * Float_max h)) eqn:Hmax;
      [discriminate|].
    intros [= <- <-].
    cbn [m_tree m_tmp_tree set_env log_event set_trees].
    intros Hr Ht Hbound.
    rewrite percent_no_wrap in Hpercent by trivial.
    apply Z.ltb_lt in Hpercent. apply percent_above_50 in Hpercent; trivial.
    split; [reflexivity|]. split.
    + intros _. split; [reflexivity|].
      apply Qnot_le_lt. intro Hle. apply Float_ge_true in Hle. congruence.
    + intros Hlt. lia.
  - intros [= <- <-].
    cbn [m_tree m_tmp_tree set_env log_event set_trees].
    intros Hr Ht Hbound.
    rewrite percent_no_wrap in Hpercent by trivial.
    apply Z.ltb_ge in Hpercent.
    split; [reflexivity|]. split.
    + intros Hge. apply percent_above_50 in Hge; trivial. lia.
    + reflexivity.
Qed.

(** ** The search loop and the minimum number of simulations *)

#[local] Arguments count_simulations : simpl never.

Lemma count_simulations_app (a b : list Event) :
  count_simulations (a ++ b)
  = (count_simulations a + count_simulations b)%Z.
Proof.
  unfold count_simulations. rewrite filter_app, length_app. lia.
Qed.

Lemma count_simulations_nonneg (evs : list Event) :
  (0 <= count_simulations evs)%Z.
Proof. unfold count_simulations. lia. Qed.

Lemma count_simulations_cons (e : Event) (evs : list Event) :
  count_simulations (e :: evs)
  = ((if is_simulation e then 1 else 0) + count_simulations evs)%Z.
Proof.
  unfold count_simulations. simpl. destruct (is_simulation e); simpl length; lia.
Qed.




Lemma wrap_size_t_succ (n : Z) :
  Limits.wrap_size_t (Limits.wrap_size_t n + 1) = Limits.wrap_size_t (n + 1).
Proof.
  unfold Limits.wrap_size_t. now rewrite Z.add_mod_idemp_l by lia.
Qed.

Lemma new_events_app {D : Type} (st st' : SearchState D) (more : list Event) :
  m_events st' = m_events st ++ more -> new_events st st' = more.
Proof.
  intros H. unfold new_events. rewrite H.
  rewrite skipn_app, skipn_all, Nat.sub_diag. reflexivity.
Qed.


Section SearchFacts.

Context {D : Type}.
Variable h : Host D.
Variable s : Search.










End SearchFacts.

(** ** The start of a search *)

Section SearchTheorems.

Context {D : Type}.
Variable h : Host D.
Variable s : Search.

(** What [search_reuse_subtree] does, by the answers of [find_node] and
    [Tree_extract_subtree]. *)
Lemma search_reuse_subtree_cases (st : SearchState D) (max_time : Q)
    (is_followup always_search : bool) :
  let result :=
    search_reuse_subtree h s st max_time is_followup false always_search in
  let cleared := Tree_clear h (get_tie_value h) (m_tree st) in
  match find_node h (m_tree st) (m_followup_sequence st) with
  | None =>
      exists st',
        result = PreparedSearch st' max_time is_followup /\
        m_events st' = m_events st ++ [EvClearTree] /\
        m_tree st' = cleared
  | Some node =>
      let '(extracted, tmp_tree, env) :=
        Tree_extract_subtree h (m_tree st)
          (Tree_clear h (get_tie_value h) (m_tmp_tree st)) node max_time
          (m_deterministic s) (m_env st) in
      let partial := Tree_clear_root_value h (get_tie_value h) tmp_tree in
      if negb extracted && negb always_search then
        exists st',
          result = PreparedReturn st' /\
          m_events st' = m_events st ++ [EvExtractSubtree]
      else if ((1 <? get_nu_nodes (m_tree st))%Z
               && (1 <? get_nu_nodes partial)%Z)%bool then
        exists st' max_time',
          result = PreparedSearch st' max_time' is_followup /\
          m_events st' = m_events st ++ [EvExtractSubtree; EvSwapTrees] /\
          m_tree st' = partial
      else
        exists st',
          result = PreparedSearch st' max_time is_followup /\
          m_events st' = m_events st ++ [EvExtractSubtree; EvClearTree] /\
          m_tree st' = cleared
  end.
Proof.
  cbv zeta. unfold search_reuse_subtree.
  cbn [m_tree m_tmp_tree m_followup_sequence m_env set_trees log_event].
  destruct (find_node h (m_tree st) (m_followup_sequence st)) as [node|].
  - destruct (Tree_extract_subtree h _ _ _ _ _ _)
      as [[extracted tmp_tree] env].
    cbn [negb m_tree m_tmp_tree set_trees set_env set_reuse_count].
    destruct (negb extracted && negb always_search).
    + eexists. split; [reflexivity|]. reflexivity.
    + destruct ((1 <? get_nu_nodes (m_tree st))%Z
                && (1 <? get_nu_nodes
                           (Tree_clear_root_value h (get_tie_value h)
                              tmp_tree))%Z)%bool.
      * eexists. eexists. split; [reflexivity|].
        cbn. rewrite <- app_assoc. split; reflexivity.
      * eexists. split; [reflexivity|].
        cbn. rewrite <- app_assoc. split; reflexivity.
  - eexists. split; [reflexivity|]. cbn. split; reflexivity.
Qed.

Lemma search_init_values_fields (st : SearchState D)
    (is_followup is_same : bool) (sequence : list Move) (env : D) :
  let st0 := search_init_values h st is_followup is_same sequence env in
  m_tree st0 = m_tree st /\ m_tmp_tree st0 = m_tmp_tree st /\
  m_followup_sequence st0 = sequence /\ m_env st0 = env /\
  m_events st0 = m_events st /\
  m_last_reuse_param st0 = m_last_reuse_param st.
Proof. cbv zeta. unfold search_init_values. cbn. auto 10. Qed.

(** C3, amended.  When the search goes on after its first part, the
    extracted subtree is swapped in exactly when reuse is permitted by the
    parameters ([reuse_subtree] is set, the position is a follow-up by a
    sequence that is not empty and the reuse parameters are those of the
    last search), the node of the sequence is found, and the old tree and
    the extracted one have more than one node, whatever the length of the
    sequence; otherwise the tree is cleared. *)
Theorem search_prepare_reuses_subtree (st st' : SearchState D)
    (max_count : Float) (max_time max_time' : Q)
    (always_search is_followup is_followup' : bool)
    (sequence : list Move) (env : D) :
  check_followup h (m_env st) = (is_followup, sequence, env) ->
  search_prepare h s st max_count max_time always_search
  = PreparedSearch st' max_time' is_followup' ->
  (In EvSwapTrees (new_events st st') <->
   subtree_reused h s st
     (if Float_gt max_count 0 then LimitsDouble.double_max else max_time)
     is_followup sequence env) /\
  (In EvClearTree (new_events st st') <->
   ~ In EvSwapTrees (new_events st st')).
Proof.
  intros Hfollow. unfold search_prepare. rewrite Hfollow.
  set (mt := if Float_gt max_count 0 then LimitsDouble.double_max
             else max_time).
  set (f := match sequence with [] => false | _ :: _ => is_followup end).
  set (same := match sequence with [] => is_followup | _ :: _ => false end).
  destruct (search_init_values_fields st f same sequence env)
    as (Htree & Htmp & Hseq & Henv & Hev & Hlast).
  set (st0 := search_init_values h st f same sequence env) in *.
  assert (Hclear : forall st1 mt1 f1,
    PreparedSearch (clear_tree_if h true st0) mt f = PreparedSearch st1 mt1 f1 ->
    new_events st st1 = [EvClearTree]).
  { intros st1 mt1 f1 [= <- _ _]. apply new_events_app.
    cbn [clear_tree_if log_event set_trees m_events]. now rewrite Hev. }
  assert (Hcleared : forall evs, evs = [EvClearTree] ->
    ~ subtree_reused h s st mt is_followup sequence env ->
    (In EvSwapTrees evs <-> subtree_reused h s st mt is_followup sequence env) /\
    (In EvClearTree evs <-> ~ In EvSwapTrees evs)).
  { intros evs -> Hno. simpl. split; split; try tauto.
    - intros [[=] | []].
    - intros _ [[=] | []]. }
  destruct (((m_reuse_subtree s && f) || (m_reuse_tree s && same))
            && ReuseParam_eqb (get_reuse_param s) (m_last_reuse_param st0))
    eqn:Hperm.
  - destruct sequence as [|mv sequence].
    + intros Hres. apply Hclear in Hres. apply Hcleared; trivial.
      intros (_ & _ & Hne & _). now apply Hne.
    + subst f same. rewrite andb_false_r, orb_false_r in Hperm.
      apply andb_true_iff in Hperm. destruct Hperm as [Hperm Hparam].
      apply andb_true_iff in Hperm. destruct Hperm as [Hreuse Hf].
      rewrite Hlast in Hparam.
      pose proof (search_reuse_subtree_cases st0 mt is_followup always_search)
        as Hcases.
      cbv zeta in Hcases. rewrite Htree, Htmp, Hseq, Henv, Hev in Hcases.
      destruct (find_node h (m_tree st) (mv :: sequence)) as [node|] eqn:Hfind.
      * destruct (Tree_extract_subtree h (m_tree st)
                    (Tree_clear h (get_tie_value h) (m_tmp_tree st)) node mt
                    (m_deterministic s) env)
          as [[extracted tmp_tree] env'] eqn:Hextract.
        destruct (negb extracted && negb always_search).
        -- destruct Hcases as (st1 & -> & _). discriminate.
        -- destruct ((1 <? get_nu_nodes (m_tree st))%Z
                     && (1 <? get_nu_nodes
                                (Tree_clear_root_value h (get_tie_value h)
                                   tmp_tree))%Z)%bool eqn:Hnodes.
           ++ destruct Hcases as (st1 & mt1 & -> & Hev1 & _).
              intros [= <- _ _].
              rewrite (new_events_app st st1 _ Hev1).
              apply andb_true_iff in Hnodes. destruct Hnodes as [Hn1 Hn2].
              apply Z.ltb_lt in Hn1. apply Z.ltb_lt in Hn2.
              simpl. split; split.
              ** intros _. repeat split; trivial; try discriminate.
                 exists node. rewrite Hextract. auto.
              ** auto.
              ** intros [[=] | [[=] | []]].
              ** intros Hno. exfalso. apply Hno. auto.
           ++ destruct Hcases as (st1 & -> & Hev1 & _).
              intros [= <- _ _].
              rewrite (new_events_app st st1 _ Hev1).
              simpl. split; split.
              ** intros [[=] | [[=] | []]].
              ** intros (_ & _ & _ & _ & node' & Hfind' & Hn1 & Hn2).
                 exfalso. rewrite Hfind in Hfind'. injection Hfind' as <-.
                 rewrite Hextract in Hn2. simpl in Hn2.
                 apply andb_false_iff in Hnodes.
                 destruct Hnodes as [Hn | Hn]; apply Z.ltb_ge in Hn; lia.
              ** intros _ [[=] | [[=] | []]].
              ** auto.
      * destruct Hcases as (st1 & -> & Hev1 & _).
        intros [= <- _ _].
        rewrite (new_events_app st st1 _ Hev1).
        apply Hcleared; trivial.
        intros (_ & _ & _ & _ & node' & Hfind' & _). congruence.
  - intros Hres. apply Hclear in Hres. apply Hcleared; trivial.
    intros (Hreuse & Hf & Hne & Hparam & _).
    rewrite Hlast, Hparam, andb_true_r in Hperm.
    destruct sequence as [|mv sequence]; [now apply Hne|].
    subst f. rewrite Hreuse, Hf in Hperm. discriminate.
Qed.

(** ** Calls to [search] *)



Lemma search_start_fields (st : SearchState D)
    (max_count min_simulations : Float) (max_time : Q) (is_followup : bool) :
  let st1 :=
    search_start h s st max_count min_simulations max_time is_followup in
  m_events st1 = m_events st /\ m_tree st1 = m_tree st /\
  m_nu_simulations st1 = 0%Z /\ m_min_simulations st1 = min_simulations.
Proof. cbv zeta. unfold search_start. cbn. auto. Qed.






End SearchTheorems.

(** ** The examples of the search *)

Lemma prune_threshold_update_witness :
  let total := get_nu_nodes (m_tree example_prune_state) in
  let retained := get_nu_nodes (m_tree example_pruned) in
  (prune example_host (Search_default 1) example_prune_state 0 10 2
   = (true, 2 * 2, example_pruned) /\
   (0 <= retained <= total)%Z /\ (0 < total)%Z /\
   (total * 100 <= Limits.size_t_max)%Z) /\
  m_tmp_tree example_pruned = m_tree example_prune_state /\
  ((51 * total <= 100 * retained)%Z ->
   2 * 2 = 2 * 2 /\ 2 < (1 # 2) * Float_max example_host) /\
  ((100 * retained < 51 * total)%Z -> 2 * 2 = 2).
Proof.
  cbv zeta.
  assert (H1 : prune example_host (Search_default 1) example_prune_state
                 0 10 2
               = (true, 2 * 2, example_pruned)) by reflexivity.
  assert (H2 : (0 <= get_nu_nodes (m_tree example_pruned)
                <= get_nu_nodes (m_tree example_prune_state))%Z)
    by (vm_compute; split; discriminate).
  assert (H3 : (0 < get_nu_nodes (m_tree example_prune_state))%Z)
    by reflexivity.
  assert (H4 : (get_nu_nodes (m_tree example_prune_state) * 100
                <= Limits.size_t_max)%Z)
    by (vm_compute; discriminate).
  split; [auto|].
  exact (prune_threshold_update example_host (Search_default 1)
           example_prune_state example_pruned 0 10 2 (2 * 2) H1 H2 H3 H4).
Defined.

Example prune_example_nodes :
  get_nu_nodes (m_tree example_prune_state) = 9%Z /\
  get_nu_nodes (m_tree example_pruned) = 8%Z.
Proof. split; reflexivity. Qed.

(** C3, as stated, fails for a follow-up position three moves after the
    root in a game of two players: the subtree of the node reached by the
    three moves is extracted and swapped in, and the tree is not cleared. *)
Lemma search_reuses_after_long_sequence :
  let st := example_reuse_state example_env_followup3 in
  check_followup example_host (m_env st)
  = (true, [1%nat; 2%nat; 3%nat], example_env_followup3) /\
  (get_nu_players example_host < length [1%nat; 2%nat; 3%nat])%nat /\
  match search_prepare example_host (Search_default 1) st 5 10 true with
  | PreparedReturn _ => False
  | PreparedSearch st' _ _ =>
      new_events st st' = [EvExtractSubtree; EvSwapTrees] /\
      get_root (m_tree st')
      = mkNode 3%nat 0 (1 # 2) 0 0
          [leaf 4%nat 3 (1 # 2); leaf 5%nat 2 (1 # 2)]
  end.
Proof. vm_compute. repeat split. apply Nat.le_refl. Qed.

Lemma search_prepare_reuses_subtree_witness :
  let st := example_reuse_state example_env_followup3 in
  exists st' max_time' is_followup',
    (check_followup example_host (m_env st)
     = (true, [1%nat; 2%nat; 3%nat], example_env_followup3) /\
     search_prepare example_host (Search_default 1) st 5 10 true
     = PreparedSearch st' max_time' is_followup') /\
    (In EvSwapTrees (new_events st st') <->
     subtree_reused example_host (Search_default 1) st
       (if Float_gt 5 0 then LimitsDouble.double_max else 10)
       true [1%nat; 2%nat; 3%nat] example_env_followup3) /\
    (In EvClearTree (new_events st st') <->
     ~ In EvSwapTrees (new_events st st')).
Proof.
  cbv zeta. eexists. eexists. eexists.
  assert (H1 : check_followup example_host
                 (m_env (example_reuse_state example_env_followup3))
               = (true, [1%nat; 2%nat; 3%nat], example_env_followup3))
    by reflexivity.
  split; [split; [exact H1 | vm_compute; reflexivity]|].
  refine (search_prepare_reuses_subtree example_host (Search_default 1)
            _ _ 5 10 _ true true _ _ _ H1 _).
  vm_compute. reflexivity.
Defined.


Example search_after_aborted_extraction_returns :
  let st := example_reuse_state example_env_aborted in
  let r := search example_host (Search_default 1) 40 st 30 10 10 false in
  search_returned r = Some false /\ search_mv r = None /\
  new_events st (search_state r) = [EvExtractSubtree].
Proof. vm_compute. repeat split. Qed.



(** A search of the example for at most 30 simulations and at least 10,
    on the partially extracted subtree of the root's first child, which
    was visited 12 times before: the abort conditions are first evaluated
    before the twelfth simulation. *)
Example search_example_events :
  let st := example_reuse_state example_env_aborted in
  let r := search example_host (Search_default 1) 40 st 30 10 10 true in
  search_returned r = Some true /\ search_mv r = Some 2%nat /\
  m_reuse_count (search_state r) == 12 /\
  count_simulations (new_events st (search_state r)) = 18%Z /\
  firstn 15 (new_events st (search_state r))
  = [EvExtractSubtree; EvSwapTrees;
     EvSearchLoop 1
       (mkTree (mkNode 1%nat 0 (1 # 2) 0 0 [leaf 2%nat 8 (4 # 10)]) 2);
     EvSimulation 0; EvSimulation 1; EvSimulation 2; EvSimulation 3;
     EvSimulation 4; EvSimulation 5; EvSimulation 6; EvSimulation 7;
     EvSimulation 8; EvSimulation 9; EvSimulation 10; EvCheckAbort 11].
Proof. vm_compute. repeat split. Qed.

(** * Further properties of the embedded code *)

(** ** The count interval of the interval checker *)

Lemma adjust_factor_range (time_interval diff : Q) :
  let adjust_factor :=
    if Float_eq diff 0 then 10
    else
      let adjust_factor := time_interval / diff in
      if Float_gt adjust_factor 10 then 10
      else if Float_lt adjust_factor (1 # 10) then 1 # 10
      else adjust_factor in
  (1 # 10) <= adjust_factor /\ adjust_factor <= 10.
Proof.
  cbv zeta.
  destruct (Float_eq diff 0); [split; lra|].
  destruct (Float_gt (time_interval / diff) 10) eqn:Hgt; [split; lra|].
  apply Float_gt_false in Hgt.
  unfold Float_lt.
  destruct (Float_gt (1 # 10) (time_interval / diff)) eqn:Hlt; [split; lra|].
  apply Float_gt_false in Hlt. split; trivial.
Qed.

Lemma Qfloor_tenth (n : Z) : Qfloor ((1 # 10) * inject_Z n) = (n / 10)%Z.
Proof.
  unfold Qfloor, Qmult, inject_Z. cbn [Qnum Qden Pos.mul].
  now rewrite Z.mul_1_l.
Qed.

Lemma adjust_count_interval_range
    (time_interval diff : Q) (count_interval : Z) :
  (1 <= adjust_count_interval time_interval diff count_interval
   <= Limits.unsigned_max)%Z.
Proof.
  unfold adjust_count_interval.
  set (new := _ * inject_Z count_interval).
  destruct (Float_gt new (inject_Z Limits.unsigned_max)) eqn:Hgt.
  - unfold Limits.unsigned_max. lia.
  - apply Float_gt_false in Hgt.
    unfold Float_lt.
    destruct (Float_gt 1 new) eqn:Hlt.
    + unfold Limits.unsigned_max. lia.
    + apply Float_gt_false in Hlt. split.
      * change 1%Z with (Qfloor 1). now apply Qfloor_resp_le.
      * rewrite <- (Qfloor_Z Limits.unsigned_max). now apply Qfloor_resp_le.
Qed.

Lemma adjust_count_interval_factor
    (time_interval diff : Q) (count_interval : Z) :
  (1 <= count_interval <= Limits.unsigned_max)%Z ->
  (count_interval / 10
   <= adjust_count_interval time_interval diff count_interval
   <= 10 * count_interval)%Z.
Proof.
  intros [Hlo Hhi].
  pose proof (adjust_factor_range time_interval diff) as Hf.
  unfold adjust_count_interval.
  cbv zeta in Hf.
  set (f := if Float_eq diff 0 then _ else _) in *.
  destruct Hf as [Hf1 Hf2].
  assert (Hci : 1 <= inject_Z count_interval)
    by (change 1 with (inject_Z 1); rewrite <- Zle_Qle; lia).
  assert (Hnew1 : (1 # 10) * inject_Z count_interval
                  <= f * inject_Z count_interval)
    by (apply Qmult_le_compat_r; lra).
  assert (Hnew2 : f * inject_Z count_interval
                  <= inject_Z (10 * count_interval)).
  { rewrite inject_Z_mult. change (inject_Z 10) with 10.
    apply Qmult_le_compat_r; lra. }
  assert (Hdiv : (count_interval / 10 <= count_interval)%Z)
    by (apply Z.div_le_upper_bound; lia).
  destruct (Float_gt (f * inject_Z count_interval)
              (inject_Z Limits.unsigned_max)) eqn:Hgt.
  - apply Float_gt_true in Hgt. split; [lia|].
    rewrite Zle_Qle. lra.
  - apply Float_gt_false in Hgt. unfold Float_lt.
    destruct (Float_gt 1 (f * inject_Z count_interval)) eqn:Hlt.
    + apply Float_gt_true in Hlt. split; [|lia].
      assert (H10 : inject_Z count_interval < inject_Z 10)
        by (change (inject_Z 10) with 10; lra).
      rewrite <- Zlt_Qlt in H10.
      rewrite Z.div_small by lia. lia.
    + split.
      * rewrite <- Qfloor_tenth. now apply Qfloor_resp_le.
      * rewrite <- (Qfloor_Z (10 * count_interval)). now apply Qfloor_resp_le.
Qed.

Lemma check_expensive_counts_in_range env hist c :
  counts_in_range c ->
  counts_in_range (snd (fst (check_expensive env hist c))).
Proof.
  intros [Hc Hi]. unfold check_expensive.
  destruct (m_result c); [now split|].
  destruct (m_is_deterministic c); [now split|].
  destruct (negb (m_is_first_check c)); simpl.
  - split; apply adjust_count_interval_range.
  - now split.
Qed.

(** X1.  The countdown and the count interval of a checker stay positive
    [unsigned] values: when both lie between 1 and the largest [unsigned]
    value, they do so after any sequence of calls to [check_expensive] and
    to [set_deterministic] with intervals in that range, whatever the time
    source and the function answer. *)
Theorem run_checker_counts_in_range env ops :
  forall hist c,
    Forall valid_op ops ->
    counts_in_range c ->
    counts_in_range (snd (fst (run_checker env ops hist c))).
Proof.
  induction ops as [|[|interval] ops IH]; intros hist c Hops Hc.
  - exact Hc.
  - simpl.
    pose proof (check_expensive_counts_in_range env hist c Hc) as Hc'.
    destruct (check_expensive env hist c) as [[r c'] calls].
    simpl in Hc'.
    specialize (IH (hist ++ calls) c' (Forall_inv_tail Hops) Hc').
    destruct (run_checker env ops (hist ++ calls) c') as [[rs c''] hist'].
    exact IH.
  - simpl. apply IH; [exact (Forall_inv_tail Hops)|].
    apply Forall_inv in Hops. simpl in Hops.
    split; exact Hops.
Qed.

Lemma run_checker_counts_in_range_witness :
  Forall valid_op
    [OpCheckExpensive; OpCheckExpensive; OpSetDeterministic 20;
     OpCheckExpensive] /\
  counts_in_range (IntervalChecker_new (1 # 10)) /\
  counts_in_range
    (snd (fst (run_checker example_checker_env
                 [OpCheckExpensive; OpCheckExpensive; OpSetDeterministic 20;
                  OpCheckExpensive]
                 [] (IntervalChecker_new (1 # 10))))).
Proof.
  assert (Hops : Forall valid_op
            [OpCheckExpensive; OpCheckExpensive; OpSetDeterministic 20;
             OpCheckExpensive]).
  { repeat constructor; unfold Limits.unsigned_max; simpl; lia. }
  assert (Hc : counts_in_range (IntervalChecker_new (1 # 10))).
  { split; simpl; unfold Limits.unsigned_max; lia. }
  split; [exact Hops | split; [exact Hc|]].
  exact (run_checker_counts_in_range example_checker_env _ [] _ Hops Hc).
Defined.

(** X2.  A call to [check_expensive] changes the count interval by at most
    a factor of ten in either direction: the new interval is at least a
    tenth (rounded down) and at most ten times the old one. *)
Theorem check_expensive_interval_factor env hist c :
  (1 <= m_count_interval c <= Limits.unsigned_max)%Z ->
  (m_count_interval c / 10
   <= m_count_interval (snd (fst (check_expensive env hist c)))
   <= 10 * m_count_interval c)%Z.
Proof.
  intros Hi.
  assert (Hsame : (m_count_interval c / 10 <= m_count_interval c
                   <= 10 * m_count_interval c)%Z).
  { split; [apply Z.div_le_upper_bound; lia | lia]. }
  unfold check_expensive.
  destruct (m_result c); [exact Hsame|].
  destruct (m_is_deterministic c); [exact Hsame|].
  destruct (negb (m_is_first_check c)); simpl; [|exact Hsame].
  now apply adjust_count_interval_factor.
Qed.

Lemma check_expensive_interval_factor_witness :
  (1 <= m_count_interval example_checker <= Limits.unsigned_max)%Z /\
  (m_count_interval example_checker / 10
   <= m_count_interval
        (snd (fst (check_expensive example_checker_env example_history
                     example_checker)))
   <= 10 * m_count_interval example_checker)%Z.
Proof.
  assert (H : (1 <= m_count_interval example_checker
               <= Limits.unsigned_max)%Z)
    by (simpl; unfold Limits.unsigned_max; lia).
  split; [exact H|].
  exact (check_expensive_interval_factor example_checker_env example_history
           example_checker H).
Defined.

(** ** The deterministic mode of the interval checker *)

Lemma run_checker_deterministic env ops :
  forall hist c,
    m_is_deterministic c = true ->
    let '(rs, c', hist') := run_checker env ops hist c in
    exists calls,
      hist' = hist ++ calls /\
      forallb (fun call => negb (is_time_call call)) calls = true /\
      (length calls <= count_checks ops)%nat /\
      m_is_deterministic c' = true /\
      libboardgame_util.m_last_time c' = libboardgame_util.m_last_time c.
Proof.
  induction ops as [|[|interval] ops IH]; intros hist c Hdet.
  - simpl. exists []. rewrite app_nil_r. repeat split; trivial.
  - simpl. unfold check_expensive at 1. rewrite Hdet.
    destruct (m_result c) eqn:Hres.
    + specialize (IH (hist ++ []) c Hdet).
      destruct (run_checker env ops (hist ++ []) c) as [[rs c''] hist'].
      destruct IH as (calls & -> & Hno & Hlen & Hd & Ht).
      exists calls. rewrite app_nil_r.
      repeat split; trivial. unfold count_checks in *. simpl. lia.
    + set (c1 := mkIntervalChecker _ _ _ _ _ _ _).
      specialize (IH (hist ++ [CallFunction (env_function env hist)]) c1
                    eq_refl).
      destruct (run_checker env ops
                  (hist ++ [CallFunction (env_function env hist)]) c1)
        as [[rs c''] hist'].
      destruct IH as (calls & -> & Hno & Hlen & Hd & Ht).
      exists (CallFunction (env_function env hist) :: calls).
      rewrite <- app_assoc. simpl.
      repeat split; trivial. unfold count_checks in *. simpl. lia.
  - simpl.
    specialize (IH hist (set_deterministic interval c) eq_refl).
    destruct (run_checker env ops hist (set_deterministic interval c))
      as [[rs c''] hist'].
    destruct IH as (calls & -> & Hno & Hlen & Hd & Ht).
    exists calls. repeat split; trivial.
Qed.

(** X3.  After [set_deterministic] a checker never reads the time source
    again: whatever operations follow, the calls they add to the history
    are calls of the function only, at most one for each call to
    [check_expensive], and the time of the last check stays as it was. *)
Theorem set_deterministic_no_time_source env interval ops hist c :
  let '(rs, c', hist') :=
    run_checker env (OpSetDeterministic interval :: ops) hist c in
  exists calls,
    hist' = hist ++ calls /\
    forallb (fun call => negb (is_time_call call)) calls = true /\
    (length calls <= count_checks ops)%nat /\
    libboardgame_util.m_last_time c' = libboardgame_util.m_last_time c.
Proof.
  simpl.
  pose proof (run_checker_deterministic env ops hist
                (set_deterministic interval c) eq_refl) as H.
  destruct (run_checker env ops hist (set_deterministic interval c))
    as [[rs c''] hist'].
  destruct H as (calls & -> & Hno & Hlen & _ & Ht).
  exists calls. repeat split; trivial.
Qed.

(** ** The results of the interval checker *)

Lemma check_expensive_true_needs_function env hist c :
  m_result c = false ->
  let '(r, c', calls) := check_expensive env hist c in
  m_result c' = r /\
  (r = true -> In (CallFunction true) calls).
Proof.
  intros Hres. unfold check_expensive. rewrite Hres.
  destruct (m_is_deterministic c).
  - split; [reflexivity|]. intros ->. now left.
  - destruct (negb (m_is_first_check c)).
    + split; [reflexivity|]. intros ->. right. now left.
    + split; [reflexivity | discriminate].
Qed.

Lemma run_checker_true_needs_function env ops :
  forall hist c,
    m_result c = false ->
    let '(rs, c', hist') := run_checker env ops hist c in
    exists calls,
      hist' = hist ++ calls /\
      (In true rs -> In (CallFunction true) calls) /\
      (m_result c' = true -> In (CallFunction true) calls).
Proof.
  induction ops as [|[|interval] ops IH]; intros hist c Hres.
  - simpl. exists []. rewrite app_nil_r.
    split; [reflexivity|]. split; [intros [] | congruence].
  - simpl.
    pose proof (check_expensive_true_needs_function env hist c Hres) as Hone.
    destruct (check_expensive env hist c) as [[r c1] calls1].
    destruct Hone as [Hres1 Hfun].
    destruct r.
    + destruct (run_checker_latched env ops (hist ++ calls1) c1 Hres1)
        as (c'' & -> & _).
      exists calls1. split; [reflexivity|]. split; auto.
    + specialize (IH (hist ++ calls1) c1 Hres1).
      destruct (run_checker env ops (hist ++ calls1) c1) as [[rs c''] hist'].
      destruct IH as (calls & -> & Hrs & Hc).
      exists (calls1 ++ calls). rewrite app_assoc.
      split; [reflexivity|]. split.
      * intros [H | H]; [discriminate|]. apply in_or_app. right. auto.
      * intros H. apply in_or_app. right. auto.
  - simpl.
    specialize (IH hist (set_deterministic interval c) Hres).
    destruct (run_checker env ops hist (set_deterministic interval c))
      as [[rs c''] hist'].
    exact IH.
Qed.

(** X4.  A checker never reports [true] of its own: when a call to
    [check_expensive] of a checker made by the constructor returns [true],
    in deterministic mode or not, the function has answered [true] in one
    of the calls made since the construction. *)
Theorem check_expensive_true_only_from_function env time_interval ops hist :
  let '(rs, c', hist') :=
    run_checker env ops hist (IntervalChecker_new time_interval) in
  exists calls,
    hist' = hist ++ calls /\
    (In true rs -> In (CallFunction true) calls).
Proof.
  pose proof (run_checker_true_needs_function env ops hist
                (IntervalChecker_new time_interval) eq_refl) as H.
  destruct (run_checker env ops hist (IntervalChecker_new time_interval))
    as [[rs c'] hist'].
  destruct H as (calls & Hh & Hrs & _).
  exists calls. split; trivial.
Qed.

(** ** The memory of the trees *)

(** X5.  The node capacity that [get_max_nodes] computes for a memory
    budget is a valid [NodeIndex] count, and two trees of that capacity
    fit into the budget. *)
Theorem get_max_nodes_fits_memory (sizeof_Node NodeIndex_max memory : Z) :
  (0 < sizeof_Node)%Z ->
  (0 <= memory)%Z ->
  (0 <= NodeIndex_max)%Z ->
  let max_nodes := get_max_nodes sizeof_Node NodeIndex_max memory in
  (0 <= max_nodes <= NodeIndex_max)%Z /\
  (2 * (max_nodes * sizeof_Node) <= memory)%Z.
Proof.
  intros Hs Hm Hn. cbv zeta. unfold get_max_nodes.
  rewrite Z.div_div by lia.
  assert (Hq : (0 <= memory / (sizeof_Node * 2))%Z)
    by (apply Z.div_pos; lia).
  assert (Hmul : ((sizeof_Node * 2) * (memory / (sizeof_Node * 2))
                  <= memory)%Z)
    by (apply Z.mul_div_le; lia).
  split; [lia|].
  assert (Hle : (Z.min (memory / (sizeof_Node * 2)) NodeIndex_max
                 <= memory / (sizeof_Node * 2))%Z) by lia.
  nia.
Qed.

Lemma get_max_nodes_fits_memory_witness :
  (0 < 32)%Z /\ (0 <= 256000000)%Z /\ (0 <= Limits.unsigned_max)%Z /\
  let max_nodes := get_max_nodes 32 Limits.unsigned_max 256000000 in
  (0 <= max_nodes <= Limits.unsigned_max)%Z /\
  (2 * (max_nodes * 32) <= 256000000)%Z.
Proof.
  assert (H1 : (0 < 32)%Z) by lia.
  assert (H2 : (0 <= 256000000)%Z) by lia.
  assert (H3 : (0 <= Limits.unsigned_max)%Z)
    by (unfold Limits.unsigned_max; lia).
  split; [exact H1 | split; [exact H2 | split; [exact H3|]]].
  exact (get_max_nodes_fits_memory 32 Limits.unsigned_max 256000000 H1 H2 H3).
Defined.

Lemma get_max_nodes_zero (sizeof_Node NodeIndex_max memory : Z) :
  (0 < sizeof_Node)%Z ->
  (0 <= memory)%Z ->
  (0 < NodeIndex_max)%Z ->
  (get_max_nodes sizeof_Node NodeIndex_max memory = 0%Z
   <-> (memory < 2 * sizeof_Node)%Z).
Proof.
  intros Hs Hm Hn. unfold get_max_nodes.
  rewrite Z.div_div by lia.
  split.
  - intros H.
    destruct (Z.lt_ge_cases memory (2 * sizeof_Node)) as [Hlt | Hge]; trivial.
    assert (1 <= memory / (sizeof_Node * 2))%Z
      by (apply Z.div_le_lower_bound; lia).
    lia.
  - intros H. rewrite Z.div_small by lia. lia.
Qed.

(** X6.  A memory of 0 means the default of 256000000 bytes to the
    constructor but not to [set_tree_memory]: for nodes of at most
    128000000 bytes the constructor gives the trees a capacity of no node
    exactly for a memory that is positive and below the size of two nodes,
    whereas [set_tree_memory] does so for every memory below the size of
    two nodes, 0 included. *)
Theorem Search_max_nodes_zero (sizeof_Node NodeIndex_max memory : Z) :
  (0 < sizeof_Node <= 128000000)%Z ->
  (0 <= memory)%Z ->
  (0 < NodeIndex_max)%Z ->
  (Search_max_nodes sizeof_Node NodeIndex_max memory = 0%Z
   <-> (0 < memory < 2 * sizeof_Node)%Z) /\
  (snd (set_tree_memory sizeof_Node NodeIndex_max memory) = 0%Z
   <-> (memory < 2 * sizeof_Node)%Z).
Proof.
  intros Hs Hm Hn. split.
  - unfold Search_max_nodes, Search_tree_memory.
    destruct (memory =? 0)%Z eqn:H0.
    + apply Z.eqb_eq in H0. subst memory.
      rewrite get_max_nodes_zero by lia. lia.
    + apply Z.eqb_neq in H0.
      rewrite get_max_nodes_zero by lia. lia.
  - unfold set_tree_memory. cbn [snd].
    now apply get_max_nodes_zero; lia.
Qed.

Lemma Search_max_nodes_zero_witness :
  (0 < 32 <= 128000000)%Z /\ (0 <= 0)%Z /\ (0 < Limits.unsigned_max)%Z /\
  (Search_max_nodes 32 Limits.unsigned_max 0 = 0%Z
   <-> (0 < 0 < 2 * 32)%Z) /\
  (snd (set_tree_memory 32 Limits.unsigned_max 0) = 0%Z
   <-> (0 < 2 * 32)%Z).
Proof.
  assert (H1 : (0 < 32 <= 128000000)%Z) by lia.
  assert (H2 : (0 <= 0)%Z) by lia.
  assert (H3 : (0 < Limits.unsigned_max)%Z)
    by (unfold Limits.unsigned_max; lia).
  split; [exact H1 | split; [exact H2 | split; [exact H3|]]].
  exact (Search_max_nodes_zero 32 Limits.unsigned_max 0 H1 H2 H3).
Defined.

(** ** The test that the move cannot change, continued *)

Lemma check_move_cannot_change_loop_app (a b : list Node) :
  forall mx sn,
    check_move_cannot_change_loop (a ++ b) mx sn
    = check_move_cannot_change_loop b
        (fst (check_move_cannot_change_loop a mx sn))
        (snd (check_move_cannot_change_loop a mx sn)).
Proof.
  induction a as [|c a IH]; intros mx sn; simpl; [reflexivity|].
  destruct (Float_gt (get_count c) mx); apply IH.
Qed.

(** Both counts of the loop stay below a bound that the children
    respect. *)
Lemma check_move_cannot_change_loop_below (bound : Float) (cs : list Node) :
  forall mx sn,
    mx < bound -> sn < bound ->
    (forall c, In c cs -> get_count c < bound) ->
    fst (check_move_cannot_change_loop cs mx sn) < bound /\
    snd (check_move_cannot_change_loop cs mx sn) < bound.
Proof.
  induction cs as [|c cs IH]; intros mx sn Hmx Hsn Hall; simpl; [now split|].
  assert (Hc : get_count c < bound) by (apply Hall; now left).
  assert (Hall' : forall c', In c' cs -> get_count c' < bound)
    by (intros; apply Hall; now right).
  destruct (Float_gt (get_count c) mx); apply IH; trivial.
Qed.

(** Children that do not exceed the highest count leave the state of the
    loop as it is. *)
Lemma check_move_cannot_change_loop_keep (cs : list Node) :
  forall mx sn,
    (forall c, In c cs -> get_count c <= mx) ->
    check_move_cannot_change_loop cs mx sn = (mx, sn).
Proof.
  induction cs as [|c cs IH]; intros mx sn Hall; simpl; [reflexivity|].
  assert (Hc : get_count c <= mx) by (apply Hall; now left).
  apply Float_gt_false in Hc. rewrite Hc.
  apply IH. intros; apply Hall; now right.
Qed.

(** X7.  [check_move_cannot_change] recognizes a decided search where
    the floating type adds without rounding: when not more simulations
    remain than were made, the count of one child of the root exceeds the
    remaining simulations and, by more than the remaining simulations,
    the count of every other child, and the sum of the count of every
    other child and the remaining simulations is a value of the floating
    type of [digits] bits (as the sum of two whole numbers below
    [2 ^ (digits - 1)] is), the function returns [true].  The sum that the
    code compares with the highest count is the second highest count, the
    count of another child or 0, plus the remaining simulations; being
    representable, it is the exact sum. *)
Theorem check_move_cannot_change_complete (digits : Z)
    (root : Node) (count remaining : Float) (k : nat) (r : Node) :
  0 <= remaining -> remaining <= count ->
  nth_error (get_children root) k = Some r ->
  remaining < get_count r ->
  Float_representable digits remaining ->
  (forall j c,
      nth_error (get_children root) j = Some c -> j <> k ->
      Float_representable digits (get_count c + remaining) /\
      get_count c + remaining < get_count r) ->
  check_move_cannot_change root count remaining = true.
Proof.
  intros Hrem Hcount Hk Hr _ Hlead'.
  assert (Hlead : forall j c,
             nth_error (get_children root) j = Some c -> j <> k ->
             get_count c + remaining < get_count r)
    by (intros j c Hj Hne; now destruct (Hlead' j c Hj Hne)).
  clear Hlead'.
  unfold check_move_cannot_change.
  apply Float_gt_false in Hcount. rewrite Hcount.
  destruct (nth_error_split _ _ Hk) as (pre & post & Hcs & Hlen).
  assert (Hpre : forall c, In c pre -> get_count c < get_count r - remaining).
  { intros c Hin. apply In_nth_error in Hin. destruct Hin as [j Hj].
    assert (Hjlt : (j < length pre)%nat)
      by (apply nth_error_Some; congruence).
    assert (get_count c + remaining < get_count r); [|lra].
    apply (Hlead j); [|lia].
    rewrite Hcs. rewrite nth_error_app1; trivial. }
  assert (Hpost : forall c, In c post -> get_count c <= get_count r).
  { intros c Hin. apply In_nth_error in Hin. destruct Hin as [j Hj].
    assert (get_count c + remaining < get_count r); [|lra].
    apply (Hlead (length pre + S j)%nat); [|lia].
    rewrite Hcs. rewrite nth_error_app2 by lia.
    replace (length pre + S j - length pre)%nat with (S j) by lia.
    exact Hj. }
  rewrite Hcs. rewrite check_move_cannot_change_loop_app.
  destruct (check_move_cannot_change_loop_below (get_count r - remaining)
              pre 0 0) as [Hmx Hsn]; trivial; try lra.
  destruct (check_move_cannot_change_loop pre 0 0) as [mx sn].
  simpl in Hmx, Hsn. simpl.
  assert (Hgt : Float_gt (get_count r) mx = true)
    by (apply Float_gt_true; lra).
  rewrite Hgt.
  rewrite check_move_cannot_change_loop_keep by trivial.
  apply Float_gt_true. lra.
Qed.

Lemma check_move_cannot_change_complete_witness :
  0 <= 3 /\ 3 <= 15 /\
  nth_error (get_children root_10_5) 0 = Some (leaf 1%nat 10 (1 # 2)) /\
  3 < get_count (leaf 1%nat 10 (1 # 2)) /\
  Float_representable 24 3 /\
  (forall j c,
      nth_error (get_children root_10_5) j = Some c -> j <> 0%nat ->
      Float_representable 24 (get_count c + 3) /\
      get_count c + 3 < get_count (leaf 1%nat 10 (1 # 2))) /\
  check_move_cannot_change root_10_5 15 3 = true.
Proof.
  assert (H1 : 0 <= 3) by lra.
  assert (H2 : 3 <= 15) by lra.
  assert (H3 : nth_error (get_children root_10_5) 0
               = Some (leaf 1%nat 10 (1 # 2))) by reflexivity.
  assert (H4 : 3 < get_count (leaf 1%nat 10 (1 # 2))) by (simpl; lra).
  assert (H5 : Float_representable 24 3) by reflexivity.
  assert (H6 : forall j c,
             nth_error (get_children root_10_5) j = Some c -> j <> 0%nat ->
             Float_representable 24 (get_count c + 3) /\
             get_count c + 3 < get_count (leaf 1%nat 10 (1 # 2))).
  { intros [|[|[|j]]] c Hj Hne; simpl in Hj; try discriminate.
    - now elim Hne.
    - injection Hj as <-. split; [reflexivity | simpl; lra]. }
  split; [exact H1 | split; [exact H2 | split; [exact H3 |
    split; [exact H4 | split; [exact H5 | split; [exact H6|]]]]]].
  exact (check_move_cannot_change_complete 24 root_10_5 15 3 0
           (leaf 1%nat 10 (1 # 2)) H1 H2 H3 H4 H5 H6).
Defined.

(** Where the sum is not a value of the floating type, the rounded sum
    can reach the highest count: with counts 10 and 5 and [5 - 2 ^ -21]
    remaining simulations, the exact sum [10 - 2 ^ -21] lies below 10 and
    is rounded to 10 in single precision. *)
Example check_move_cannot_change_rounded_sum :
  let remaining := 5 - (1 # 2 ^ 21) in
  get_count (leaf 2%nat 5 (1 # 2)) + remaining < 10 /\
  round_single (get_count (leaf 2%nat 5 (1 # 2)) + remaining) == 10 /\
  ~ Float_representable 24 (get_count (leaf 2%nat 5 (1 # 2)) + remaining).
Proof.
  cbv zeta. split; [reflexivity|]. split; [reflexivity|].
  intros H. vm_compute in H. discriminate.
Qed.

(** ** The move and the value of a search *)

Lemma select_child_final_cases
    (Float_max : Float) (exclude_moves : option (list Move)) (node : Node) :
  (forall c, In c (get_children node) -> 0 <= get_count c) ->
  match select_child_final Float_max node exclude_moves with
  | Some (k, r) => first_best exclude_moves (get_children node) k r
  | None =>
      forall c, In c (get_children node) ->
        is_excluded exclude_moves (get_move c) = true
  end.
Proof.
  intros Hpos. unfold select_child_final.
  destruct (select_child_final_loop_inv exclude_moves (get_children node) []
              None (-1) (- Float_max)) as (mc & mv & Hinv); trivial.
  - simpl. split; [reflexivity | intros ? []].
  - simpl in Hinv.
    destruct (select_child_final_loop exclude_moves (get_children node)
                0 None (-1) (- Float_max)) as [[k r]|]; simpl in Hinv.
    + apply Hinv.
    + apply Hinv.
Qed.

(** X8.  [select_move] returns [false] exactly when every child of the
    root is on the exclude list, as for a root without children, and then
    leaves the move as it was; otherwise it returns [true] with the move
    of a child that is not on the list. *)
Theorem select_move_result
    (Float_max : Float) (root : Node) (exclude_moves : option (list Move)) :
  (forall c, In c (get_children root) -> 0 <= get_count c) ->
  match select_move Float_max root exclude_moves with
  | (Some mv, true) =>
      is_excluded exclude_moves mv = false /\
      exists c, In c (get_children root) /\ get_move c = mv
  | (None, false) =>
      forall c, In c (get_children root) ->
        is_excluded exclude_moves (get_move c) = true
  | _ => False
  end.
Proof.
  intros Hpos. unfold select_move.
  pose proof (select_child_final_cases Float_max exclude_moves root Hpos) as H.
  destruct (select_child_final Float_max root exclude_moves) as [[k r]|].
  - destruct H as (Hnth & Hex & _). split; trivial.
    exists r. split; [|reflexivity]. now apply nth_error_In in Hnth.
  - exact H.
Qed.

Lemma select_move_result_witness :
  (forall c, In c (get_children example_final_node) -> 0 <= get_count c) /\
  match select_move Float_max_single example_final_node
          (Some [1%nat; 3%nat; 4%nat; 2%nat]) with
  | (Some mv, true) =>
      is_excluded (Some [1%nat; 3%nat; 4%nat; 2%nat]) mv = false /\
      exists c, In c (get_children example_final_node) /\ get_move c = mv
  | (None, false) =>
      forall c, In c (get_children example_final_node) ->
        is_excluded (Some [1%nat; 3%nat; 4%nat; 2%nat]) (get_move c) = true
  | _ => False
  end.
Proof.
  assert (H : forall c, In c (get_children example_final_node) ->
                0 <= get_count c).
  { intros c [<- | [<- | [<- | [<- | []]]]]; simpl; lra. }
  split; [exact H|].
  exact (select_move_result Float_max_single example_final_node
           (Some [1%nat; 3%nat; 4%nat; 2%nat]) H).
Defined.

(** X9.  [get_value] is the value of the root, or the tie value for a
    root without visits, as long as no child was visited more often than
    the root; when a child was, as after the reuse of a subtree has
    cleared the count of the root, it is the value of the child of the
    final selection. *)
Theorem Search_get_value_cases (Float_max tie_value : Float) (root : Node) :
  (forall c, In c (get_children root) -> 0 <= get_count c) ->
  ((forall c, In c (get_children root) -> get_count c <= get_count root) ->
   Search_get_value Float_max tie_value root
   = if Float_gt (get_count root) 0 then get_value root else tie_value) /\
  ((exists c, In c (get_children root) /\ get_count root < get_count c) ->
   exists k r,
     first_best None (get_children root) k r /\
     Search_get_value Float_max tie_value root = get_value r).
Proof.
  intros Hpos. unfold Search_get_value.
  pose proof (select_child_final_cases Float_max None root Hpos) as H.
  destruct (select_child_final Float_max root None) as [[k r]|].
  - split.
    + intros Hle. destruct H as (Hnth & _).
      apply nth_error_In in Hnth. apply Hle in Hnth.
      apply Float_gt_false in Hnth. now rewrite Hnth.
    + intros (c & Hin & Hc). exists k, r. split; [exact H|].
      destruct H as (_ & _ & Hall).
      apply In_nth_error in Hin. destruct Hin as [j Hj].
      destruct (Hall j c Hj eq_refl) as (Hle & _).
      assert (Hgt : Float_gt (get_count r) (get_count root) = true)
        by (apply Float_gt_true; lra).
      now rewrite Hgt.
  - split; [reflexivity|].
    intros (c & Hin & _). specialize (H c Hin). discriminate.
Qed.

Lemma Search_get_value_cases_witness :
  (forall c, In c (get_children root_10_5) -> 0 <= get_count c) /\
  ((forall c, In c (get_children root_10_5) ->
      get_count c <= get_count root_10_5) ->
   Search_get_value Float_max_single (1 # 2) root_10_5
   = if Float_gt (get_count root_10_5) 0 then get_value root_10_5
     else 1 # 2) /\
  ((exists c, In c (get_children root_10_5) /\
              get_count root_10_5 < get_count c) ->
   exists k r,
     first_best None (get_children root_10_5) k r /\
     Search_get_value Float_max_single (1 # 2) root_10_5 = get_value r).
Proof.
  assert (H : forall c, In c (get_children root_10_5) -> 0 <= get_count c).
  { intros c [<- | [<- | []]]; simpl; lra. }
  split; [exact H|].
  exact (Search_get_value_cases Float_max_single (1 # 2) root_10_5 H).
Defined.

(** ** The expensive abort check *)



(** ** The RAVE backup and the table of first plays *)

Section RaveFacts.

Variable s : Search.
Variable nu_players : nat.
Variable skip_rave : Move -> bool.
Variable moves : list PlayerMove.
Variable eval : nat -> Float.
Variable nodes : list Node.

Lemma first_play_from_step (i p : nat) (m : Move) :
  (i < length moves)%nat ->
  first_play_from skip_rave moves i p m
  = if is_play skip_rave moves p m i then Some i
    else first_play_from skip_rave moves (S i) p m.
Proof.
  intros Hi. unfold first_play_from.
  replace (length moves - i)%nat with (S (length moves - S i)) by lia.
  reflexivity.
Qed.

Lemma first_play_from_end (i p : nat) (m : Move) :
  (length moves <= i)%nat ->
  first_play_from skip_rave moves i p m = None.
Proof.
  intros Hi. unfold first_play_from.
  replace (length moves - i)%nat with O by lia. reflexivity.
Qed.

Lemma find_seq_first (f : nat -> bool) (len : nat) :
  forall i j,
    find f (seq i len) = Some j <->
    (i <= j < i + len)%nat /\ f j = true /\
    forall j', (i <= j' < j)%nat -> f j' = false.
Proof.
  induction len as [|len IH]; intros i j; simpl.
  - split; [discriminate | intros ([] & _); lia].
  - destruct (f i) eqn:Hf.
    + split.
      * intros [= <-]. repeat split; trivial; try lia; intros; lia.
      * intros (Hr & Hj & Hfirst).
        destruct (Nat.eq_dec i j) as [-> | Hne]; [reflexivity|].
        rewrite Hfirst in Hf by lia. discriminate.
    + rewrite IH. split.
      * intros (Hr & Hj & Hfirst). repeat split; trivial; try lia.
        intros j' Hj'. destruct (Nat.eq_dec j' i) as [-> | Hne]; trivial.
        apply Hfirst. lia.
      * intros (Hr & Hj & Hfirst).
        assert (i <> j) by (intros ->; congruence).
        repeat split; trivial; try lia. intros; apply Hfirst; lia.
Qed.

Lemma is_play_true (p : nat) (m : Move) (j : nat) :
  is_play skip_rave moves p m j = true <->
  get_state_move moves j = mkPlayerMove p m /\ skip_rave m = false.
Proof.
  unfold is_play. cbv zeta.
  destruct (get_state_move moves j) as [p' m']. simpl.
  rewrite !andb_true_iff, !Nat.eqb_eq, negb_true_iff.
  split.
  - intros [[-> ->] Hs]. now split.
  - intros [[= -> ->] Hs]. now repeat split.
Qed.

Lemma first_play_from_some (i p : nat) (m : Move) (j : nat) :
  first_play_from skip_rave moves i p m = Some j <->
  (i <= j < length moves)%nat /\
  get_state_move moves j = mkPlayerMove p m /\ skip_rave m = false /\
  forall j', (i <= j' < j)%nat ->
    get_state_move moves j' <> mkPlayerMove p m.
Proof.
  unfold first_play_from. rewrite find_seq_first.
  rewrite is_play_true. split.
  - intros (Hr & [Hj Hs] & Hfirst). repeat split; trivial; try lia.
    intros j' Hj' Heq.
    assert (Ht : is_play skip_rave moves p m j' = true)
      by (apply is_play_true; now split).
    rewrite Hfirst in Ht by trivial. discriminate.
  - intros (Hr & Hj & Hs & Hfirst). repeat split; trivial; try lia.
    intros j' Hj'.
    destruct (is_play skip_rave moves p m j') eqn:Ht; trivial.
    apply is_play_true in Ht. destruct Ht as [Ht _].
    now elim (Hfirst j' Hj').
Qed.

(** Recording the move of ply [i] in the table of the plies after it
    gives the table of the plies from [i] on. *)
Lemma record_first_play_table (i : nat) (first_play : FirstPlay) :
  (i < length moves)%nat ->
  (forall p m, first_play p m = first_play_table skip_rave moves (S i) p m) ->
  forall p m,
    record_first_play skip_rave moves i first_play p m
    = first_play_table skip_rave moves i p m.
Proof.
  intros Hi Hfp p m.
  unfold first_play_table. rewrite first_play_from_step by trivial.
  unfold record_first_play, is_play. cbv zeta.
  destruct (get_state_move moves i) as [p' m']. simpl.
  destruct (skip_rave m') eqn:Hs'; simpl.
  - rewrite Hfp. unfold first_play_table.
    destruct (Nat.eqb p p' && Nat.eqb m m') eqn:He; simpl.
    + apply andb_true_iff in He. destruct He as [_ He].
      apply Nat.eqb_eq in He. subst m'. now rewrite Hs'.
    + reflexivity.
  - unfold first_play_set.
    destruct (Nat.eqb p p' && Nat.eqb m m') eqn:He; simpl.
    + apply andb_true_iff in He. destruct He as [_ He].
      apply Nat.eqb_eq in He. subst m'. now rewrite Hs'.
    + apply Hfp.
Qed.

Lemma update_rave_values_playout_table (nu_nodes : nat) :
  forall (i : nat) (first_play : FirstPlay),
    (1 <= nu_nodes)%nat ->
    (i < length moves)%nat ->
    (forall p m,
        first_play p m = first_play_table skip_rave moves (S i) p m) ->
    let '(i', first_play') :=
      update_rave_values_playout skip_rave moves i nu_nodes first_play in
    i' = Nat.min i (nu_nodes - 1) /\
    forall p m,
      first_play' p m = first_play_table skip_rave moves (S i') p m.
Proof.
  induction i as [|i IH]; intros first_play Hn Hi Hfp.
  - simpl. destruct (nu_nodes <=? 0)%nat eqn:Hle.
    + apply Nat.leb_le in Hle. lia.
    + split; [lia | exact Hfp].
  - cbn [update_rave_values_playout].
    destruct (nu_nodes <=? S i)%nat eqn:Hle.
    + apply Nat.leb_le in Hle.
      specialize (IH (record_first_play skip_rave moves (S i) first_play)
                    Hn ltac:(lia)
                    (record_first_play_table (S i) first_play Hi Hfp)).
      destruct (update_rave_values_playout skip_rave moves i nu_nodes _)
        as [i' first_play'].
      destruct IH as [-> Hfp']. split; [lia | exact Hfp'].
    + apply Nat.leb_gt in Hle. split; [lia | exact Hfp].
Qed.

Lemma existsb_pointwise {A : Type} (f g : A -> bool) (l : list A) :
  (forall x, f x = g x) -> existsb f l = existsb g l.
Proof.
  intros H. induction l as [|x l IH]; simpl; [reflexivity|].
  now rewrite H, IH.
Qed.

(** The updates of the children depend on the entries of the table
    only. *)
Lemma update_rave_values_children_ext
    (fp fp' : FirstPlay) (i player : nat) (weight_factor : Float)
    (cs : list Node) :
  (forall p m, fp p m = fp' p m) ->
  forall idx,
    update_rave_values_children s nu_players eval fp i player weight_factor
      cs idx
    = update_rave_values_children s nu_players eval fp' i player weight_factor
        cs idx.
Proof.
  intros Hfp. induction cs as [|c cs IH]; intros idx; simpl; [reflexivity|].
  rewrite IH, Hfp.
  assert (Ho : other_played_same nu_players player fp (get_move c)
                 (fp' player (get_move c))
               = other_played_same nu_players player fp' (get_move c)
                   (fp' player (get_move c))).
  { unfold other_played_same. apply existsb_pointwise.
    intros q. now rewrite Hfp. }
  now rewrite Ho.
Qed.

Lemma update_rave_values_node_ext (fp fp' : FirstPlay) (i player : nat) :
  (forall p m, fp p m = fp' p m) ->
  update_rave_values_node s nu_players moves eval nodes fp i player
  = update_rave_values_node s nu_players moves eval nodes fp' i player.
Proof.
  intros Hfp. unfold update_rave_values_node.
  destruct (nth_error nodes i) as [node|]; [|reflexivity].
  destruct (negb (has_children node)); [reflexivity|].
  now apply update_rave_values_children_ext.
Qed.

(** The updates of the loop over the nodes are those of the nodes from
    [i] down to the root, each with the table of the plies from the node
    on. *)
Lemma update_rave_values_in_tree_table :
  forall (i : nat) (first_play : FirstPlay),
    (i < length moves)%nat ->
    (forall p m,
        first_play p m = first_play_table skip_rave moves (S i) p m) ->
    let '(updates, first_play') :=
      update_rave_values_in_tree s nu_players skip_rave moves eval nodes
        i first_play in
    (forall p m, first_play' p m = first_play_table skip_rave moves 0 p m) /\
    forall u,
      In u updates <->
      exists i',
        (i' <= i)%nat /\
        In u (update_rave_values_node s nu_players moves eval nodes
                (first_play_table skip_rave moves i') i'
                (pm_player (get_state_move moves i'))).
Proof.
  induction i as [|i IH]; intros first_play Hi Hfp.
  - cbn [update_rave_values_in_tree].
    pose proof (record_first_play_table 0 first_play Hi Hfp) as Hrec.
    split; [exact Hrec|].
    intros u.
    rewrite (update_rave_values_node_ext _ _ 0 _ Hrec).
    split.
    + intros Hin. exists 0%nat. split; [lia | exact Hin].
    + intros (i' & Hle & Hin). assert (i' = 0%nat) by lia. now subst i'.
  - cbn [update_rave_values_in_tree].
    pose proof (record_first_play_table (S i) first_play Hi Hfp) as Hrec.
    specialize (IH (record_first_play skip_rave moves (S i) first_play)
                  ltac:(lia) Hrec).
    destruct (update_rave_values_in_tree s nu_players skip_rave moves eval
                nodes i _) as [updates' first_play'].
    destruct IH as [Hfp' Hup]. split; [exact Hfp'|].
    intros u. rewrite in_app_iff, Hup.
    rewrite (update_rave_values_node_ext _ _ (S i) _ Hrec).
    split.
    + intros [Hin | (i' & Hle & Hin)].
      * exists (S i). split; [lia | exact Hin].
      * exists i'. split; [lia | exact Hin].
    + intros (i' & Hle & Hin).
      destruct (Nat.eq_dec i' (S i)) as [-> | Hne].
      * now left.
      * right. exists i'. split; [lia | exact Hin].
Qed.

(** The updates of the children of a node. *)
Lemma update_rave_values_children_in
    (fp : FirstPlay) (i player : nat) (weight_factor : Float)
    (u : RaveUpdate) (cs : list Node) :
  forall idx,
    In u (update_rave_values_children s nu_players eval fp i player
            weight_factor cs idx) <->
    exists k c,
      nth_error cs k = Some c /\
      fp player (get_move c) <> Limits.unsigned_max /\
      m_rave_check_same s
      && other_played_same nu_players player fp (get_move c)
           (fp player (get_move c)) = false /\
      u = mkRaveUpdate i (idx + k) (get_move c) (eval player)
            (if m_weight_rave_updates s
             then 2 - inject_Z (unsigned_sub (fp player (get_move c))
                                  (Z.of_nat i)) * weight_factor
             else 1).
Proof.
  induction cs as [|c cs IH]; intros idx.
  - simpl. split; [intros [] | intros (k & c & Hk & _)].
    destruct k; discriminate.
  - cbn [update_rave_values_children].
    assert (Hrest :
      In u (update_rave_values_children s nu_players eval fp i player
              weight_factor cs (S idx)) <->
      exists k c',
        nth_error (c :: cs) (S k) = Some c' /\
        fp player (get_move c') <> Limits.unsigned_max /\
        m_rave_check_same s
        && other_played_same nu_players player fp (get_move c')
             (fp player (get_move c')) = false /\
        u = mkRaveUpdate i (idx + S k) (get_move c') (eval player)
              (if m_weight_rave_updates s
               then 2 - inject_Z (unsigned_sub (fp player (get_move c'))
                                    (Z.of_nat i)) * weight_factor
               else 1)).
    { rewrite IH. split; intros (k & c' & Hk & Hne & Hsame & Hu);
        exists k, c'; repeat split; trivial;
        rewrite Hu; f_equal; lia. }
    destruct (fp player (get_move c) =? Limits.unsigned_max)%Z eqn:Hmax.
    + apply Z.eqb_eq in Hmax. rewrite Hrest. split.
      * intros (k & c' & H). now exists (S k), c'.
      * intros ([|k] & c' & Hk & Hne & H).
        -- injection Hk as <-. contradiction.
        -- now exists k, c'.
    + apply Z.eqb_neq in Hmax.
      destruct (m_rave_check_same s
                && other_played_same nu_players player fp (get_move c)
                     (fp player (get_move c))) eqn:Hsame.
      * rewrite Hrest. split.
        -- intros (k & c' & H). now exists (S k), c'.
        -- intros ([|k] & c' & Hk & Hne & Hs & H).
           ++ injection Hk as <-. congruence.
           ++ now exists k, c'.
      * simpl. rewrite Hrest. split.
        -- intros [<- | (k & c' & H)].
           ++ exists 0%nat, c. rewrite Nat.add_0_r. repeat split; trivial.
           ++ now exists (S k), c'.
        -- intros ([|k] & c' & Hk & Hne & Hs & H).
           ++ injection Hk as <-. left. rewrite H, Nat.add_0_r. reflexivity.
           ++ right. now exists k, c'.
Qed.

(** The table is reset for the moves of the simulation. *)
Lemma reset_first_play_value (first_play : FirstPlay) (p : nat) (m : Move) :
  reset_first_play moves first_play p m
  = if existsb (fun mv => Nat.eqb p (pm_player mv) && Nat.eqb m (pm_move mv))
         moves
    then Limits.unsigned_max
    else first_play p m.
Proof.
  unfold reset_first_play. revert first_play.
  induction moves as [|mv l IH]; intros first_play; simpl; [reflexivity|].
  rewrite IH. unfold first_play_set.
  destruct (existsb _ l); [now rewrite orb_true_r|].
  rewrite orb_false_r.
  now destruct (Nat.eqb p (pm_player mv) && Nat.eqb m (pm_move mv)).
Qed.

Lemma reset_first_play_table (first_play : FirstPlay) :
  (forall p m, first_play p m = first_play_table skip_rave moves 0 p m) ->
  forall p m, reset_first_play moves first_play p m = Limits.unsigned_max.
Proof.
  intros Hfp p m. rewrite reset_first_play_value.
  destruct (existsb _ moves) eqn:Hex; [reflexivity|].
  rewrite Hfp. unfold first_play_table.
  destruct (first_play_from skip_rave moves 0 p m) as [j|] eqn:Hj;
    [|reflexivity].
  apply first_play_from_some in Hj. destruct Hj as (Hr & Hmv & _).
  assert (Hin : In (get_state_move moves j) moves)
    by (apply nth_In; lia).
  rewrite Hmv in Hin.
  assert (Ht : existsb
                 (fun mv => Nat.eqb p (pm_player mv) && Nat.eqb m (pm_move mv))
                 moves = true).
  { apply existsb_exists. exists (mkPlayerMove p m). split; trivial.
    simpl. now rewrite !Nat.eqb_refl. }
  congruence.
Qed.

(** What [update_rave_values] does to a table without entries, for a path
    that holds the root. *)
Lemma update_rave_values_table (first_play : FirstPlay) :
  nodes <> [] ->
  (forall p m, first_play p m = Limits.unsigned_max) ->
  exists updates first_play',
    update_rave_values s nu_players skip_rave moves eval nodes first_play
    = Some (updates, first_play') /\
    (forall p m, first_play' p m = Limits.unsigned_max) /\
    forall u,
      In u updates <->
      exists i',
        (i' < length moves)%nat /\ (i' < length nodes)%nat /\
        In u (update_rave_values_node s nu_players moves eval nodes
                (first_play_table skip_rave moves i') i'
                (pm_player (get_state_move moves i'))).
Proof.
  intros Hnodes Hfp. unfold update_rave_values.
  destruct (length moves =? 0)%nat eqn:Hl.
  - apply Nat.eqb_eq in Hl.
    exists [], first_play. split; [reflexivity|]. split; [exact Hfp|].
    intros u. split; [intros [] | intros (i' & Hi & _); lia].
  - apply Nat.eqb_neq in Hl.
    destruct (length nodes =? 0)%nat eqn:Hn.
    + apply Nat.eqb_eq in Hn. apply length_zero_iff_nil in Hn. contradiction.
    + apply Nat.eqb_neq in Hn.
      assert (Hstart : forall p m,
                first_play p m
                = first_play_table skip_rave moves
                    (S (length moves - 1)) p m).
      { intros p m. rewrite Hfp. unfold first_play_table.
        now rewrite first_play_from_end by lia. }
      pose proof (update_rave_values_playout_table (length nodes)
                    (length moves - 1) first_play ltac:(lia) ltac:(lia)
                    Hstart) as Hplay.
      destruct (update_rave_values_playout skip_rave moves
                  (length moves - 1) (length nodes) first_play)
        as [i first_play1].
      destruct Hplay as [Hi Hfp1].
      pose proof (update_rave_values_in_tree_table i first_play1
                    ltac:(lia) Hfp1) as Htree.
      destruct (update_rave_values_in_tree s nu_players skip_rave moves eval
                  nodes i first_play1) as [updates first_play2].
      destruct Htree as [Hfp2 Hup].
      exists updates, (reset_first_play moves first_play2).
      split; [reflexivity|].
      split; [now apply reset_first_play_table|].
      intros u. rewrite Hup. split.
      * intros (i' & Hle & Hin). exists i'. repeat split; trivial; lia.
      * intros (i' & Hm & Hn' & Hin). exists i'. split; [lia | exact Hin].
Qed.

(** The updates of [update_rave_values], one by one: the node, its child
    and the first ply from the node on at which the player to move at the
    node plays the move of the child. *)
Lemma update_rave_values_updates (first_play : FirstPlay)
    (updates : list RaveUpdate) (first_play' : FirstPlay) (u : RaveUpdate) :
  (Z.of_nat (length moves) <= Limits.unsigned_max)%Z ->
  (forall p m, first_play p m = Limits.unsigned_max) ->
  update_rave_values s nu_players skip_rave moves eval nodes first_play
  = Some (updates, first_play') ->
  In u updates ->
  exists node c j,
    (rave_node u < length moves)%nat /\
    nth_error nodes (rave_node u) = Some node /\
    nth_error (get_children node) (rave_child u) = Some c /\
    get_move c = rave_move u /\
    rave_value u = eval (pm_player (get_state_move moves (rave_node u))) /\
    first_play_from skip_rave moves (rave_node u)
      (pm_player (get_state_move moves (rave_node u))) (rave_move u)
    = Some j /\
    rave_weight u
    = (if m_weight_rave_updates s
       then 2 - inject_Z (Z.of_nat j - Z.of_nat (rave_node u))
                * (1 / inject_Z (Z.of_nat (length moves)
                                 - Z.of_nat (rave_node u)))
       else 1).
Proof.
  intros Hlen Hfp Hrun Hin.
  destruct nodes as [|n0 ns] eqn:Hnodes.
  { unfold update_rave_values in Hrun.
    destruct (length moves =? 0)%nat; [|discriminate].
    injection Hrun as <- <-. destruct Hin. }
  rewrite <- Hnodes in *.
  destruct (update_rave_values_table first_play)
    as (ups & fp2 & Hrun' & _ & Hup);
    [congruence | exact Hfp |].
  rewrite Hrun in Hrun'. injection Hrun' as <- <-.
  apply Hup in Hin. destruct Hin as (i & Hi & Hn & Hin).
  unfold update_rave_values_node in Hin.
  destruct (nth_error nodes i) as [node|] eqn:Hnode; [|destruct Hin].
  destruct (negb (has_children node)); [destruct Hin|].
  apply update_rave_values_children_in in Hin.
  destruct Hin as (k & c & Hk & Hne & _ & ->). cbn.
  unfold first_play_table in *.
  destruct (first_play_from skip_rave moves i
              (pm_player (get_state_move moves i)) (get_move c))
    as [j|] eqn:Hj; [|now elim Hne].
  exists node, c, j. repeat split; trivial.
  apply first_play_from_some in Hj. destruct Hj as (Hr & _).
  unfold Limits.unsigned_max in Hlen.
  unfold unsigned_sub. rewrite !Z.mod_small by lia. reflexivity.
Qed.

(** X11.  A RAVE update is made for moves played later only: every call
    to [add_rave_value] in [update_rave_values] is for a child of a node
    of the path whose move the player to move at that node plays at the
    ply of the node or a later ply of the simulation, a move that
    [skip_rave] does not exclude, and it adds the evaluation of the
    simulation for that player. *)
Theorem update_rave_values_only_later_plays (first_play : FirstPlay)
    (updates : list RaveUpdate) (first_play' : FirstPlay) (u : RaveUpdate) :
  (Z.of_nat (length moves) <= Limits.unsigned_max)%Z ->
  (forall p m, first_play p m = Limits.unsigned_max) ->
  update_rave_values s nu_players skip_rave moves eval nodes first_play
  = Some (updates, first_play') ->
  In u updates ->
  exists node c j,
    nth_error nodes (rave_node u) = Some node /\
    nth_error (get_children node) (rave_child u) = Some c /\
    get_move c = rave_move u /\
    rave_value u = eval (pm_player (get_state_move moves (rave_node u))) /\
    (rave_node u <= j < length moves)%nat /\
    get_state_move moves j
    = mkPlayerMove (pm_player (get_state_move moves (rave_node u)))
        (rave_move u) /\
    skip_rave (rave_move u) = false.
Proof.
  intros Hlen Hfp Hrun Hin.
  destruct (update_rave_values_updates first_play updates first_play' u
              Hlen Hfp Hrun Hin)
    as (node & c & j & _ & Hnode & Hc & Hm & Hv & Hj & _).
  apply first_play_from_some in Hj. destruct Hj as (Hr & Hmv & Hs & _).
  exists node, c, j. repeat split; trivial; lia.
Qed.

(** X12.  With weighted updates the weight of a RAVE update lies between
    1 and 2, is 2 for a move that is played at the ply of the node
    itself, and does not grow with the distance of the first play of the
    move from the node: of two updates at the same node, the one for the
    move that is first played later has no higher weight.  Without
    weighted updates the weight is 1.  (The simulation is shorter than
    [2 ^ 24] plies, so that the numbers of plies are values of the
    floating type; the bounds and the order are kept by the rounding of
    the operations, which is monotone, the linear dependence on the
    distance only up to rounding.) *)
Theorem update_rave_values_weight (first_play : FirstPlay)
    (updates : list RaveUpdate) (first_play' : FirstPlay)
    (u u' : RaveUpdate) :
  (Z.of_nat (length moves) < 2 ^ 24)%Z ->
  (forall p m, first_play p m = Limits.unsigned_max) ->
  update_rave_values s nu_players skip_rave moves eval nodes first_play
  = Some (updates, first_play') ->
  In u updates ->
  In u' updates ->
  if m_weight_rave_updates s
  then
    exists j j',
      first_play_from skip_rave moves (rave_node u)
        (pm_player (get_state_move moves (rave_node u))) (rave_move u)
      = Some j /\
      first_play_from skip_rave moves (rave_node u')
        (pm_player (get_state_move moves (rave_node u'))) (rave_move u')
      = Some j' /\
      1 <= rave_weight u /\ rave_weight u <= 2 /\
      (j = rave_node u -> rave_weight u == 2) /\
      (rave_node u = rave_node u' -> (j <= j')%nat ->
       rave_weight u' <= rave_weight u)
  else rave_weight u = 1.
Proof.
  intros Hlen24 Hfp Hrun Hin Hin'.
  assert (Hlen : (Z.of_nat (length moves) <= Limits.unsigned_max)%Z)
    by (unfold Limits.unsigned_max; lia).
  destruct (update_rave_values_updates first_play updates first_play' u
              Hlen Hfp Hrun Hin)
    as (node & c & j & Hi & _ & _ & _ & _ & Hj & Hw).
  destruct (update_rave_values_updates first_play updates first_play' u'
              Hlen Hfp Hrun Hin')
    as (node' & c' & j' & Hi' & _ & _ & _ & _ & Hj' & Hw').
  destruct (m_weight_rave_updates s); [|exact Hw].
  exists j, j'. split; [exact Hj|]. split; [exact Hj'|].
  apply first_play_from_some in Hj. destruct Hj as (Hr & _).
  apply first_play_from_some in Hj'. destruct Hj' as (Hr' & _).
  rewrite Hw, Hw'.
  set (b := inject_Z (Z.of_nat (length moves) - Z.of_nat (rave_node u))).
  set (a := inject_Z (Z.of_nat j - Z.of_nat (rave_node u))).
  assert (Ha : 0 <= a)
    by (unfold a; change 0 with (inject_Z 0); rewrite <- Zle_Qle; lia).
  assert (Hab : a < b) by (unfold a, b; rewrite <- Zlt_Qlt; lia).
  assert (Hb : 0 < b) by lra.
  assert (Hinv : 0 < 1 / b) by (apply Qlt_shift_div_l; trivial; lra).
  assert (Heq : a * (1 / b) == a / b) by (field; lra).
  assert (Hlo : 0 <= a / b)
    by (apply Qle_shift_div_l; trivial; lra).
  assert (Hhi : a / b < 1)
    by (apply Qlt_shift_div_r; trivial; lra).
  split; [rewrite Heq; lra|]. split; [rewrite Heq; lra|]. split.
  - intros ->. unfold a. rewrite Z.sub_diag.
    change (inject_Z 0) with 0. lra.
  - intros Hsame Hle. rewrite <- Hsame. fold b.
    set (a' := inject_Z (Z.of_nat j' - Z.of_nat (rave_node u))).
    assert (Haa : a <= a') by (unfold a, a'; rewrite <- Zle_Qle; lia).
    assert (a * (1 / b) <= a' * (1 / b))
      by (apply Qmult_le_compat_r; lra).
    lra.
Qed.

(** X13.  [update_rave_values] leaves the table of first plays as it
    found it: for a path that holds the root, it returns, and when no
    entry of the table was set before the call, none is set after it. *)
Theorem update_rave_values_resets_first_play (first_play : FirstPlay) :
  nodes <> [] ->
  (forall p m, first_play p m = Limits.unsigned_max) ->
  exists updates first_play',
    update_rave_values s nu_players skip_rave moves eval nodes first_play
    = Some (updates, first_play') /\
    forall p m, first_play' p m = Limits.unsigned_max.
Proof.
  intros Hnodes Hfp.
  destruct (update_rave_values_table first_play Hnodes Hfp)
    as (updates & first_play' & Hrun & Hreset & _).
  now exists updates, first_play'.
Qed.

(** X14.  Without [rave_check_same], every child of a node of the path
    whose move the player to move at the node plays at the ply of the
    node or later gets a RAVE update, unless [skip_rave] excludes the
    move. *)
Theorem update_rave_values_all_later_plays (first_play : FirstPlay)
    (updates : list RaveUpdate) (first_play' : FirstPlay)
    (i k j : nat) (node c : Node) :
  m_rave_check_same s = false ->
  (Z.of_nat (length moves) <= Limits.unsigned_max)%Z ->
  (forall p m, first_play p m = Limits.unsigned_max) ->
  update_rave_values s nu_players skip_rave moves eval nodes first_play
  = Some (updates, first_play') ->
  nth_error nodes i = Some node ->
  nth_error (get_children node) k = Some c ->
  (i <= j < length moves)%nat ->
  get_state_move moves j
  = mkPlayerMove (pm_player (get_state_move moves i)) (get_move c) ->
  skip_rave (get_move c) = false ->
  exists u,
    In u updates /\
    rave_node u = i /\ rave_child u = k /\ rave_move u = get_move c.
Proof.
  intros Hsame Hlen Hfp Hrun Hnode Hc Hj Hmv Hskip.
  assert (Hnodes : nodes <> [])
    by (intros E; rewrite E in Hnode; destruct i; discriminate).
  destruct (update_rave_values_table first_play Hnodes Hfp)
    as (ups & fp2 & Hrun' & _ & Hup).
  rewrite Hrun in Hrun'. injection Hrun' as <- <-.
  set (p := pm_player (get_state_move moves i)) in *.
  destruct (first_play_from skip_rave moves i p (get_move c)) as [j0|] eqn:Hj0.
  - pose proof Hj0 as Hj0'. apply first_play_from_some in Hj0'.
    destruct Hj0' as (Hr0 & _).
    eexists. split.
    + apply Hup. exists i. split; [lia|]. split.
      * apply nth_error_Some. congruence.
      * unfold update_rave_values_node. rewrite Hnode.
        assert (Hhas : has_children node = true).
        { unfold has_children. destruct (get_children node); trivial.
          destruct k; discriminate. }
        rewrite Hhas. cbn [negb].
        apply update_rave_values_children_in.
        exists k, c. split; [exact Hc|]. fold p.
        unfold first_play_table. rewrite Hj0.
        split; [unfold Limits.unsigned_max in *; lia|].
        split; [now rewrite Hsame | reflexivity].
    + now cbn.
  - exfalso. unfold first_play_from in Hj0.
    apply find_none with (x := j) in Hj0.
    + assert (Ht : is_play skip_rave moves p (get_move c) j = true)
        by (apply is_play_true; now split).
      congruence.
    + apply in_seq. lia.
Qed.

End RaveFacts.

Lemma example_rave_run :
  update_rave_values example_search_rave 3 (fun _ => false)
    example_rave_moves example_rave_eval example_rave_nodes first_play_init
  = Some (fst example_rave_result, snd example_rave_result) /\
  fst example_rave_result
  = [mkRaveUpdate 0%nat 0%nat 7%nat 1 (2 - inject_Z 0 * (1 / inject_Z 4));
     example_rave_update].
Proof. split; reflexivity. Qed.

Lemma update_rave_values_only_later_plays_witness :
  (Z.of_nat (length example_rave_moves) <= Limits.unsigned_max)%Z /\
  (forall p m, first_play_init p m = Limits.unsigned_max) /\
  update_rave_values example_search_rave 3 (fun _ => false)
    example_rave_moves example_rave_eval example_rave_nodes first_play_init
  = Some (fst example_rave_result, snd example_rave_result) /\
  In example_rave_update (fst example_rave_result) /\
  exists node c j,
    nth_error example_rave_nodes (rave_node example_rave_update)
    = Some node /\
    nth_error (get_children node) (rave_child example_rave_update)
    = Some c /\
    get_move c = rave_move example_rave_update /\
    rave_value example_rave_update
    = example_rave_eval
        (pm_player (get_state_move example_rave_moves
                      (rave_node example_rave_update))) /\
    (rave_node example_rave_update <= j < length example_rave_moves)%nat /\
    get_state_move example_rave_moves j
    = mkPlayerMove
        (pm_player (get_state_move example_rave_moves
                      (rave_node example_rave_update)))
        (rave_move example_rave_update) /\
    (fun _ : Move => false) (rave_move example_rave_update) = false.
Proof.
  assert (H1 : (Z.of_nat (length example_rave_moves)
                <= Limits.unsigned_max)%Z)
    by (unfold Limits.unsigned_max; simpl; lia).
  assert (H2 : forall p m, first_play_init p m = Limits.unsigned_max)
    by reflexivity.
  assert (H3 : update_rave_values example_search_rave 3 (fun _ => false)
                 example_rave_moves example_rave_eval example_rave_nodes
                 first_play_init
               = Some (fst example_rave_result, snd example_rave_result))
    by reflexivity.
  assert (H4 : In example_rave_update (fst example_rave_result))
    by (right; left; reflexivity).
  split; [exact H1 | split; [exact H2 | split; [exact H3 |
    split; [exact H4|]]]].
  exact (update_rave_values_only_later_plays example_search_rave 3
           (fun _ => false) example_rave_moves example_rave_eval
           example_rave_nodes first_play_init (fst example_rave_result)
           (snd example_rave_result) example_rave_update H1 H2 H3 H4).
Defined.

Lemma update_rave_values_weight_witness :
  let u :=
    mkRaveUpdate 0%nat 0%nat 7%nat 1 (2 - inject_Z 0 * (1 / inject_Z 4)) in
  let u' := example_rave_update in
  (Z.of_nat (length example_rave_moves) < 2 ^ 24)%Z /\
  (forall p m, first_play_init p m = Limits.unsigned_max) /\
  update_rave_values example_search_rave 3 (fun _ => false)
    example_rave_moves example_rave_eval example_rave_nodes first_play_init
  = Some (fst example_rave_result, snd example_rave_result) /\
  In u (fst example_rave_result) /\
  In u' (fst example_rave_result) /\
  if m_weight_rave_updates example_search_rave
  then
    exists j j',
      first_play_from (fun _ => false) example_rave_moves (rave_node u)
        (pm_player (get_state_move example_rave_moves (rave_node u)))
        (rave_move u)
      = Some j /\
      first_play_from (fun _ => false) example_rave_moves (rave_node u')
        (pm_player (get_state_move example_rave_moves (rave_node u')))
        (rave_move u')
      = Some j' /\
      1 <= rave_weight u /\ rave_weight u <= 2 /\
      (j = rave_node u -> rave_weight u == 2) /\
      (rave_node u = rave_node u' -> (j <= j')%nat ->
       rave_weight u' <= rave_weight u)
  else rave_weight u = 1.
Proof.
  cbv zeta.
  assert (H1 : (Z.of_nat (length example_rave_moves) < 2 ^ 24)%Z)
    by (simpl; lia).
  assert (H2 : forall p m, first_play_init p m = Limits.unsigned_max)
    by reflexivity.
  assert (H3 : update_rave_values example_search_rave 3 (fun _ => false)
                 example_rave_moves example_rave_eval example_rave_nodes
                 first_play_init
               = Some (fst example_rave_result, snd example_rave_result))
    by reflexivity.
  assert (H4 : In (mkRaveUpdate 0%nat 0%nat 7%nat 1
                     (2 - inject_Z 0 * (1 / inject_Z 4)))
                 (fst example_rave_result))
    by (left; reflexivity).
  assert (H5 : In example_rave_update (fst example_rave_result))
    by (right; left; reflexivity).
  split; [exact H1 | split; [exact H2 | split; [exact H3 |
    split; [exact H4 | split; [exact H5|]]]]].
  exact (update_rave_values_weight example_search_rave 3
           (fun _ => false) example_rave_moves example_rave_eval
           example_rave_nodes first_play_init (fst example_rave_result)
           (snd example_rave_result) _ example_rave_update
           H1 H2 H3 H4 H5).
Defined.

Lemma update_rave_values_resets_first_play_witness :
  example_rave_nodes <> [] /\
  (forall p m, first_play_init p m = Limits.unsigned_max) /\
  exists updates first_play',
    update_rave_values example_search_rave 3 (fun _ => false)
      example_rave_moves example_rave_eval example_rave_nodes first_play_init
    = Some (updates, first_play') /\
    forall p m, first_play' p m = Limits.unsigned_max.
Proof.
  assert (H1 : example_rave_nodes <> []) by discriminate.
  assert (H2 : forall p m, first_play_init p m = Limits.unsigned_max)
    by reflexivity.
  split; [exact H1 | split; [exact H2|]].
  exact (update_rave_values_resets_first_play example_search_rave 3
           (fun _ => false) example_rave_moves example_rave_eval
           example_rave_nodes first_play_init H1 H2).
Defined.

Lemma update_rave_values_all_later_plays_witness :
  m_rave_check_same example_search_rave = false /\
  (Z.of_nat (length example_rave_moves) <= Limits.unsigned_max)%Z /\
  (forall p m, first_play_init p m = Limits.unsigned_max) /\
  update_rave_values example_search_rave 3 (fun _ => false)
    example_rave_moves example_rave_eval example_rave_nodes first_play_init
  = Some (fst example_rave_result, snd example_rave_result) /\
  nth_error example_rave_nodes 0
  = Some (mkNode 0%nat 20 (1 # 2) 0 0
            [leaf 7%nat 12 (1 # 2); leaf 5%nat 8 (1 # 2)]) /\
  nth_error
    (get_children
       (mkNode 0%nat 20 (1 # 2) 0 0
          [leaf 7%nat 12 (1 # 2); leaf 5%nat 8 (1 # 2)])) 1
  = Some (leaf 5%nat 8 (1 # 2)) /\
  (0 <= 3 < length example_rave_moves)%nat /\
  get_state_move example_rave_moves 3
  = mkPlayerMove (pm_player (get_state_move example_rave_moves 0))
      (get_move (leaf 5%nat 8 (1 # 2))) /\
  (fun _ : Move => false) (get_move (leaf 5%nat 8 (1 # 2))) = false /\
  exists u,
    In u (fst example_rave_result) /\
    rave_node u = 0%nat /\ rave_child u = 1%nat /\
    rave_move u = get_move (leaf 5%nat 8 (1 # 2)).
Proof.
  assert (H0 : m_rave_check_same example_search_rave = false) by reflexivity.
  assert (H1 : (Z.of_nat (length example_rave_moves)
                <= Limits.unsigned_max)%Z)
    by (unfold Limits.unsigned_max; simpl; lia).
  assert (H2 : forall p m, first_play_init p m = Limits.unsigned_max)
    by reflexivity.
  assert (H3 : update_rave_values example_search_rave 3 (fun _ => false)
                 example_rave_moves example_rave_eval example_rave_nodes
                 first_play_init
               = Some (fst example_rave_result, snd example_rave_result))
    by reflexivity.
  assert (H4 : nth_error example_rave_nodes 0
               = Some (mkNode 0%nat 20 (1 # 2) 0 0
                         [leaf 7%nat 12 (1 # 2); leaf 5%nat 8 (1 # 2)]))
    by reflexivity.
  assert (H5 : nth_error
                 (get_children
                    (mkNode 0%nat 20 (1 # 2) 0 0
                       [leaf 7%nat 12 (1 # 2); leaf 5%nat 8 (1 # 2)])) 1
               = Some (leaf 5%nat 8 (1 # 2))) by reflexivity.
  assert (H6 : (0 <= 3 < length example_rave_moves)%nat) by (simpl; lia).
  assert (H7 : get_state_move example_rave_moves 3
               = mkPlayerMove
                   (pm_player (get_state_move example_rave_moves 0))
                   (get_move (leaf 5%nat 8 (1 # 2)))) by reflexivity.
  assert (H8 : (fun _ : Move => false) (get_move (leaf 5%nat 8 (1 # 2)))
               = false) by reflexivity.
  split; [exact H0 | split; [exact H1 | split; [exact H2 | split; [exact H3 |
    split; [exact H4 | split; [exact H5 | split; [exact H6 |
    split; [exact H7 | split; [exact H8|]]]]]]]]].
  exact (update_rave_values_all_later_plays example_search_rave 3
           (fun _ => false) example_rave_moves example_rave_eval
           example_rave_nodes first_play_init (fst example_rave_result)
           (snd example_rave_result) 0 1 3 _ _ H0 H1 H2 H3 H4 H5 H6 H7 H8).
Defined.

(** ** The updates of the last good replies *)

Section LastGoodReplyFacts.

Variable nu_players : nat.
Variable moves : list PlayerMove.
Variable eval : nat -> Float.

Lemma max_eval_loop_bounds (l : list nat) :
  forall init,
    let r :=
      fold_left (fun max_eval i => Float_max2 (eval i) max_eval) l init in
    init <= r /\
    (forall i, In i l -> eval i <= r) /\
    (r = init \/ exists i, In i l /\ r = eval i).
Proof.
  induction l as [|i l IH]; intros init; simpl.
  - split; [lra|]. split; [intros ? [] | now left].
  - specialize (IH (Float_max2 (eval i) init)). cbv zeta in IH.
    destruct IH as (Hinit & Hall & Hatt).
    assert (Hm : init <= Float_max2 (eval i) init /\
                 eval i <= Float_max2 (eval i) init /\
                 (Float_max2 (eval i) init = init \/
                  Float_max2 (eval i) init = eval i)).
    { unfold Float_max2, Float_lt.
      destruct (Float_gt init (eval i)) eqn:Hgt.
      - apply Float_gt_true in Hgt. repeat split; try lra. now left.
      - apply Float_gt_false in Hgt. repeat split; try lra. now right. }
    destruct Hm as (Hm1 & Hm2 & Hm3).
    split; [lra|]. split.
    + intros j [<- | Hj]; [lra | now apply Hall].
    + destruct Hatt as [Hr | (j & Hj & Hr)].
      * destruct Hm3 as [Hm3 | Hm3].
        -- left. congruence.
        -- right. exists i. split; [now left | congruence].
      * right. exists j. split; [now right | exact Hr].
Qed.

(** [max_eval] is the highest evaluation of a player. *)
Lemma max_eval_highest :
  (1 <= nu_players)%nat ->
  (forall q, (q < nu_players)%nat -> eval q <= max_eval nu_players eval) /\
  exists q, (q < nu_players)%nat /\ max_eval nu_players eval = eval q.
Proof.
  intros Hn. unfold max_eval.
  pose proof (max_eval_loop_bounds (seq 1 (nu_players - 1)) (eval 0%nat))
    as H.
  cbv zeta in H. destruct H as (Hinit & Hall & Hatt). split.
  - intros q Hq. destruct q as [|q]; [exact Hinit|].
    apply Hall. apply in_seq. lia.
  - destruct Hatt as [Hr | (q & Hq & Hr)].
    + exists 0%nat. split; [lia | exact Hr].
    + exists q. apply in_seq in Hq. split; [lia | exact Hr].
Qed.

Lemma is_winner_highest (p : nat) :
  (1 <= nu_players)%nat ->
  (p < nu_players)%nat ->
  exists winner,
    is_winner nu_players eval p = Some winner /\
    (winner = true <->
     forall q, (q < nu_players)%nat -> eval q <= eval p).
Proof.
  intros Hn Hp. unfold is_winner.
  apply Nat.ltb_lt in Hp. rewrite Hp.
  exists (Float_eq (eval p) (max_eval nu_players eval)).
  split; [reflexivity|].
  destruct (max_eval_highest Hn) as (Hall & q0 & Hq0 & Hatt).
  rewrite Float_eq_true. split.
  - intros Heq q Hq. specialize (Hall q Hq). lra.
  - intros Hmax. specialize (Hmax q0 Hq0).
    apply Nat.ltb_lt in Hp. specialize (Hall p Hp).
    rewrite Hatt in *. lra.
Qed.

Lemma update_last_good_reply_loop_calls :
  (1 <= nu_players)%nat ->
  forall i,
    (forall j, (1 <= j <= i)%nat ->
       (pm_player (get_state_move moves j) < nu_players)%nat) ->
    exists calls,
      update_last_good_reply_loop nu_players moves eval i = Some calls /\
      length calls = i /\
      forall k call,
        nth_error calls k = Some call ->
        reply_player call = pm_player (get_state_move moves (i - k)) /\
        reply_move call = pm_move (get_state_move moves (i - k)) /\
        reply_last_move call
        = pm_move (get_state_move moves (i - k - 1)) /\
        reply_second_last_move call
        = (if (2 <=? i - k)%nat
           then Some (pm_move (get_state_move moves (i - k - 2)))
           else None) /\
        (is_store call = true <->
         forall q, (q < nu_players)%nat ->
           eval q <= eval (reply_player call)).
Proof.
  intros Hn. induction i as [|i IH]; intros Hplayers.
  - exists []. split; [reflexivity|]. split; [reflexivity|].
    intros [|k] call Hk; discriminate.
  - destruct IH as (calls & Hloop & Hlen & Hcalls).
    { intros j Hj. apply Hplayers. lia. }
    cbn [update_last_good_reply_loop].
    assert (Hp : (pm_player (get_state_move moves (S i)) < nu_players)%nat)
      by (apply Hplayers; lia).
    destruct (is_winner_highest _ Hn Hp) as (winner & Hw & Hwin).
    rewrite Hw, Hloop.
    eexists. split; [reflexivity|]. split; [simpl; now rewrite Hlen|].
    intros [|k] call Hk.
    + injection Hk as <-. rewrite Nat.sub_0_r.
      replace (S i - 1)%nat with i by lia.
      destruct winner; cbn;
        (split; [reflexivity|]; split; [reflexivity|];
         split; [reflexivity|]; split; [reflexivity|]).
      * split; [intros _; now apply Hwin | reflexivity].
      * split; [discriminate | intros H; now apply Hwin].
    + simpl in Hk. assert (Hklt : (k < i)%nat)
        by (rewrite <- Hlen; apply nth_error_Some; congruence).
      replace (S i - S k)%nat with (i - k)%nat by lia.
      now apply Hcalls.
Qed.

(** X15.  [update_last_good_reply] makes one call for every ply but the
    first, from the last ply down: for the player and the move of the
    ply, keyed by the moves of the one or two plies before it.  The call
    is a [store] exactly when no player has a higher evaluation than the
    player of the reply, so that a draw counts as a win for all players
    that share the highest evaluation, and a [forget] otherwise. *)
Theorem update_last_good_reply_calls :
  (1 <= nu_players)%nat ->
  (forall mv, In mv moves -> (pm_player mv < nu_players)%nat) ->
  exists calls,
    update_last_good_reply nu_players moves eval = Some calls /\
    length calls = (length moves - 1)%nat /\
    forall k call,
      nth_error calls k = Some call ->
      let i := (length moves - 1 - k)%nat in
      reply_player call = pm_player (get_state_move moves i) /\
      reply_move call = pm_move (get_state_move moves i) /\
      reply_last_move call = pm_move (get_state_move moves (i - 1)) /\
      reply_second_last_move call
      = (if (2 <=? i)%nat
         then Some (pm_move (get_state_move moves (i - 2)))
         else None) /\
      (is_store call = true <->
       forall q, (q < nu_players)%nat -> eval q <= eval (reply_player call)).
Proof.
  intros Hn Hplayers. unfold update_last_good_reply.
  destruct (1 <? length moves)%nat eqn:Hl.
  - apply Nat.ltb_lt in Hl.
    apply update_last_good_reply_loop_calls; trivial.
    intros j Hj. apply Hplayers. apply nth_In. lia.
  - apply Nat.ltb_ge in Hl. exists [].
    split; [reflexivity|]. split; [simpl; lia|].
    intros [|k] call Hk; discriminate.
Qed.

End LastGoodReplyFacts.

Lemma update_last_good_reply_calls_witness :
  (1 <= 2)%nat /\
  (forall mv, In mv example_reply_moves -> (pm_player mv < 2)%nat) /\
  exists calls,
    update_last_good_reply 2 example_reply_moves example_draw_eval
    = Some calls /\
    length calls = (length example_reply_moves - 1)%nat /\
    forall k call,
      nth_error calls k = Some call ->
      let i := (length example_reply_moves - 1 - k)%nat in
      reply_player call = pm_player (get_state_move example_reply_moves i) /\
      reply_move call = pm_move (get_state_move example_reply_moves i) /\
      reply_last_move call
      = pm_move (get_state_move example_reply_moves (i - 1)) /\
      reply_second_last_move call
      = (if (2 <=? i)%nat
         then Some (pm_move (get_state_move example_reply_moves (i - 2)))
         else None) /\
      (is_store call = true <->
       forall q, (q < 2)%nat ->
         example_draw_eval q <= example_draw_eval (reply_player call)).
Proof.
  assert (H1 : (1 <= 2)%nat) by lia.
  assert (H2 : forall mv, In mv example_reply_moves ->
                 (pm_player mv < 2)%nat).
  { intros mv [<- | [<- | [<- | []]]]; simpl; lia. }
  split; [exact H1 | split; [exact H2|]].
  exact (update_last_good_reply_calls 2 example_reply_moves
           example_draw_eval H1 H2).
Defined.

Example update_last_good_reply_draw :
  update_last_good_reply 2 example_reply_moves example_draw_eval
  = Some [ReplyStore 0%nat 4%nat (Some 3%nat) 6%nat;
          ReplyStore 1%nat 3%nat None 4%nat].
Proof. reflexivity. Qed.

(** ** The values added along the path *)

Section UpdateValuesFacts.

Variable s : Search.
Variable nu_players : nat.
Variable skip_rave : Move -> bool.
Variable moves : list PlayerMove.
Variable eval : nat -> Float.
Variable nodes : list Node.
Variable player : nat.

Lemma update_values_nodes_nth (i : nat) (v : ValueUpdate) :
  nth_error (update_values_nodes moves eval nodes player) (S i) = Some v ->
  (S i < length nodes)%nat /\
  v = mkValueUpdate (S i) (eval (pm_player (get_state_move moves i))).
Proof.
  unfold update_values_nodes. cbn [nth_error].
  rewrite nth_error_map, nth_error_seq.
  destruct (i <? length nodes - 1)%nat eqn:Hi; [|discriminate].
  apply Nat.ltb_lt in Hi. cbn [option_map]. intros [= <-].
  split; [lia|].
  cbn. now rewrite Nat.sub_0_r.
Qed.

(** X16.  [update_values] adds one value to every node of the path, in the
    order of the path: to the root the evaluation for the player of the
    search, and to the node that ply [i] leads to the evaluation for the
    player of that ply.  This is the evaluation that [update_rave_values]
    adds as the RAVE value to the children of the node at index [i]. *)
Theorem update_values_along_path :
  nodes <> [] ->
  map value_node (update_values_nodes moves eval nodes player)
  = seq 0 (length nodes) /\
  nth_error (update_values_nodes moves eval nodes player) 0
  = Some (mkValueUpdate 0 (eval player)) /\
  (forall i v,
      nth_error (update_values_nodes moves eval nodes player) (S i) = Some v ->
      value_value v = eval (pm_player (get_state_move moves i))) /\
  (forall first_play updates first_play' u v,
      (Z.of_nat (length moves) <= Limits.unsigned_max)%Z ->
      (forall p m, first_play p m = Limits.unsigned_max) ->
      update_rave_values s nu_players skip_rave moves eval nodes first_play
      = Some (updates, first_play') ->
      In u updates ->
      nth_error (update_values_nodes moves eval nodes player)
        (S (rave_node u)) = Some v ->
      value_value v = rave_value u).
Proof.
  intros Hnodes.
  assert (Hlen : (1 <= length nodes)%nat).
  { destruct nodes; [now elim Hnodes | simpl; lia]. }
  split; [|split; [reflexivity|split]].
  - unfold update_values_nodes. cbn [map value_node].
    rewrite map_map. cbn [value_node]. rewrite map_id.
    replace (length nodes) with (S (length nodes - 1)) at 2 by lia.
    reflexivity.
  - intros i v Hv. apply update_values_nodes_nth in Hv.
    destruct Hv as [_ ->]. reflexivity.
  - intros first_play updates first_play' u v Hmoves Hfp Hrun Hin Hv.
    apply update_values_nodes_nth in Hv. destruct Hv as [_ ->].
    destruct (update_rave_values_updates s nu_players skip_rave moves eval
                nodes first_play updates first_play' u Hmoves Hfp Hrun Hin)
      as (node & c & j & _ & _ & _ & _ & Hval & _).
    now rewrite Hval.
Qed.

End UpdateValuesFacts.

Lemma update_values_along_path_witness :
  example_rave_nodes <> [] /\
  map value_node
    (update_values_nodes example_rave_moves example_rave_eval
       example_rave_nodes 1)
  = seq 0 (length example_rave_nodes) /\
  nth_error
    (update_values_nodes example_rave_moves example_rave_eval
       example_rave_nodes 1) 0
  = Some (mkValueUpdate 0 (example_rave_eval 1)) /\
  (forall i v,
      nth_error
        (update_values_nodes example_rave_moves example_rave_eval
           example_rave_nodes 1) (S i) = Some v ->
      value_value v
      = example_rave_eval (pm_player (get_state_move example_rave_moves i))) /\
  (forall first_play updates first_play' u v,
      (Z.of_nat (length example_rave_moves) <= Limits.unsigned_max)%Z ->
      (forall p m, first_play p m = Limits.unsigned_max) ->
      update_rave_values example_search_rave 3 (fun _ => false)
        example_rave_moves example_rave_eval example_rave_nodes first_play
      = Some (updates, first_play') ->
      In u updates ->
      nth_error
        (update_values_nodes example_rave_moves example_rave_eval
           example_rave_nodes 1) (S (rave_node u)) = Some v ->
      value_value v = rave_value u).
Proof.
  assert (H : example_rave_nodes <> []) by discriminate.
  split; [exact H|].
  exact (update_values_along_path example_search_rave 3 (fun _ => false)
           example_rave_moves example_rave_eval example_rave_nodes 1 H).
Defined.

(** ** The descent in the tree *)





Section PlayInTreeFacts.

Variable round : Q -> Float.
Variable Float_max : Float.
Variable sqrtF : Float -> Float.
Variable BiasTerm_get : Float -> Float -> Float -> Float.
Variable s : Search.
Variable expand_node : Node -> Float -> option (option Node).



End PlayInTreeFacts.


Example play_in_tree_example :
  play_in_tree round_single Float_max_single example_sqrt example_bias
    example_search_rave example_expand_node 4 example_select_node (1 # 2)
  = Done (mkInTree
            [mkNode 2%nat 4 (6 # 10) 10 (5 # 10) []; leaf 9%nat 0 (1 # 2)]
            [2%nat; 9%nat] false false).
Proof. vm_compute. reflexivity. Qed.

(** ** Pruning and the number of simulations of a search *)

Lemma prune_thresholds_app (a b : list Event) :
  prune_thresholds (a ++ b) = prune_thresholds a ++ prune_thresholds b.
Proof. unfold prune_thresholds. apply flat_map_app. Qed.

Lemma count_search_loops_app (a b : list Event) :
  count_search_loops (a ++ b)
  = (count_search_loops a + count_search_loops b)%nat.
Proof.
  unfold count_search_loops. now rewrite filter_app, length_app.
Qed.

Lemma loop_events_no_prune (evs : list Event) :
  forallb is_loop_event evs = true ->
  prune_thresholds evs = [] /\ count_search_loops evs = 0%nat.
Proof.
  induction evs as [|e evs IH]; intros H; [now split|].
  simpl in H. apply andb_true_iff in H. destruct H as [He H].
  destruct (IH H) as [IH1 IH2].
  unfold prune_thresholds, count_search_loops in *. simpl.
  rewrite IH1. destruct e; try discriminate He; simpl; now rewrite ?IH2.
Qed.

Lemma simulation_numbers_app (a b : list Event) :
  simulation_numbers (a ++ b) = simulation_numbers a ++ simulation_numbers b.
Proof. unfold simulation_numbers. apply flat_map_app. Qed.

Lemma simulation_numbers_length (evs : list Event) :
  count_simulations evs = Z.of_nat (length (simulation_numbers evs)).
Proof.
  induction evs as [|e evs IH]; [reflexivity|].
  rewrite count_simulations_cons, IH.
  destruct e; cbn [is_simulation simulation_numbers flat_map app length];
    fold (simulation_numbers evs); lia.
Qed.

Lemma no_simulation_numbers (evs : list Event) :
  count_simulations evs = 0%Z -> simulation_numbers evs = [].
Proof.
  rewrite simulation_numbers_length.
  destruct (simulation_numbers evs); [reflexivity | simpl; lia].
Qed.

Lemma numbers_from_S (n : Z) (k : nat) :
  numbers_from n (S k) = Limits.wrap_size_t n :: numbers_from (n + 1) k.
Proof.
  unfold numbers_from. cbn [seq map].
  rewrite Z.add_0_r. f_equal.
  rewrite <- seq_shift, map_map. apply map_ext.
  intros i. f_equal. lia.
Qed.

Lemma numbers_from_app (n : Z) (a b : nat) :
  numbers_from n (a + b)
  = numbers_from n a ++ numbers_from (n + Z.of_nat a) b.
Proof.
  revert n. induction a as [|a IH]; intros n.
  - cbn [Nat.add numbers_from seq map app]. unfold numbers_from.
    apply map_ext. intros i. f_equal. lia.
  - cbn [Nat.add]. rewrite !numbers_from_S, IH. cbn [app]. f_equal. f_equal.
    unfold numbers_from. apply map_ext. intros i. f_equal. lia.
Qed.

Lemma expensive_after_cheap_app (a b : list Event) :
  expensive_after_cheap a -> expensive_after_cheap b ->
  expensive_after_cheap (a ++ b).
Proof.
  intros Ha Hb pre rc post Heq.
  apply app_eq_app in Heq.
  destruct Heq as (l & [[-> Hl] | [-> Hl]]).
  - destruct l as [|e l].
    + cbn in Hl. symmetry in Hl. destruct (Hb [] rc post Hl) as (pre' & Hp).
      destruct pre'; discriminate.
    + injection Hl as <- _. exact (Ha pre rc l eq_refl).
  - destruct (Hb l rc post Hl) as (pre' & ->).
    exists (a ++ pre'). now rewrite app_assoc.
Qed.

Lemma expensive_after_cheap_nil : expensive_after_cheap [].
Proof. intros [|e pre] rc post H; discriminate. Qed.

Lemma expensive_after_cheap_one (e : Event) :
  (forall root_count, e <> EvCheckAbortExpensive root_count) ->
  expensive_after_cheap [e].
Proof.
  intros He [|e' pre] rc post H.
  - injection H as -> _. now elim (He rc).
  - destruct pre; discriminate.
Qed.

Lemma expensive_after_cheap_pair (root_count : Float) :
  expensive_after_cheap
    [EvCheckAbort root_count; EvCheckAbortExpensive root_count].
Proof.
  intros [|e [|e' pre]] rc post H.
  - discriminate.
  - injection H as <- <- _. now exists [].
  - destruct pre; discriminate.
Qed.

Section SearchShape.

Context {D : Type}.
Variable h : Host D.
Variable s : Search.

(** The events of the search loop and the counter of simulations when the
    loop is left: the counter is incremented at the head of every
    iteration, also of the one that ends the loop at an abort
    condition. *)
Lemma search_loop_iterate_shape (fuel : nat) :
  forall (st : SearchState D) (n : Z) (exit : LoopExit) (st' : SearchState D),
    (0 <= n)%Z ->
    m_nu_simulations st = Limits.wrap_size_t n ->
    search_loop_iterate h fuel st = (exit, st') ->
    exists more,
      m_events st' = m_events st ++ more /\
      forallb is_loop_event more = true /\
      simulation_numbers more
      = numbers_from n (length (simulation_numbers more)) /\
      expensive_after_cheap more /\
      match exit with
      | ExitBreak =>
          m_nu_simulations st'
          = Limits.wrap_size_t (n + count_simulations more + 1) /\
          is_out_of_mem st' = false
      | ExitOutOfMem =>
          m_nu_simulations st'
          = Limits.wrap_size_t (n + count_simulations more) /\
          is_out_of_mem st' = true
      | ExitFuel => True
      end.
Proof.
  induction fuel as [|fuel IH]; intros st n exit st' Hn Hnu Hrun.
  - injection Hrun as <- <-. exists []. rewrite app_nil_r.
    split; [reflexivity|]. split; [reflexivity|]. split; [reflexivity|].
    split; [apply expensive_after_cheap_nil | exact I].
  - cbn [search_loop_iterate] in Hrun.
    destruct (if Float_gt _ 0 && Float_gt _ _ then _ else _)
      as [abort st1] eqn:Hhead.
    assert (Hst1 :
      exists checks,
        m_events st1 = m_events st ++ checks /\
        forallb is_loop_event checks = true /\
        count_simulations checks = 0%Z /\
        expensive_after_cheap checks /\
        m_nu_simulations st1 = Limits.wrap_size_t (n + 1) /\
        is_out_of_mem st1 = false).
    { assert (Hw : Limits.wrap_size_t (m_nu_simulations st + 1)
                   = Limits.wrap_size_t (n + 1))
        by (rewrite Hnu; apply wrap_size_t_succ).
      destruct (Float_gt _ 0 && Float_gt _ _).
      - destruct (check_abort h _).
        + injection Hhead as <- <-. eexists. cbn.
          split; [reflexivity|]. split; [reflexivity|].
          split; [reflexivity|].
          split; [apply expensive_after_cheap_one; discriminate|].
          split; [exact Hw | reflexivity].
        + destruct (expensive_abort_checker h _) as [abort' env].
          injection Hhead as <- <-. eexists. cbn.
          rewrite <- app_assoc.
          split; [reflexivity|]. split; [reflexivity|].
          split; [reflexivity|].
          split; [apply expensive_after_cheap_pair|].
          split; [exact Hw | reflexivity].
      - injection Hhead as <- <-. exists []. cbn.
        rewrite app_nil_r.
        split; [reflexivity|]. split; [reflexivity|].
        split; [reflexivity|].
        split; [apply expensive_after_cheap_nil|].
        split; [exact Hw | reflexivity]. }
    destruct Hst1 as (checks & Hev1 & Hl1 & Hc1 & Hp1 & Hnu1 & Hoom1).
    pose proof (no_simulation_numbers checks Hc1) as Hn1.
    destruct abort.
    + injection Hrun as <- <-. exists checks.
      split; [exact Hev1|]. split; [exact Hl1|].
      split; [now rewrite Hn1|]. split; [exact Hp1|].
      rewrite Hc1, Z.add_0_r. now split.
    + match type of Hrun with
      | context [simulation h ?k ?x] =>
          set (r := simulation h k x) in *
      end.
      assert (Hsim : expensive_after_cheap
                       [EvSimulation (m_nu_simulations st)])
        by (apply expensive_after_cheap_one; discriminate).
      destruct (sim_is_out_of_mem r) eqn:Hoom.
      * injection Hrun as <- <-.
        exists (checks ++ [EvSimulation (m_nu_simulations st)]).
        cbn. rewrite Hev1, <- app_assoc. split; [reflexivity|].
        split; [rewrite forallb_app, Hl1; reflexivity|].
        split; [rewrite simulation_numbers_app, Hn1; cbn;
                now rewrite Hnu, Z.add_0_r|].
        split; [now apply expensive_after_cheap_app|].
        rewrite count_simulations_app, Hc1.
        split; [|exact Hoom].
        rewrite Hnu1. f_equal.
      * apply IH with (n := (n + 1)%Z) in Hrun; [|lia|exact Hnu1].
        destruct Hrun as (more & Hev & Hl & Hnum & Hp & Hexit).
        exists (checks ++ EvSimulation (m_nu_simulations st) :: more).
        cbn in Hev. rewrite Hev, Hev1, <- !app_assoc.
        split; [reflexivity|].
        split; [rewrite forallb_app, Hl1; cbn; exact Hl|].
        split.
        { rewrite simulation_numbers_app, Hn1.
          cbn [app simulation_numbers flat_map length].
          fold (simulation_numbers more).
          rewrite numbers_from_S, <- Hnum, Hnu. reflexivity. }
        split.
        { apply expensive_after_cheap_app; trivial.
          now apply (expensive_after_cheap_app [_] more). }
        rewrite count_simulations_app, count_simulations_cons, Hc1.
        cbn [is_simulation].
        destruct exit; trivial;
          destruct Hexit as [Hnu' Hoom']; (split; [|exact Hoom']);
          rewrite Hnu'; f_equal; lia.
Qed.

Lemma prune_shape (st st' : SearchState D) (time max_time : Q)
    (prune_min_count new_prune_min_count : Float) (pruned : bool) :
  prune h s st time max_time prune_min_count
  = (pruned, new_prune_min_count, st') ->
  exists more,
    m_events st' = m_events st ++ more /\
    prune_thresholds more = [prune_min_count] /\
    count_search_loops more = 0%nat /\
    count_simulations more = 0%Z /\
    expensive_after_cheap more /\
    (new_prune_min_count = prune_min_count \/
     new_prune_min_count = prune_min_count * 2) /\
    m_nu_simulations st' = m_nu_simulations st /\
    is_out_of_mem st' = is_out_of_mem st.
Proof.
  unfold prune.
  destruct (Tree_copy_subtree h _ _ _ _ _ _) as [[copied tmp_tree] env].
  assert (Hp1 : expensive_after_cheap [EvPrune prune_min_count])
    by (apply expensive_after_cheap_one; discriminate).
  assert (Hp2 : expensive_after_cheap [EvPrune prune_min_count; EvSwapTrees]).
  { apply (expensive_after_cheap_app [_] [_]); trivial.
    apply expensive_after_cheap_one; discriminate. }
  destruct copied; cbn [negb].
  - destruct (50 <? _)%Z;
      [destruct (Float_ge prune_min_count ((1 # 2) * Float_max h))|];
      intros [= <- <- <-];
      exists [EvPrune prune_min_count; EvSwapTrees]; cbn;
      rewrite <- app_assoc; auto 10.
  - intros [= <- <- <-]. exists [EvPrune prune_min_count]. cbn. auto 10.
Qed.

(** The rounds of search loop and pruning. *)
Lemma search_rounds_shape (fuel loop_fuel : nat) (nu_threads : Z) :
  forall (st : SearchState D) (n : Z) (max_time : Q) (prune_min_count : Float)
         (finished : bool) (st' : SearchState D),
    (0 <= n)%Z ->
    m_nu_simulations st = Limits.wrap_size_t n ->
    search_rounds h s fuel loop_fuel nu_threads st max_time prune_min_count
    = (finished, st') ->
    exists more,
      m_events st' = m_events st ++ more /\
      doubling_chain prune_min_count (prune_thresholds more) /\
      simulation_numbers more
      = numbers_from n (length (simulation_numbers more)) /\
      expensive_after_cheap more /\
      (finished = true ->
       m_nu_simulations st'
       = Limits.wrap_size_t
           (n + count_simulations more
            + (if is_out_of_mem st' then 0 else 1))) /\
      (m_prune_full_tree s = false ->
       prune_thresholds more = [] /\ (count_search_loops more <= 1)%nat).
Proof.
  induction fuel as [|fuel IH];
    intros st n max_time prune_min_count finished st' Hn Hnu Hrun.
  - injection Hrun as <- <-. exists []. rewrite app_nil_r.
    split; [reflexivity|]. split; [exact I|]. split; [reflexivity|].
    split; [apply expensive_after_cheap_nil|].
    split; [discriminate|]. intros _. split; [reflexivity | cbn; lia].
  - cbn [search_rounds] in Hrun.
    destruct (search_loop h s loop_fuel
                (log_event (EvSearchLoop nu_threads (m_tree st)) st))
      as [exit st1] eqn:Hloop.
    unfold search_loop in Hloop.
    apply search_loop_iterate_shape with (n := n) in Hloop; trivial.
    destruct Hloop as (more & Hev & Hl & Hnum & Hpair & Hexit).
    cbn [log_event set_env m_events] in Hev.
    rewrite <- app_assoc in Hev. cbn [app] in Hev.
    destruct (loop_events_no_prune more Hl) as [Hnp Hnl].
    set (more' := EvSearchLoop nu_threads (m_tree st) :: more) in *.
    assert (Hnp' : prune_thresholds more' = [])
      by (unfold more'; cbn; exact Hnp).
    assert (Hnl' : count_search_loops more' = 1%nat)
      by (unfold more', count_search_loops in *; cbn; now rewrite Hnl).
    assert (Hc' : count_simulations more' = count_simulations more)
      by (unfold more'; now rewrite count_simulations_cons).
    assert (Hnum' : simulation_numbers more' = simulation_numbers more)
      by reflexivity.
    assert (Hpair' : expensive_after_cheap more').
    { apply (expensive_after_cheap_app [_] more); trivial.
      apply expensive_after_cheap_one; discriminate. }
    assert (Hdone :
      m_events st1 = m_events st ++ more' /\
      doubling_chain prune_min_count (prune_thresholds more') /\
      simulation_numbers more'
      = numbers_from n (length (simulation_numbers more')) /\
      expensive_after_cheap more').
    { split; [exact Hev|]. rewrite Hnp', Hnum'.
      split; [exact I|]. now split. }
    destruct Hdone as (Hd1 & Hd2 & Hd3 & Hd4).
    destruct exit.
    + (* break *)
      destruct Hexit as [Hnu1 Hoom]. rewrite Hoom in Hrun. cbn in Hrun.
      injection Hrun as <- <-. exists more'.
      split; [exact Hd1|]. split; [exact Hd2|]. split; [exact Hd3|].
      split; [exact Hd4|].
      split; [intros _; now rewrite Hoom, Hc'|].
      intros _. split; [exact Hnp' | lia].
    + (* out of memory *)
      destruct Hexit as [Hnu1 Hoom]. rewrite Hoom in Hrun. cbn [negb] in Hrun.
      destruct (m_prune_full_tree s) eqn:Hpft; cbn [negb] in Hrun.
      * destruct (prune h s st1 _ _ prune_min_count)
          as [[pruned new_min] st2] eqn:Hprune.
        apply prune_shape in Hprune.
        destruct Hprune
          as (pm & Hev2 & Hth & Hpl & Hpc & Hpp & Hnew & Hnu2 & Hoom2).
        pose proof (no_simulation_numbers pm Hpc) as Hpn.
        destruct pruned; cbn [negb] in Hrun.
        -- apply IH with (n := (n + count_simulations more)%Z) in Hrun.
           ++ destruct Hrun
                as (more3 & Hev3 & Hchain & Hnum3 & Hpair3 & Hfin & _).
              exists (more' ++ pm ++ more3).
              rewrite Hev3, Hev2, Hev, <- !app_assoc.
              split; [reflexivity|]. split; [|split; [|split; [|split]]].
              ** rewrite !prune_thresholds_app, Hnp', Hth. cbn.
                 split; [reflexivity|].
                 destruct Hnew as [-> | ->]; [now left | now right].
              ** rewrite !simulation_numbers_app, Hpn, Hnum'. cbn [app].
                 rewrite length_app, numbers_from_app.
                 rewrite <- Hnum.
                 rewrite simulation_numbers_length in Hnum3.
                 now rewrite <- Hnum3.
              ** apply expensive_after_cheap_app; trivial.
                 now apply expensive_after_cheap_app.
              ** intros Hf. rewrite (Hfin Hf). f_equal.
                 rewrite !count_simulations_app, Hc', Hpc. lia.
              ** intros Hno. discriminate Hno.
           ++ pose proof (count_simulations_nonneg more). lia.
           ++ now rewrite Hnu2.
        -- injection Hrun as <- <-. exists (more' ++ pm).
           rewrite Hev2, Hev, <- app_assoc.
           split; [reflexivity|]. split; [|split; [|split; [|split]]].
           ++ rewrite prune_thresholds_app, Hnp', Hth. cbn.
              split; [reflexivity | now left].
           ++ rewrite simulation_numbers_app, Hpn, app_nil_r. exact Hd3.
           ++ now apply expensive_after_cheap_app.
           ++ intros _. rewrite Hoom2, Hoom, Hnu2, Hnu1. f_equal.
              rewrite count_simulations_app, Hc', Hpc. lia.
           ++ intros Hno. discriminate Hno.
      * injection Hrun as <- <-. exists more'.
        split; [exact Hd1|]. split; [exact Hd2|]. split; [exact Hd3|].
        split; [exact Hd4|].
        split; [intros _; rewrite Hoom, Hc', Hnu1; f_equal; lia|].
        intros _. split; [exact Hnp' | lia].
    + (* out of fuel *)
      injection Hrun as <- <-. exists more'.
      split; [exact Hd1|]. split; [exact Hd2|]. split; [exact Hd3|].
      split; [exact Hd4|].
      split; [discriminate|]. intros _. split; [exact Hnp' | lia].
Qed.

(** The first part of [search] neither prunes nor starts the search
    loop. *)
Lemma search_prepare_shape (st : SearchState D) (max_count : Float)
    (max_time : Q) (always_search : bool) :
  exists more,
    m_events (prepared_state
                (search_prepare h s st max_count max_time always_search))
    = m_events st ++ more /\
    prune_thresholds more = [] /\ count_search_loops more = 0%nat /\
    count_simulations more = 0%Z /\ expensive_after_cheap more.
Proof.
  assert (Hc : expensive_after_cheap [EvClearTree])
    by (apply expensive_after_cheap_one; discriminate).
  assert (He : expensive_after_cheap [EvExtractSubtree])
    by (apply expensive_after_cheap_one; discriminate).
  assert (Hes : expensive_after_cheap [EvExtractSubtree; EvSwapTrees]).
  { apply (expensive_after_cheap_app [_] [_]); trivial.
    apply expensive_after_cheap_one; discriminate. }
  assert (Hec : expensive_after_cheap [EvExtractSubtree; EvClearTree])
    by (now apply (expensive_after_cheap_app [_] [_])).
  unfold search_prepare.
  destruct (check_followup h (m_env st)) as [[is_followup sequence] env].
  set (is_same := match sequence with [] => is_followup | _ :: _ => false end).
  set (followup := match sequence with [] => false | _ :: _ => is_followup end).
  set (st0 := search_init_values h st followup is_same sequence env).
  assert (Hev0 : m_events st0 = m_events st) by reflexivity.
  assert (Hclear : exists more,
            m_events (clear_tree_if h true st0) = m_events st ++ more /\
            prune_thresholds more = [] /\ count_search_loops more = 0%nat /\
            count_simulations more = 0%Z /\ expensive_after_cheap more).
  { exists [EvClearTree]. cbn. rewrite ?Hev0. auto. }
  destruct ((m_reuse_subtree s && followup || m_reuse_tree s && is_same)
            && ReuseParam_eqb (get_reuse_param s) (m_last_reuse_param st0));
    [|exact Hclear].
  destruct sequence as [|mv sequence]; [exact Hclear|].
  unfold search_reuse_subtree.
  destruct (find_node h _ _) as [node|].
  - cbn [log_event m_tree m_tmp_tree m_env set_trees].
    destruct (Tree_extract_subtree h _ _ _ _ _ _)
      as [[extracted tmp_tree] env'].
    destruct (negb is_same); cbn;
      (destruct (negb extracted && negb always_search); cbn;
       [exists [EvExtractSubtree]; rewrite ?Hev0; auto 10|]);
      (destruct ((1 <? _)%Z && (1 <? _)%Z)%bool; cbn;
       [exists [EvExtractSubtree; EvSwapTrees]
       |exists [EvExtractSubtree; EvClearTree]];
       rewrite ?Hev0, <- ?app_assoc; auto 10).
  - cbn. exists [EvClearTree]. rewrite ?Hev0. auto 10.
Qed.

(** The events of a search that goes on after its first part. *)
Lemma search_shape (fuel : nat) (st st1 : SearchState D)
    (max_count min_simulations : Float) (max_time max_time1 : Q)
    (always_search is_followup : bool) :
  search_prepare h s st max_count max_time always_search
  = PreparedSearch st1 max_time1 is_followup ->
  let r :=
    search h s fuel st max_count min_simulations max_time always_search in
  let evs := new_events st (search_state r) in
  doubling_chain (m_prune_count_start s) (prune_thresholds evs) /\
  simulation_numbers evs = numbers_from 0 (length (simulation_numbers evs)) /\
  expensive_after_cheap evs /\
  (m_prune_full_tree s = false ->
   prune_thresholds evs = [] /\ (count_search_loops evs <= 1)%nat) /\
  (forall result,
      search_returned r = Some result ->
      m_nu_simulations (search_state r)
      = Limits.wrap_size_t
          (count_simulations evs
           + (if is_out_of_mem (search_state r) then 0 else 1)) /\
      (search_mv r, result)
      = select_move (Float_max h) (get_root (m_tree (search_state r))) None).
Proof.
  intros Hprep. cbv zeta.
  destruct (search_prepare_shape st max_count max_time always_search)
    as (first & Hev1 & Hp1 & Hl1 & Hc1 & Hpair1).
  unfold search. rewrite Hprep in *. cbn [prepared_state] in Hev1.
  set (st2 := search_start h s st1 max_count min_simulations max_time1
                is_followup).
  destruct (search_start_fields h s st1 max_count min_simulations max_time1
              is_followup) as (Hev2 & _ & Hnu2 & _).
  fold st2 in Hev2, Hnu2.
  destruct (search_rounds h s fuel fuel
              (search_nu_threads h s st2 max_count max_time1) st2 max_time1
              (m_prune_count_start s)) as [finished st3] eqn:Hrounds.
  apply search_rounds_shape with (n := 0%Z) in Hrounds; [|lia|exact Hnu2].
  destruct Hrounds as (more & Hev3 & Hchain & Hnum & Hpair & Hfin & Hno).
  rewrite Hev2, Hev1, <- app_assoc in Hev3.
  assert (Hth : prune_thresholds (first ++ more) = prune_thresholds more)
    by (now rewrite prune_thresholds_app, Hp1).
  assert (Hcl : count_search_loops (first ++ more) = count_search_loops more)
    by (now rewrite count_search_loops_app, Hl1).
  assert (Hcs : count_simulations (first ++ more) = count_simulations more)
    by (now rewrite count_simulations_app, Hc1).
  assert (Hsn : simulation_numbers (first ++ more) = simulation_numbers more)
    by (now rewrite simulation_numbers_app, (no_simulation_numbers first Hc1)).
  assert (Hpa : expensive_after_cheap (first ++ more))
    by (now apply expensive_after_cheap_app).
  destruct finished.
  - destruct (select_move (Float_max h)
                (get_root (m_tree (set_last_time (timer_elapsed h st3) st3)))
                None) as [mv result] eqn:Hsel.
    cbn [search_state search_returned search_mv].
    rewrite (new_events_app st _ (first ++ more)) by exact Hev3.
    rewrite Hth, Hcl, Hcs, Hsn.
    split; [exact Hchain|]. split; [exact Hnum|]. split; [exact Hpa|].
    split; [exact Hno|].
    intros result' [= <-]. split.
    + cbn. rewrite (Hfin eq_refl). reflexivity.
    + now rewrite Hsel.
  - cbn [search_state search_returned search_mv].
    rewrite (new_events_app st _ (first ++ more)) by exact Hev3.
    rewrite Hth, Hcl, Hsn.
    split; [exact Hchain|]. split; [exact Hnum|]. split; [exact Hpa|].
    split; [exact Hno|]. discriminate.
Qed.

(** X18.  The minimum counts of the prune passes of a search begin with
    [prune_count_start], and every further pass uses the minimum count of
    the pass before it or its double. *)
Theorem search_prune_thresholds (fuel : nat) (st : SearchState D)
    (max_count min_simulations : Float) (max_time : Q)
    (always_search : bool) :
  let r :=
    search h s fuel st max_count min_simulations max_time always_search in
  doubling_chain (m_prune_count_start s)
    (prune_thresholds (new_events st (search_state r))).
Proof.
  cbv zeta.
  destruct (search_prepare h s st max_count max_time always_search)
    as [st1 | st1 max_time1 is_followup] eqn:Hprep.
  - destruct (search_prepare_shape st max_count max_time always_search)
      as (first & Hev1 & Hp1 & _).
    unfold search. rewrite Hprep in *. cbn [prepared_state] in Hev1.
    cbn [search_state].
    rewrite (new_events_app st _ first) by exact Hev1.
    now rewrite Hp1.
  - apply (search_shape fuel st st1 max_count min_simulations max_time
             max_time1 always_search is_followup Hprep).
Qed.

(** X19.  Without [prune_full_tree] a search never prunes and starts the
    search loop at most once: it ends when the tree is full. *)
Theorem search_without_pruning (fuel : nat) (st : SearchState D)
    (max_count min_simulations : Float) (max_time : Q)
    (always_search : bool) :
  m_prune_full_tree s = false ->
  let r :=
    search h s fuel st max_count min_simulations max_time always_search in
  prune_thresholds (new_events st (search_state r)) = [] /\
  (count_search_loops (new_events st (search_state r)) <= 1)%nat.
Proof.
  intros Hno. cbv zeta.
  destruct (search_prepare h s st max_count max_time always_search)
    as [st1 | st1 max_time1 is_followup] eqn:Hprep.
  - destruct (search_prepare_shape st max_count max_time always_search)
      as (first & Hev1 & Hp1 & Hl1 & _).
    unfold search. rewrite Hprep in *. cbn [prepared_state] in Hev1.
    cbn [search_state].
    rewrite (new_events_app st _ first) by exact Hev1.
    rewrite Hp1, Hl1. split; [reflexivity | lia].
  - destruct (search_shape fuel st st1 max_count min_simulations max_time
                max_time1 always_search is_followup Hprep)
      as (_ & _ & _ & Hnone & _).
    now apply Hnone.
Qed.

(** X20.  A search that runs the search loop returns [true] exactly when
    the root of the tree it leaves has children, and the move it returns
    is then the move of a child of the root with the highest visit
    count; for a root without children it returns [false] and leaves the
    move as it was. *)
Theorem search_result_move (fuel : nat) (st st1 : SearchState D)
    (max_count min_simulations : Float) (max_time max_time1 : Q)
    (always_search is_followup result : bool) :
  search_prepare h s st max_count max_time always_search
  = PreparedSearch st1 max_time1 is_followup ->
  let r :=
    search h s fuel st max_count min_simulations max_time always_search in
  let root := get_root (m_tree (search_state r)) in
  search_returned r = Some result ->
  (forall c, In c (get_children root) -> 0 <= get_count c) ->
  if has_children root
  then
    result = true /\
    exists c,
      In c (get_children root) /\ search_mv r = Some (get_move c) /\
      forall c', In c' (get_children root) -> get_count c' <= get_count c
  else result = false /\ search_mv r = None.
Proof.
  intros Hprep r root Hret Hpos.
  destruct (search_shape fuel st st1 max_count min_simulations max_time
              max_time1 always_search is_followup Hprep)
    as (_ & _ & _ & _ & Hres).
  destruct (Hres result Hret) as [_ Hsel]. fold r root in Hsel.
  unfold select_move in Hsel.
  pose proof (select_child_final_cases (Float_max h) None root Hpos) as Hc.
  destruct (select_child_final (Float_max h) root None) as [[k c]|].
  - injection Hsel as Hmv ->.
    destruct Hc as (Hnth & _ & Hall).
    assert (Hhas : has_children root = true).
    { unfold has_children. destruct (get_children root); trivial.
      destruct k; discriminate. }
    rewrite Hhas. split; [reflexivity|].
    exists c. split; [now apply nth_error_In in Hnth|].
    split; [exact Hmv|].
    intros c' Hin. apply In_nth_error in Hin. destruct Hin as [j Hj].
    now apply (Hall j c' Hj).
  - injection Hsel as Hmv ->.
    assert (Hhas : has_children root = false).
    { unfold has_children. destruct (get_children root) as [|c cs]; trivial.
      specialize (Hc c (or_introl eq_refl)). discriminate. }
    rewrite Hhas. now split.
Qed.

(** X21.  In a search with one thread the counter of simulations counts
    the iterations of the search loop that were begun: after a search
    that ran the search loop it is the number of simulations started when
    the search ended on a full tree, and one more than that when it ended
    on an abort condition, modulo [2^64]. *)
Theorem search_nu_simulations (fuel : nat) (st st1 : SearchState D)
    (max_count min_simulations : Float) (max_time max_time1 : Q)
    (always_search is_followup result : bool) :
  m_nu_threads s = 1%Z ->
  search_prepare h s st max_count max_time always_search
  = PreparedSearch st1 max_time1 is_followup ->
  let r :=
    search h s fuel st max_count min_simulations max_time always_search in
  search_returned r = Some result ->
  m_nu_simulations (search_state r)
  = Limits.wrap_size_t
      (count_simulations (new_events st (search_state r))
       + (if is_out_of_mem (search_state r) then 0 else 1)).
Proof.
  intros _ Hprep r Hret.
  destruct (search_shape fuel st st1 max_count min_simulations max_time
              max_time1 always_search is_followup Hprep)
    as (_ & _ & _ & _ & Hres).
  now destruct (Hres result Hret) as [Hnu _].
Qed.

(** X22.  When [check_followup] reports the position of the last search,
    by an empty sequence, [search] clears the tree, whether [reuse_tree]
    is set or not, and goes on as for a position that is not a follow-up;
    only the init values are taken from the root values of the last
    search. *)
Theorem search_same_position_clears_tree (st : SearchState D)
    (max_count : Float) (max_time : Q) (always_search : bool) (env : D) :
  check_followup h (m_env st) = (true, [], env) ->
  exists st1,
    search_prepare h s st max_count max_time always_search
    = PreparedSearch st1
        (if Float_gt max_count 0 then LimitsDouble.double_max else max_time)
        false /\
    m_tree st1 = Tree_clear h (get_tie_value h) (m_tree st) /\
    m_events st1 = m_events st ++ [EvClearTree] /\
    m_init_val st1
    = init_val_from_root_val (get_nu_players h) (m_root_val st)
        (init_val_clear h (get_nu_players h) (m_init_val st)).
Proof.
  intros Hcf. unfold search_prepare. rewrite Hcf.
  eexists. split.
  - destruct ((m_reuse_subtree s && false || m_reuse_tree s && true)
              && ReuseParam_eqb (get_reuse_param s) _); reflexivity.
  - cbn. auto.
Qed.

(** X23.  The simulations of a search with one thread are numbered from 0
    on without a gap, also across the prune passes: the numbers passed to
    [start_simulation] are 0, 1, 2, ... in this order, modulo [2^64]. *)
Theorem search_simulation_numbers (fuel : nat) (st : SearchState D)
    (max_count min_simulations : Float) (max_time : Q)
    (always_search : bool) :
  m_nu_threads s = 1%Z ->
  let r :=
    search h s fuel st max_count min_simulations max_time always_search in
  let evs := new_events st (search_state r) in
  simulation_numbers evs = numbers_from 0 (length (simulation_numbers evs)).
Proof.
  intros _. cbv zeta.
  destruct (search_prepare h s st max_count max_time always_search)
    as [st1 | st1 max_time1 is_followup] eqn:Hprep.
  - destruct (search_prepare_shape st max_count max_time always_search)
      as (first & Hev1 & _ & _ & Hc1 & _).
    unfold search. rewrite Hprep in *. cbn [prepared_state] in Hev1.
    cbn [search_state].
    rewrite (new_events_app st _ first) by exact Hev1.
    now rewrite (no_simulation_numbers first Hc1).
  - apply (search_shape fuel st st1 max_count min_simulations max_time
             max_time1 always_search is_followup Hprep).
Qed.

End SearchShape.

Lemma search_without_pruning_witness :
  m_prune_full_tree example_search_no_prune = false /\
  let r :=
    search example_host example_search_no_prune 40
      (example_state example_tree None example_env_full) 30 0 10 true in
  prune_thresholds
    (new_events (example_state example_tree None example_env_full)
       (search_state r)) = [] /\
  (count_search_loops
     (new_events (example_state example_tree None example_env_full)
        (search_state r)) <= 1)%nat.
Proof.
  split; [reflexivity|].
  exact (search_without_pruning example_host example_search_no_prune 40
           (example_state example_tree None example_env_full) 30 0 10 true
           eq_refl).
Defined.

Example search_prune_example :
  let st := example_state example_tree None example_env_full in
  let r := search example_host (Search_default 1) 40 st 30 0 10 true in
  search_returned r = Some true /\
  prune_thresholds (new_events st (search_state r)) = [16; 16] /\
  count_search_loops (new_events st (search_state r)) = 3%nat /\
  count_simulations (new_events st (search_state r)) = 32%Z /\
  m_nu_simulations (search_state r) = 33%Z.
Proof. vm_compute. repeat split. Qed.

Lemma search_result_move_witness :
  let st := example_state example_tree None example_env_abort in
  let r := search example_host (Search_default 1) 5 st 30 0 10 true in
  let root := get_root (m_tree (search_state r)) in
  search_prepare example_host (Search_default 1) st 30 10 true
  = PreparedSearch
      (prepared_state
         (search_prepare example_host (Search_default 1) st 30 10 true))
      LimitsDouble.double_max false /\
  search_returned r = Some true /\
  (forall c, In c (get_children root) -> 0 <= get_count c) /\
  if has_children root
  then
    true = true /\
    exists c,
      In c (get_children root) /\ search_mv r = Some (get_move c) /\
      forall c', In c' (get_children root) -> get_count c' <= get_count c
  else true = false /\ search_mv r = None.
Proof.
  cbv zeta.
  assert (H1 : search_prepare example_host (Search_default 1)
                 (example_state example_tree None example_env_abort)
                 30 10 true
               = PreparedSearch
                   (prepared_state
                      (search_prepare example_host (Search_default 1)
                         (example_state example_tree None example_env_abort)
                         30 10 true))
                   LimitsDouble.double_max false) by reflexivity.
  assert (H2 : search_returned
                 (search example_host (Search_default 1) 5
                    (example_state example_tree None example_env_abort)
                    30 0 10 true) = Some true)
    by reflexivity.
  assert (H3 : forall c,
             In c (get_children
                     (get_root
                        (m_tree
                           (search_state
                              (search example_host (Search_default 1) 5
                                 (example_state example_tree None
                                    example_env_abort) 30 0 10 true))))) ->
             0 <= get_count c).
  { intros c [<- | [<- | []]]; simpl; lra. }
  split; [exact H1 | split; [exact H2 | split; [exact H3|]]].
  exact (search_result_move example_host (Search_default 1) 5
           (example_state example_tree None example_env_abort) _
           30 0 10 LimitsDouble.double_max true false true H1 H2 H3).
Defined.

Lemma search_nu_simulations_witness :
  let st := example_state example_tree None example_env_abort in
  let r := search example_host (Search_default 1) 5 st 30 0 10 true in
  m_nu_threads (Search_default 1) = 1%Z /\
  search_prepare example_host (Search_default 1) st 30 10 true
  = PreparedSearch
      (prepared_state
         (search_prepare example_host (Search_default 1) st 30 10 true))
      LimitsDouble.double_max false /\
  search_returned r = Some true /\
  m_nu_simulations (search_state r)
  = Limits.wrap_size_t
      (count_simulations (new_events st (search_state r))
       + (if is_out_of_mem (search_state r) then 0 else 1)).
Proof.
  cbv zeta.
  assert (H1 : search_prepare example_host (Search_default 1)
                 (example_state example_tree None example_env_abort)
                 30 10 true
               = PreparedSearch
                   (prepared_state
                      (search_prepare example_host (Search_default 1)
                         (example_state example_tree None example_env_abort)
                         30 10 true))
                   LimitsDouble.double_max false) by reflexivity.
  assert (H2 : search_returned
                 (search example_host (Search_default 1) 5
                    (example_state example_tree None example_env_abort)
                    30 0 10 true) = Some true)
    by reflexivity.
  split; [reflexivity | split; [exact H1 | split; [exact H2|]]].
  exact (search_nu_simulations example_host (Search_default 1) 5
           (example_state example_tree None example_env_abort) _
           30 0 10 LimitsDouble.double_max true false true eq_refl H1 H2).
Defined.

Lemma search_simulation_numbers_witness :
  m_nu_threads (Search_default 1) = 1%Z /\
  let st := example_state example_tree None example_env_full in
  let r := search example_host (Search_default 1) 40 st 30 0 10 true in
  let evs := new_events st (search_state r) in
  simulation_numbers evs = numbers_from 0 (length (simulation_numbers evs)).
Proof.
  split; [reflexivity|].
  exact (search_simulation_numbers example_host (Search_default 1) 40
           (example_state example_tree None example_env_full) 30 0 10 true
           eq_refl).
Defined.

Example search_abort_example :
  let st := example_state example_tree None example_env_abort in
  let r := search example_host (Search_default 1) 5 st 30 0 10 true in
  search_returned r = Some true /\ search_mv r = Some 1%nat /\
  count_simulations (new_events st (search_state r)) = 1%Z /\
  m_nu_simulations (search_state r) = 2%Z.
Proof. vm_compute. repeat split. Qed.

Lemma search_same_position_clears_tree_witness :
  check_followup example_host (m_env (example_reuse_state example_env_same))
  = (true, [], example_env_same) /\
  exists st1,
    search_prepare example_host example_search_reuse_tree
      (example_reuse_state example_env_same) 30 10 true
    = PreparedSearch st1
        (if Float_gt 30 0 then LimitsDouble.double_max else 10) false /\
    m_tree st1
    = Tree_clear example_host (get_tie_value example_host)
        (m_tree (example_reuse_state example_env_same)) /\
    m_events st1
    = m_events (example_reuse_state example_env_same) ++ [EvClearTree] /\
    m_init_val st1
    = init_val_from_root_val (get_nu_players example_host)
        (m_root_val (example_reuse_state example_env_same))
        (init_val_clear example_host (get_nu_players example_host)
           (m_init_val (example_reuse_state example_env_same))).
Proof.
  split; [reflexivity|].
  exact (search_same_position_clears_tree example_host
           example_search_reuse_tree (example_reuse_state example_env_same)
           30 10 true example_env_same eq_refl).
Defined.

Example search_same_position_example :
  let st := example_reuse_state example_env_same in
  ReuseParam_eqb (get_reuse_param example_search_reuse_tree)
    (m_last_reuse_param st) = true /\
  (1 <? get_nu_nodes (m_tree st))%Z = true /\
  firstn 1
    (new_events st
       (search_state
          (search example_host example_search_reuse_tree 40 st 30 0 10 true)))
  = [EvClearTree].
Proof. vm_compute. repeat split. Qed.

(** ** The expensive abort check in the search loop *)

Section SearchChecker.

Context {D : Type}.
Variable h : Host D.
Variable s : Search.
Variable checker : SearchState D -> bool * D.

Section AgreeingChecker.

Hypothesis checker_agrees :
  forall st, check_abort h st = false ->
             checker st = expensive_abort_checker h st.

(** The search loop does not tell a checker from another one that agrees
    with it where [check_abort] does not hold. *)
Lemma search_loop_iterate_checker (fuel : nat) :
  forall st,
    search_loop_iterate (with_expensive_abort_checker checker h) fuel st
    = search_loop_iterate h fuel st.
Proof.
  induction fuel as [|fuel IH]; intros st; [reflexivity|].
  cbn [search_loop_iterate].
  set (st1 := start_iteration st).
  set (root_count := get_count (get_root (m_tree st1))).
  destruct (Float_gt root_count 0
            && Float_gt (Float_of_Z (m_nu_simulations st))
                 (m_min_simulations st1)).
  - set (st2 := log_event (EvCheckAbort root_count) st1).
    change (check_abort (with_expensive_abort_checker checker h) st2)
      with (check_abort h st2).
    destruct (check_abort h st2) eqn:Hab; [reflexivity|].
    set (st3 := log_event (EvCheckAbortExpensive root_count) st2).
    change (expensive_abort_checker
              (with_expensive_abort_checker checker h) st3)
      with (checker st3).
    rewrite (checker_agrees st3) by exact Hab.
    destruct (expensive_abort_checker h st3) as [abort env].
    destruct abort; [reflexivity|].
    change (simulation (with_expensive_abort_checker checker h))
      with (simulation h).
    destruct (sim_is_out_of_mem _); [reflexivity | apply IH].
  - change (simulation (with_expensive_abort_checker checker h))
      with (simulation h).
    destruct (sim_is_out_of_mem _); [reflexivity | apply IH].
Qed.

Lemma search_rounds_checker (fuel loop_fuel : nat) (nu_threads : Z) :
  forall st max_time prune_min_count,
    search_rounds (with_expensive_abort_checker checker h) s fuel loop_fuel
      nu_threads st max_time prune_min_count
    = search_rounds h s fuel loop_fuel nu_threads st max_time
        prune_min_count.
Proof.
  induction fuel as [|fuel IH]; intros st max_time pmc; [reflexivity|].
  cbn [search_rounds]. unfold search_loop.
  change (new_expensive_abort_checker
            (with_expensive_abort_checker checker h))
    with (new_expensive_abort_checker h).
  change (expected_sim_per_sec (with_expensive_abort_checker checker h))
    with (expected_sim_per_sec h).
  rewrite search_loop_iterate_checker.
  destruct (search_loop_iterate h loop_fuel _) as [exit st1].
  change (prune (with_expensive_abort_checker checker h)) with (prune h).
  change (timer_elapsed (with_expensive_abort_checker checker h))
    with (timer_elapsed h).
  destruct exit; trivial;
    (destruct (negb (is_out_of_mem st1)); [reflexivity|];
     destruct (negb (m_prune_full_tree s)); [reflexivity|];
     destruct (prune h s st1 _ _ pmc) as [[pruned pmc'] st2];
     destruct (negb pruned); [reflexivity | apply IH]).
Qed.

Lemma search_checker (fuel : nat) (st : SearchState D)
    (max_count min_simulations : Float) (max_time : Q)
    (always_search : bool) :
  search (with_expensive_abort_checker checker h) s fuel st max_count
    min_simulations max_time always_search
  = search h s fuel st max_count min_simulations max_time always_search.
Proof.
  unfold search.
  change (search_prepare (with_expensive_abort_checker checker h))
    with (search_prepare h).
  destruct (search_prepare h s st max_count max_time always_search)
    as [st1 | st1 max_time1 is_followup]; [reflexivity|].
  change (search_start (with_expensive_abort_checker checker h))
    with (search_start h).
  change (search_nu_threads (with_expensive_abort_checker checker h))
    with (search_nu_threads h).
  rewrite search_rounds_checker.
  reflexivity.
Qed.

End AgreeingChecker.

(** X24.  The expensive abort check is consulted only when [check_abort]
    has just been evaluated and did not hold.  In the events of a search
    every evaluation of the expensive check follows at once on an
    evaluation of [check_abort] at the same count of the root; and what
    the expensive checker would answer, or do to its surroundings, in a
    state in which [check_abort] holds has no part in a search with one
    thread: with any checker in its place that agrees with it on the
    states in which [check_abort] does not hold, the search returns the
    same value and move and leaves the same state and events. *)
Theorem search_expensive_after_cheap (fuel : nat) (st : SearchState D)
    (max_count min_simulations : Float) (max_time : Q)
    (always_search : bool) :
  let r :=
    search h s fuel st max_count min_simulations max_time always_search in
  expensive_after_cheap (new_events st (search_state r)) /\
  (m_nu_threads s = 1%Z ->
   (forall st', check_abort h st' = false ->
                checker st' = expensive_abort_checker h st') ->
   search (with_expensive_abort_checker checker h) s fuel st max_count
     min_simulations max_time always_search = r).
Proof.
  cbv zeta. split.
  - destruct (search_prepare h s st max_count max_time always_search)
      as [st1 | st1 max_time1 is_followup] eqn:Hprep.
    + destruct (search_prepare_shape h s st max_count max_time always_search)
        as (first & Hev1 & _ & _ & _ & Hpair).
      unfold search. rewrite Hprep in *. cbn [prepared_state] in Hev1.
      cbn [search_state].
      now rewrite (new_events_app st _ first) by exact Hev1.
    + apply (search_shape h s fuel st st1 max_count min_simulations max_time
               max_time1 always_search is_followup Hprep).
  - intros _ Hagree. now apply search_checker.
Qed.

End SearchChecker.

Lemma search_expensive_after_cheap_witness :
  let st := example_reuse_state example_env_aborted in
  let r := search example_host (Search_default 1) 40 st 30 10 10 true in
  (m_nu_threads (Search_default 1) = 1%Z /\
   forall st', check_abort example_host st' = false ->
               example_other_checker st'
               = expensive_abort_checker example_host st') /\
  expensive_after_cheap (new_events st (search_state r)) /\
  search (with_expensive_abort_checker example_other_checker example_host)
    (Search_default 1) 40 st 30 10 10 true = r.
Proof.
  cbv zeta.
  assert (Hagree : forall st', check_abort example_host st' = false ->
               example_other_checker st'
               = expensive_abort_checker example_host st').
  { intros st' Hab. unfold example_other_checker. now rewrite Hab. }
  split; [split; [reflexivity | exact Hagree]|].
  destruct (search_expensive_after_cheap example_host (Search_default 1)
              example_other_checker 40
              (example_reuse_state example_env_aborted) 30 10 10 true)
    as [Hpair Hsame].
  split; [exact Hpair | exact (Hsame eq_refl Hagree)].
Defined.

(** The checker of the example answers otherwise than the one of the host
    where [check_abort] holds: in the search of the example for at most 30
    simulations, [check_abort] holds at the end. *)
Example search_other_checker_example :
  let st := example_reuse_state example_env_aborted in
  let r := search example_host (Search_default 1) 40 st 30 10 10 true in
  search_returned r = Some true /\
  check_abort example_host (search_state r) = true /\
  example_other_checker (search_state r)
  <> expensive_abort_checker example_host (search_state r).
Proof. vm_compute. repeat split. discriminate. Qed.

(** ** The threads of a search *)

Lemma create_threads_nth {S : Type} (s : Search) (create_state : nat -> S)
    (i : nat) (t : ThreadState S) :
  nth_error (create_threads s create_state) i = Some t ->
  t = mkThreadState i (create_state i) first_play_init (0 <? i)%nat.
Proof.
  unfold create_threads. rewrite nth_error_map, nth_error_seq.
  destruct (i <? Z.to_nat (m_nu_threads s))%nat; [|discriminate].
  cbn. now intros [= <-].
Qed.

(** X25.  A search with at least one thread finds every thread it uses:
    after [check_create_threads] there are as many threads as the search
    was constructed for, the search loop runs in at least one and at most
    that many of them, the thread at index [i] has the identifier [i] and
    a table of first plays without entries, and every thread but the one
    at index 0, whose loop runs in the calling thread, has been started. *)
Theorem search_threads_exist {D S : Type} (h : Host D) (s : Search)
    (create_state : nat -> S) (m_threads : list (ThreadState S))
    (st : SearchState D) (max_count : Float) (max_time : Q) :
  (1 <= m_nu_threads s)%Z ->
  m_threads = [] \/ m_threads = create_threads s create_state ->
  let threads := check_create_threads s create_state m_threads in
  let nu_threads := search_nu_threads h s st max_count max_time in
  Z.of_nat (length threads) = m_nu_threads s /\
  (1 <= nu_threads <= Z.of_nat (length threads))%Z /\
  forall i t,
    nth_error threads i = Some t ->
    thread_id t = i /\ thread_running t = (0 <? i)%nat /\
    forall p m, thread_first_play t p m = Limits.unsigned_max.
Proof.
  intros Hn Hthreads threads nu_threads.
  assert (Hlen : length (create_threads s create_state)
                 = Z.to_nat (m_nu_threads s))
    by (unfold create_threads; now rewrite length_map, length_seq).
  assert (Heq : threads = create_threads s create_state).
  { unfold threads, check_create_threads.
    destruct Hthreads as [-> | ->].
    - destruct (m_nu_threads s =? Z.of_nat (length (@nil (ThreadState S))))%Z
        eqn:E; [|reflexivity].
      apply Z.eqb_eq in E. simpl in E. lia.
    - now destruct (negb _). }
  rewrite Heq, Hlen.
  split; [lia|]. split.
  - unfold nu_threads, search_nu_threads.
    destruct (Float_lt max_time (1 # 2) || _); lia.
  - intros i t Hi. apply create_threads_nth in Hi. subst t. cbn.
    repeat split.
Qed.

Lemma search_threads_exist_witness :
  (1 <= m_nu_threads (Search_default 4))%Z /\
  (@nil (ThreadState nat) = []
   \/ @nil (ThreadState nat) = create_threads (Search_default 4) (fun i => i)) /\
  let threads :=
    check_create_threads (Search_default 4) (fun i => i) [] in
  let nu_threads :=
    search_nu_threads example_host (Search_default 4) example_count_state
      100 LimitsDouble.double_max in
  Z.of_nat (length threads) = m_nu_threads (Search_default 4) /\
  (1 <= nu_threads <= Z.of_nat (length threads))%Z /\
  forall i t,
    nth_error threads i = Some t ->
    thread_id t = i /\ thread_running t = (0 <? i)%nat /\
    forall p m, thread_first_play t p m = Limits.unsigned_max.
Proof.
  assert (H1 : (1 <= m_nu_threads (Search_default 4))%Z) by (simpl; lia).
  assert (H2 : @nil (ThreadState nat) = []
               \/ @nil (ThreadState nat)
                  = create_threads (Search_default 4) (fun i => i))
    by (now left).
  split; [exact H1 | split; [exact H2|]].
  exact (search_threads_exist example_host (Search_default 4) (fun i => i) []
           example_count_state 100 LimitsDouble.double_max H1 H2).
Defined.

(** ** The handling of failed assertions *)

Lemma handle_assertion_during_spec (a : Assert.Assertion) (st : Assert.State) :
  NoDup (Assert.additional_assertions st) ->
  let st' := Assert.handle_assertion_during a st in
  NoDup (Assert.additional_assertions st') /\
  (forall m, In m (Assert.additional_assertions st') <->
             In m (Assert.additional_assertions st) \/ m = Assert.message a) /\
  Assert.all_handlers st' = Assert.all_handlers st /\
  Assert.is_during_handle_assertion st'
  = Assert.is_during_handle_assertion st /\
  Assert.logged st' = Assert.logged st /\
  Assert.handlers_run st' = Assert.handlers_run st.
Proof.
  intros Hnd. cbv zeta. unfold Assert.handle_assertion_during.
  destruct (existsb (String.eqb (Assert.message a))
              (Assert.additional_assertions st)) eqn:Hex; cbn [negb].
  - apply existsb_exists in Hex. destruct Hex as (m0 & Hin & Heq).
    apply String.eqb_eq in Heq. subst m0.
    split; [exact Hnd|]. split; [|auto].
    intros m. split; [now left | intros [H | ->]; trivial].
  - cbn. split.
    + apply NoDup_app; trivial.
      * constructor; [intros [] | constructor].
      * intros m Hin [<- | []].
        assert (Ht : existsb (String.eqb (Assert.message a))
                       (Assert.additional_assertions st) = true).
        { apply existsb_exists. exists (Assert.message a).
          split; trivial. apply String.eqb_refl. }
        congruence.
    + split; [|auto].
      intros m. rewrite in_app_iff. cbn. intuition.
Qed.

Lemma handle_assertion_during_fold (l : list Assert.Assertion) :
  forall st,
    NoDup (Assert.additional_assertions st) ->
    let st' :=
      fold_left (fun st a => Assert.handle_assertion_during a st) l st in
    NoDup (Assert.additional_assertions st') /\
    (forall m, In m (Assert.additional_assertions st') <->
               In m (Assert.additional_assertions st)
               \/ exists a, In a l /\ Assert.message a = m) /\
    Assert.all_handlers st' = Assert.all_handlers st /\
    Assert.is_during_handle_assertion st'
    = Assert.is_during_handle_assertion st /\
    Assert.logged st' = Assert.logged st /\
    Assert.handlers_run st' = Assert.handlers_run st.
Proof.
  induction l as [|a l IH]; intros st Hnd; cbn [fold_left].
  - split; [exact Hnd|]. split; [|auto].
    intros m. split; [now left | intros [H | (a & [] & _)]; trivial].
  - destruct (handle_assertion_during_spec a st Hnd)
      as (Hnd1 & Hin1 & Hh1 & Hd1 & Hl1 & Hr1).
    destruct (IH _ Hnd1) as (Hnd2 & Hin2 & Hh2 & Hd2 & Hl2 & Hr2).
    split; [exact Hnd2|]. split; [|repeat split; congruence].
    intros m. rewrite Hin2, Hin1. split.
    + intros [[H | ->] | (a' & Ha' & Hm)].
      * now left.
      * right. exists a. split; [now left | reflexivity].
      * right. exists a'. split; [now right | exact Hm].
    + intros [H | (a' & [<- | Ha'] & Hm)].
      * left. now left.
      * left. right. now symmetry.
      * right. now exists a'.
Qed.

Lemma run_handler_spec (run : Assert.Handler -> list Assert.Assertion)
    (handler : Assert.Handler) (st : Assert.State) :
  NoDup (Assert.additional_assertions st) ->
  let st' := Assert.run_handler run st handler in
  NoDup (Assert.additional_assertions st') /\
  (forall m, In m (Assert.additional_assertions st') <->
             In m (Assert.additional_assertions st)
             \/ exists a, In a (run handler) /\ Assert.message a = m) /\
  Assert.all_handlers st' = Assert.all_handlers st /\
  Assert.is_during_handle_assertion st'
  = Assert.is_during_handle_assertion st /\
  Assert.logged st' = Assert.logged st /\
  Assert.handlers_run st' = Assert.handlers_run st ++ [handler].
Proof.
  intros Hnd. cbv zeta. unfold Assert.run_handler.
  match goal with
  | |- context [fold_left _ (run handler) ?x] => set (st0 := x)
  end.
  exact (handle_assertion_during_fold (run handler) st0 Hnd).
Qed.

Lemma run_handler_fold (run : Assert.Handler -> list Assert.Assertion)
    (handlers : list Assert.Handler) :
  forall st,
    NoDup (Assert.additional_assertions st) ->
    let st' := fold_left (Assert.run_handler run) handlers st in
    NoDup (Assert.additional_assertions st') /\
    (forall m, In m (Assert.additional_assertions st') <->
               In m (Assert.additional_assertions st)
               \/ exists handler a,
                    In handler handlers /\ In a (run handler) /\
                    Assert.message a = m) /\
    Assert.all_handlers st' = Assert.all_handlers st /\
    Assert.is_during_handle_assertion st'
    = Assert.is_during_handle_assertion st /\
    Assert.logged st' = Assert.logged st /\
    Assert.handlers_run st' = Assert.handlers_run st ++ handlers.
Proof.
  induction handlers as [|handler handlers IH]; intros st Hnd;
    cbn [fold_left].
  - rewrite app_nil_r. split; [exact Hnd|]. split; [|auto].
    intros m. split; [now left | intros [H | (x & a & [] & _)]; trivial].
  - destruct (run_handler_spec run handler st Hnd)
      as (Hnd1 & Hin1 & Hh1 & Hd1 & Hl1 & Hr1).
    destruct (IH _ Hnd1) as (Hnd2 & Hin2 & Hh2 & Hd2 & Hl2 & Hr2).
    split; [exact Hnd2|]. split.
    + intros m. rewrite Hin2, Hin1. split.
      * intros [[H | (a & Ha & Hm)] | (x & a & Hx & Ha & Hm)].
        -- now left.
        -- right. exists handler, a. repeat split; trivial. now left.
        -- right. exists x, a. repeat split; trivial. now right.
      * intros [H | (x & a & [<- | Hx] & Ha & Hm)].
        -- left. now left.
        -- left. right. now exists a.
        -- right. now exists x, a.
    + rewrite Hh2, Hh1, Hd2, Hd1, Hl2, Hl1, Hr2, Hr1.
      rewrite <- app_assoc. auto.
Qed.

(** X26.  [handle_assertion] reports every assertion that fails while the
    assertion handlers run exactly once.  The first call logs the message
    of the assertion, runs every registered handler once, in the order of
    registration, logs after a header the distinct messages of the
    assertions that failed meanwhile, and aborts.  A call made while the
    handlers run only records its message, unless it is recorded
    already, and returns. *)
Theorem handle_assertion_reports_once
    (run : Assert.Handler -> list Assert.Assertion)
    (a : Assert.Assertion) (st : Assert.State) :
  NoDup (Assert.additional_assertions st) ->
  let st' := fst (Assert.handle_assertion run a st) in
  let aborted := snd (Assert.handle_assertion run a st) in
  NoDup (Assert.additional_assertions st') /\
  if Assert.is_during_handle_assertion st
  then
    aborted = false /\
    Assert.logged st' = Assert.logged st /\
    Assert.handlers_run st' = Assert.handlers_run st /\
    forall m, In m (Assert.additional_assertions st') <->
              In m (Assert.additional_assertions st) \/ m = Assert.message a
  else
    aborted = true /\
    Assert.handlers_run st'
    = Assert.handlers_run st ++ Assert.all_handlers st /\
    (forall m, In m (Assert.additional_assertions st') <->
               In m (Assert.additional_assertions st)
               \/ exists handler a',
                    In handler (Assert.all_handlers st) /\
                    In a' (run handler) /\ Assert.message a' = m) /\
    Assert.logged st'
    = Assert.logged st
      ++ Assert.message a
         :: match Assert.additional_assertions st' with
            | [] => []
            | _ :: _ =>
                Assert.additional_header :: Assert.additional_assertions st'
            end.
Proof.
  intros Hnd. cbv zeta. unfold Assert.handle_assertion.
  destruct (Assert.is_during_handle_assertion st) eqn:Hduring.
  - cbn [fst snd].
    destruct (handle_assertion_during_spec a st Hnd)
      as (Hnd1 & Hin1 & _ & _ & Hl1 & Hr1).
    auto.
  - match goal with
    | |- context [fold_left (Assert.run_handler run) _ ?x] => set (st0 := x)
    end.
    destruct (run_handler_fold run (Assert.all_handlers st) st0 Hnd)
      as (Hnd1 & Hin1 & Hh1 & Hd1 & Hl1 & Hr1).
    change (Assert.all_handlers st0) with (Assert.all_handlers st).
    change (Assert.additional_assertions st0)
      with (Assert.additional_assertions st) in Hin1.
    change (Assert.logged st0)
      with (Assert.logged st ++ [Assert.message a]) in Hl1.
    change (Assert.handlers_run st0) with (Assert.handlers_run st) in Hr1.
    set (st1 := fold_left (Assert.run_handler run) (Assert.all_handlers st)
                  st0) in *.
    destruct (Assert.additional_assertions st1) as [|m0 ms] eqn:Hadd;
      cbn [fst snd Assert.additional_assertions Assert.logged
           Assert.handlers_run].
    + rewrite ?Hadd. split; [constructor|]. split; [reflexivity|].
      split; [exact Hr1|]. split; [exact Hin1|].
      now rewrite Hl1.
    + rewrite ?Hadd. split; [exact Hnd1|]. split; [reflexivity|].
      split; [exact Hr1|]. split; [exact Hin1|].
      rewrite Hl1, <- app_assoc. reflexivity.
Qed.

Lemma handle_assertion_reports_once_witness :
  NoDup (Assert.additional_assertions Assert.example_state) /\
  let st' :=
    fst (Assert.handle_assertion Assert.example_run Assert.example_assertion
           Assert.example_state) in
  let aborted :=
    snd (Assert.handle_assertion Assert.example_run Assert.example_assertion
           Assert.example_state) in
  NoDup (Assert.additional_assertions st') /\
  if Assert.is_during_handle_assertion Assert.example_state
  then
    aborted = false /\
    Assert.logged st' = Assert.logged Assert.example_state /\
    Assert.handlers_run st' = Assert.handlers_run Assert.example_state /\
    forall m, In m (Assert.additional_assertions st') <->
              In m (Assert.additional_assertions Assert.example_state)
              \/ m = Assert.message Assert.example_assertion
  else
    aborted = true /\
    Assert.handlers_run st'
    = Assert.handlers_run Assert.example_state
      ++ Assert.all_handlers Assert.example_state /\
    (forall m, In m (Assert.additional_assertions st') <->
               In m (Assert.additional_assertions Assert.example_state)
               \/ exists handler a',
                    In handler (Assert.all_handlers Assert.example_state) /\
                    In a' (Assert.example_run handler) /\
                    Assert.message a' = m) /\
    Assert.logged st'
    = Assert.logged Assert.example_state
      ++ Assert.message Assert.example_assertion
         :: match Assert.additional_assertions st' with
            | [] => []
            | _ :: _ =>
                Assert.additional_header :: Assert.additional_assertions st'
            end.
Proof.
  assert (H : NoDup (Assert.additional_assertions Assert.example_state))
    by constructor.
  split; [exact H|].
  exact (handle_assertion_reports_once Assert.example_run
           Assert.example_assertion Assert.example_state H).
Defined.

Example handle_assertion_example :
  let st' :=
    fst (Assert.handle_assertion Assert.example_run Assert.example_assertion
           Assert.example_state) in
  Assert.handlers_run st' = [1%nat; 2%nat] /\
  length (Assert.additional_assertions st') = 2%nat /\
  length (Assert.logged st') = 4%nat.
Proof. vm_compute. repeat split. Qed.

(** X27.  The destructor of an assertion handler takes the handler off the
    list of registered handlers and leaves the other handlers in their
    order, so that [handle_assertion] does not run it any more;
    constructing a handler and destroying it again leaves the list as it
    was. *)
Theorem AssertionHandler_delete_unregisters
    (this : Assert.Handler) (st : Assert.State) :
  Assert.all_handlers (Assert.AssertionHandler_delete this st)
  = filter (fun handler => negb (Nat.eqb handler this))
      (Assert.all_handlers st) /\
  (forall run a,
      NoDup (Assert.additional_assertions st) ->
      Assert.is_during_handle_assertion st = false ->
      exists ran,
        Assert.handlers_run
          (fst (Assert.handle_assertion run a
                  (Assert.AssertionHandler_delete this st)))
        = Assert.handlers_run st ++ ran /\
        ~ In this ran) /\
  (~ In this (Assert.all_handlers st) ->
   Assert.all_handlers
     (Assert.AssertionHandler_delete this
        (Assert.AssertionHandler_new this st))
   = Assert.all_handlers st).
Proof.
  assert (Hfilter : forall l,
            List.remove Nat.eq_dec this l
            = filter (fun handler => negb (Nat.eqb handler this)) l).
  { induction l as [|x l IH]; [reflexivity|]. cbn.
    destruct (Nat.eq_dec this x) as [<- | Hne].
    - now rewrite Nat.eqb_refl.
    - assert (Hx : Nat.eqb x this = false)
        by (apply Nat.eqb_neq; congruence).
      rewrite Hx. cbn. now rewrite IH. }
  split; [apply Hfilter|]. split.
  - intros run a Hnd Hduring.
    unfold Assert.handle_assertion.
    cbn [Assert.AssertionHandler_delete Assert.is_during_handle_assertion].
    rewrite Hduring.
    match goal with
    | |- context [fold_left (Assert.run_handler run) ?l ?x] =>
        set (handlers := l); set (st0 := x)
    end.
    destruct (run_handler_fold run handlers st0 Hnd)
      as (_ & _ & _ & _ & _ & Hr).
    exists handlers. split.
    + destruct (Assert.additional_assertions
                  (fold_left (Assert.run_handler run) handlers st0));
        cbn [fst Assert.handlers_run]; exact Hr.
    + unfold handlers. cbn. apply remove_In.
  - intros Hnot. cbn. rewrite remove_app. cbn.
    destruct (Nat.eq_dec this this) as [_ | Hne]; [|now elim Hne].
    rewrite app_nil_r. now apply notin_remove.
Qed.

Lemma AssertionHandler_delete_unregisters_example :
  Assert.all_handlers
    (Assert.AssertionHandler_delete 1%nat Assert.example_state)
  = [2%nat].
Proof. reflexivity. Qed.
